(** * A shallow embedding of the diff engine and chunk model of the merge view

    The definitions below follow the JavaScript of the bundled module
    (functions [findDiff], [findSnake], [Frontier.advance], [bisect],
    [commonPrefix], [commonSuffix], [findMatch], [halfMatch], [crudeMatch],
    [mergeAdjacent], [normalize], [makePresentable], [diff],
    [presentableDiff], [toChunks], [findPos], [findRangesForChange],
    [updateChunks] and the [Chunk] class).

    Conventions.
    - A JavaScript string is the list of its UTF-16 code units ([str]).
    - Positions are integers ([Z]); several of them can become negative in
      the source ([indexOf] returning -1, [commonPrefix] returning -1).
    - Loops that are not bounded by the shape of their data take a [fuel]
      argument and return [None] when it runs out; [None] is never a value
      the program produces.
    - The module-level variables [scanLimit], [timeout] and [crude] and the
      wall clock read by [Date.now()] are threaded through a small state
      monad. *)

From Stdlib Require Import ZArith List Bool Lia.
From Stdlib Require Ascii String.
Import ListNotations.
Open Scope Z_scope.

Set Implicit Arguments.

(** ** 32-bit integer operators *)

Definition toInt32 (z : Z) : Z := (z + 2147483648) mod 4294967296 - 2147483648.

(** [x << n] and [x >> n] for [0 <= n < 32]. *)
Definition shl32 (x n : Z) : Z := toInt32 (toInt32 x * 2 ^ n).
Definition sar32 (x n : Z) : Z := toInt32 x / 2 ^ n.
Definition and32 (x y : Z) : Z := toInt32 (Z.land (toInt32 x) (toInt32 y)).

(** ** Strings as lists of UTF-16 code units *)

Definition str := list Z.

Definition slen (s : str) : Z := Z.of_nat (length s).

(** [s.charCodeAt(i)]; [None] stands for NaN. *)
Definition charCodeAt (s : str) (i : Z) : option Z :=
  if i <? 0 then None else nth_error s (Z.to_nat i).

(** [x == y] on two results of [charCodeAt]: NaN equals nothing. *)
Definition code_eq (x y : option Z) : bool :=
  match x, y with
  | Some u, Some v => u =? v
  | _, _ => false
  end.

(** [c == n] for a result of [charCodeAt] and a number. *)
Definition code_is (x : option Z) (n : Z) : bool :=
  match x with Some u => u =? n | None => false end.

(** The index arithmetic of [String.prototype.slice]. *)
Definition clampIndex (len i : Z) : Z :=
  if i <? 0 then Z.max (len + i) 0 else Z.min i len.

(** [s.slice(from, to)]. *)
Definition slice (s : str) (from to : Z) : str :=
  let f := clampIndex (slen s) from in
  let t := clampIndex (slen s) to in
  firstn (Z.to_nat (t - f)) (skipn (Z.to_nat f) s).

(** [s.slice(from)]. *)
Definition sliceFrom (s : str) (from : Z) : str := slice s from (slen s).

Fixpoint str_eqb (s t : str) : bool :=
  match s, t with
  | [], [] => true
  | x :: s', y :: t' => (x =? y) && str_eqb s' t'
  | _, _ => false
  end.

Fixpoint isPrefix (p s : str) : bool :=
  match p, s with
  | [], _ => true
  | x :: p', y :: s' => (x =? y) && isPrefix p' s'
  | _ :: _, [] => false
  end.

(** First position [>= pos] of [s] (counted from [pos] at the head of [s])
    where [pat] occurs, or -1. *)
Fixpoint indexOf_from (pat s : str) (pos : Z) : Z :=
  if isPrefix pat s then pos
  else match s with
       | [] => -1
       | _ :: s' => indexOf_from pat s' (pos + 1)
       end.

(** [s.indexOf(pat, start)]. *)
Definition indexOf (s pat : str) (start : Z) : Z :=
  let k := Z.min (Z.max start 0) (slen s) in
  indexOf_from pat (skipn (Z.to_nat k) s) k.

(** ** Changes *)

Record Change := mkChange { fromA : Z; toA : Z; fromB : Z; toB : Z }.

(** [Change.offset(offA, offB)] *)
Definition Change_offset (c : Change) (offA offB : Z) : Change :=
  mkChange (fromA c + offA) (toA c + offA) (fromB c + offB) (toB c + offB).

Definition Change_eqb (c d : Change) : bool :=
  (fromA c =? fromA d) && (toA c =? toA d) &&
  (fromB c =? fromB d) && (toB c =? toB d).

(** ** Surrogates *)

Definition isSurrogate1 (code : Z) : bool := (55296 <=? code) && (code <=? 56319).
Definition isSurrogate2 (code : Z) : bool := (56320 <=? code) && (code <=? 57343).

Definition opt_test (f : Z -> bool) (x : option Z) : bool :=
  match x with Some u => f u | None => false end.

(** [validIndex(s, index)] *)
Definition validIndex (s : str) (index : Z) : bool :=
  (index =? 0) || (index =? slen s)
  || negb (opt_test isSurrogate1 (charCodeAt s (index - 1)))
  || negb (opt_test isSurrogate2 (charCodeAt s index)).

(** ** Common prefix and suffix *)

(** The loop of [chunkSize]: [size] doubles (as a 32-bit integer) until it
    reaches [max]. *)
Fixpoint chunkSize_loop (fuel : nat) (size max : Z) : option Z :=
  match fuel with
  | O => None
  | S f => if size <? max then chunkSize_loop f (shl32 size 1) max else Some size
  end.

Definition chunkSize (fuel : nat) (lenA lenB : Z) : option Z :=
  chunkSize_loop fuel 1 (Z.min lenA lenB).

Fixpoint commonPrefix_loop (fuel : nat) (a : str) (fromA toA : Z) (b : str) (fromB toB : Z)
         (chunk pA pB : Z) : option Z :=
  match fuel with
  | O => None
  | S f =>
      let endA := pA + chunk in
      let endB := pB + chunk in
      if (endA >? toA) || (endB >? toB) || negb (str_eqb (slice a pA endA) (slice b pB endB))
      then
        if chunk =? 1 then Some (pA - fromA - (if validIndex a pA then 0 else 1))
        else commonPrefix_loop f a fromA toA b fromB toB (sar32 chunk 1) pA pB
      else if (endA =? toA) || (endB =? toB) then Some (endA - fromA)
      else commonPrefix_loop f a fromA toA b fromB toB chunk endA endB
  end.

(** [commonPrefix(a, fromA, toA, b, fromB, toB)]; the second test of the
    guard compares [fromA] with [toB], as the source does. *)
Definition commonPrefix (fuel : nat) (a : str) (fromA toA : Z) (b : str) (fromB toB : Z)
  : option Z :=
  if (fromA =? toA) || (fromA =? toB)
     || negb (code_eq (charCodeAt a fromA) (charCodeAt b fromB))
  then Some 0
  else
    match chunkSize fuel (toA - fromA) (toB - fromB) with
    | None => None
    | Some chunk => commonPrefix_loop fuel a fromA toA b fromB toB chunk fromA fromB
    end.

Fixpoint commonSuffix_loop (fuel : nat) (a : str) (fromA toA : Z) (b : str) (fromB toB : Z)
         (chunk pA pB : Z) : option Z :=
  match fuel with
  | O => None
  | S f =>
      let sA := pA - chunk in
      let sB := pB - chunk in
      if (sA <? fromA) || (sB <? fromB) || negb (str_eqb (slice a sA pA) (slice b sB pB))
      then
        if chunk =? 1 then Some (toA - pA - (if validIndex a pA then 0 else 1))
        else commonSuffix_loop f a fromA toA b fromB toB (sar32 chunk 1) pA pB
      else if (sA =? fromA) || (sB =? fromB) then Some (toA - sA)
      else commonSuffix_loop f a fromA toA b fromB toB chunk sA sB
  end.

(** [commonSuffix(a, fromA, toA, b, fromB, toB)] *)
Definition commonSuffix (fuel : nat) (a : str) (fromA toA : Z) (b : str) (fromB toB : Z)
  : option Z :=
  if (fromA =? toA) || (fromB =? toB)
     || negb (code_eq (charCodeAt a (toA - 1)) (charCodeAt b (toB - 1)))
  then Some 0
  else
    match chunkSize fuel (toA - fromA) (toB - fromB) with
    | None => None
    | Some chunk => commonSuffix_loop fuel a fromA toA b fromB toB chunk toA toB
    end.

(** ** Module state and the clock *)

(** The module-level variables [scanLimit], [timeout] and [crude], and the
    number of times [Date.now()] has been read so far. *)
Record Globals := mkGlobals {
  scanLimit : Z;
  timeout : Z;
  crude : bool;
  ticks : nat
}.

Definition M (A : Type) : Type := Globals -> option (A * Globals).

Definition ret {A} (x : A) : M A := fun g => Some (x, g).

Definition bind {A B} (m : M A) (k : A -> M B) : M B :=
  fun g => match m g with
           | Some (x, g') => k x g'
           | None => None
           end.

(** A pure computation that may run out of fuel. *)
Definition lift {A} (o : option A) : M A :=
  fun g => match o with Some x => Some (x, g) | None => None end.

Definition getScanLimit : M Z := fun g => Some (scanLimit g, g).
Definition getTimeout : M Z := fun g => Some (timeout g, g).
Definition setCrude : M unit :=
  fun g => Some (tt, mkGlobals (scanLimit g) (timeout g) true (ticks g)).

Declare Scope m_scope.
Delimit Scope m_scope with M.
Notation "x <- c ;; k" := (bind c (fun x => k))
  (at level 61, c at next level, right associativity) : m_scope.
Notation "' pat <- c ;; k" := (bind c (fun x => match x with pat => k end))
  (at level 61, pat pattern, c at next level, right associativity) : m_scope.
Open Scope m_scope.

(** ** The Myers frontier *)

(** A [Frontier] after [reset].  The source keeps the two frontiers across
    calls: [reset(off)] sets the entries [0 .. len-1] to -1 and the entry
    [off + 1] to 0, and leaves whatever lies beyond from earlier calls.  Here
    [vec] holds the entries that [reset] has written; a later read or write
    outside them is reported as [None], so a run that yields a result never
    depended on an entry left over from an earlier call. *)
Record Frontier := mkFrontier {
  vec : list Z;
  flen : Z;
  fstart : Z;
  fend : Z
}.

Definition vget (v : list Z) (i : Z) : option Z :=
  if i <? 0 then None else nth_error v (Z.to_nat i).

Fixpoint list_set (v : list Z) (n : nat) (x : Z) : option (list Z) :=
  match v, n with
  | [], _ => None
  | _ :: v', O => Some (x :: v')
  | y :: v', S n' => match list_set v' n' x with
                     | Some w => Some (y :: w)
                     | None => None
                     end
  end.

Definition vset (v : list Z) (i : Z) (x : Z) : option (list Z) :=
  if i <? 0 then None else list_set v (Z.to_nat i) x.

(** [vec[i] = x] on a list, where the position exists. *)
Definition list_put (v : list Z) (i : Z) (x : Z) : list Z :=
  match vset v i x with
  | Some w => w
  | None => v
  end.

(** [Frontier.reset(off)]; the entry [off + 1] lies beyond [len] when
    [off <= 1]. *)
Definition Frontier_reset (off : Z) : Frontier :=
  let len := shl32 off 1 in
  mkFrontier (list_put (repeat (-1) (Z.to_nat (Z.max len (off + 2)))) (off + 1) 0)
             len 0 0.

Section Advance.
Variables (lenX lenY vOff : Z) (other : option (list Z)) (fromBack : bool).
Variable matches : Z -> Z -> bool.

(** The inner [while (x < lenX && y < lenY && match(x, y))] loop. *)
Fixpoint snake (n : nat) (x y : Z) : option (Z * Z) :=
  match n with
  | O => None
  | S n' =>
      if (x <? lenX) && (y <? lenY) && matches x y
      then snake n' (x + 1) (y + 1)
      else Some (x, y)
  end.

(** The overlap test against the other frontier; [Some None] when the
    loop goes on. *)
Definition meet (len k x y : Z) : option (option (Z * Z)) :=
  match other with
  | None => Some None
  | Some ov =>
      let offOther := vOff + (lenX - lenY) - k in
      if (0 <=? offOther) && (offOther <? len) then
        match vget ov offOther with
        | None => None
        | Some o =>
            if o =? -1 then Some None
            else if negb fromBack then
              let xOther := lenX - o in
              if x >=? xOther then Some (Some (x, y)) else Some None
            else
              let xOther := o in
              if xOther >=? lenX - x
              then Some (Some (xOther, vOff + xOther - offOther))
              else Some None
        end
      else Some None
  end.

(** The [for] loop of [Frontier.advance], from diagonal [k] on. *)
Fixpoint advance_loop (fuel n : nat) (depth k : Z) (fr : Frontier)
  : option (option (Z * Z) * Frontier) :=
  match n with
  | O => None
  | S n' =>
      if k <=? depth - fend fr then
        let off := vOff + k in
        let ox :=
          if k =? - depth then vget (vec fr) (off + 1)
          else if k =? depth then option_map (Z.add 1) (vget (vec fr) (off - 1))
          else match vget (vec fr) (off - 1), vget (vec fr) (off + 1) with
               | Some l, Some r => Some (if l <? r then r else l + 1)
               | _, _ => None
               end in
        match ox with
        | None => None
        | Some x0 =>
            match snake fuel x0 (x0 - k) with
            | None => None
            | Some (x, y) =>
                match vset (vec fr) off x with
                | None => None
                | Some v' =>
                    if x >? lenX then
                      advance_loop fuel n' depth (k + 2)
                        (mkFrontier v' (flen fr) (fstart fr) (fend fr + 2))
                    else if y >? lenY then
                      advance_loop fuel n' depth (k + 2)
                        (mkFrontier v' (flen fr) (fstart fr + 2) (fend fr))
                    else
                      let fr' := mkFrontier v' (flen fr) (fstart fr) (fend fr) in
                      match meet (flen fr) k x y with
                      | None => None
                      | Some (Some r) => Some (Some r, fr')
                      | Some None => advance_loop fuel n' depth (k + 2) fr'
                      end
                end
            end
        end
      else Some (None, fr)
  end.

(** [Frontier.advance(depth, lenX, lenY, vOff, other, fromBack, match)] *)
Definition Frontier_advance (fuel : nat) (depth : Z) (fr : Frontier)
  : option (option (Z * Z) * Frontier) :=
  advance_loop fuel fuel depth (- depth + fstart fr) fr.
End Advance.

(** ** Shared-substring search *)

(** A shared substring [(startA, startB, length)]. *)
Definition Match : Type := Z * Z * Z.

Definition swapMatch (m : Match) : Match :=
  let '(x, y, l) := m in (y, x, l).

Section FindMatch.
Variable fuel : nat.
Variables (a : str) (fromA toA : Z) (b : str) (fromB toB : Z).

(** The [while ((found = rangeB.indexOf(seed, found + 1)) != -1)] loop. *)
Fixpoint findMatch_occ (n : nat) (rangeB seed : str) (start end_ found : Z)
         (best : option Match) : option (option Match) :=
  match n with
  | O => None
  | S n' =>
      let found' := indexOf rangeB seed (found + 1) in
      if found' =? -1 then Some best
      else
        match commonPrefix fuel a end_ toA b (fromB + found' + slen seed) toB,
              commonSuffix fuel a fromA start b fromB (fromB + found') with
        | Some prefixAfter, Some suffixBefore =>
            let length := slen seed + prefixAfter + suffixBefore in
            let best' :=
              match best with
              | Some (_, _, l) =>
                  if l <? length
                  then Some (start - suffixBefore, fromB + found' - suffixBefore, length)
                  else best
              | None => Some (start - suffixBefore, fromB + found' - suffixBefore, length)
              end in
            findMatch_occ n' rangeB seed start end_ found' best'
        | _, _ => None
        end
  end.

(** The [for (let start = fromA + size;;)] loop. *)
Fixpoint findMatch_seeds (n : nat) (rangeB : str) (size start : Z)
         (best : option Match) : option (option Match) :=
  match n with
  | O => None
  | S n' =>
      let start1 := if validIndex a start then start else start + 1 in
      let end0 := start1 + size in
      let end_ :=
        if validIndex a end0 then end0
        else end0 + (if end0 =? start1 + 1 then 1 else -1) in
      if end_ >=? toA then Some best
      else
        let seed := slice a start1 end_ in
        match findMatch_occ fuel rangeB seed start1 end_ (-1) best with
        | None => None
        | Some best' => findMatch_seeds n' rangeB size end_ best'
        end
  end.

(** The outer [for (;;)] loop. *)
Fixpoint findMatch_sizes (n : nat) (rangeB : str) (size divideTo : Z)
         (best : option Match) : option (option Match) :=
  match n with
  | O => None
  | S n' =>
      match best with
      | Some _ => Some best
      | None =>
          if size <? divideTo then Some best
          else
            match findMatch_seeds fuel rangeB size (fromA + size) best with
            | None => None
            | Some best' =>
                if divideTo <? 0 then Some best'
                else findMatch_sizes n' rangeB (sar32 size 1) divideTo best'
            end
      end
  end.

(** [findMatch(a, fromA, toA, b, fromB, toB, size, divideTo)] *)
Definition findMatch (size divideTo : Z) : option (option Match) :=
  findMatch_sizes fuel (slice b fromB toB) size divideTo None.
End FindMatch.

(** [halfMatch(a, fromA, toA, b, fromB, toB)]; the recursive call of the
    source only swaps the two sides once. *)
Definition halfMatch (fuel : nat) (a : str) (fromA toA : Z) (b : str) (fromB toB : Z)
  : option (option Match) :=
  let lenA := toA - fromA in
  let lenB := toB - fromB in
  if lenA <? lenB then
    if (lenB <? 4) || (lenA * 2 <? lenB) then Some None
    else option_map (option_map swapMatch)
                    (findMatch fuel b fromB toB a fromA toA (lenB / 4) (-1))
  else
    if (lenA <? 4) || (lenB * 2 <? lenA) then Some None
    else findMatch fuel a fromA toA b fromB toB (lenA / 4) (-1).

(** ** The recursive diff *)

Section Engine.
(** [now n] is the value of the [n]-th reading of [Date.now()]. *)
Variable now : nat -> Z.
Variable fuel : nat.

Definition dateNow : M Z :=
  fun g => Some (now (ticks g),
                 mkGlobals (scanLimit g) (timeout g) (crude g) (S (ticks g))).

Section Rec.
(** The recursive occurrence of [findDiff]. *)
Variable findDiff : str -> Z -> Z -> str -> Z -> Z -> M (list Change).

(** [bisect(a, fromA, toA, splitA, b, fromB, toB, splitB)] *)
Definition bisect (a : str) (fromA toA splitA : Z) (b : str) (fromB toB splitB : Z)
  : M (list Change) :=
  let '(splitA, stopA) :=
    if validIndex a splitA then (splitA, false)
    else (splitA + 1, splitA + 1 =? toA) in
  let '(splitB, stopB) :=
    if validIndex b splitB then (splitB, false)
    else (splitB + 1, splitB + 1 =? toB) in
  if stopA || stopB then ret [mkChange fromA toA fromB toB]
  else
    l1 <- findDiff a fromA splitA b fromB splitB ;;
    l2 <- findDiff a splitA toA b splitB toB ;;
    ret (l1 ++ l2).

(** [crudeMatch(a, fromA, toA, b, fromB, toB)] *)
Definition crudeMatch (a : str) (fromA toA : Z) (b : str) (fromB toB : Z)
  : M (list Change) :=
  _ <- setCrude ;;
  let lenA := toA - fromA in
  let lenB := toB - fromB in
  result <- lift (if lenA <? lenB
                  then option_map (option_map swapMatch)
                         (findMatch fuel b fromB toB a fromA toA (lenA / 6) 50)
                  else findMatch fuel a fromA toA b fromB toB (lenB / 6) 50) ;;
  match result with
  | None => ret [mkChange fromA toA fromB toB]
  | Some (sharedA, sharedB, sharedLen) =>
      l1 <- findDiff a fromA sharedA b fromB sharedB ;;
      l2 <- findDiff a (sharedA + sharedLen) toA b (sharedB + sharedLen) toB ;;
      ret (l1 ++ l2)
  end.

(** The test [timeout > 0 && Date.now() > timeout]. *)
Definition timedOut : M bool :=
  tm <- getTimeout ;;
  if tm >? 0 then (t <- dateNow ;; ret (t >? tm)) else ret false.

(** The [for (let depth = 0; depth < off; depth++)] loop of [findSnake]. *)
Fixpoint findSnake_loop (n : nat) (a : str) (fromA toA : Z) (b : str) (fromB toB : Z)
         (off depth : Z) (frontier1 frontier2 : Frontier) : M (list Change) :=
  match n with
  | O => lift None
  | S n' =>
      if depth <? off then
        sl <- getScanLimit ;;
        over <- (if depth >? sl then ret true
                 else if and32 depth 63 =? 0 then timedOut
                 else ret false) ;;
        if (over : bool) then crudeMatch a fromA toA b fromB toB
        else
          let lenA := toA - fromA in
          let lenB := toB - fromB in
          let match1 x y := code_eq (charCodeAt a (fromA + x)) (charCodeAt b (fromB + y)) in
          let match2 x y :=
            code_eq (charCodeAt a (toA - x - 1)) (charCodeAt b (toB - y - 1)) in
          let odd := negb (Z.rem (lenA - lenB) 2 =? 0) in
          '(done1, f1) <- lift (Frontier_advance lenA lenB off
                                  (if odd then Some (vec frontier2) else None)
                                  false match1 fuel depth frontier1) ;;
          match done1 with
          | Some (x, y) => bisect a fromA toA (fromA + x) b fromB toB (fromB + y)
          | None =>
              '(done2, f2) <- lift (Frontier_advance lenA lenB off
                                      (if odd then None else Some (vec f1))
                                      true match2 fuel depth frontier2) ;;
              match done2 with
              | Some (x, y) => bisect a fromA toA (fromA + x) b fromB toB (fromB + y)
              | None => findSnake_loop n' a fromA toA b fromB toB off (depth + 1) f1 f2
              end
          end
      else ret [mkChange fromA toA fromB toB]
  end.

(** [findSnake(a, fromA, toA, b, fromB, toB)] *)
Definition findSnake (a : str) (fromA toA : Z) (b : str) (fromB toB : Z)
  : M (list Change) :=
  let lenA := toA - fromA in
  let lenB := toB - fromB in
  sl <- getScanLimit ;;
  over <- (if (sl <? 1000000000) && (Z.min lenA lenB >? sl * 16) then ret true
           else timedOut) ;;
  if (over : bool) then
    if Z.min lenA lenB >? sl * 64 then ret [mkChange fromA toA fromB toB]
    else crudeMatch a fromA toA b fromB toB
  else
    let off := (lenA + lenB + 1) / 2 in
    let frontier1 := Frontier_reset off in
    let frontier2 := Frontier_reset off in
    findSnake_loop fuel a fromA toA b fromB toB off 0 frontier1 frontier2.

(** The body of [findDiff(a, fromA, toA, b, fromB, toB)]. *)
Definition findDiff_body (a : str) (fromA toA : Z) (b : str) (fromB toB : Z)
  : M (list Change) :=
  if str_eqb a b then ret []
  else
    prefix <- lift (commonPrefix fuel a fromA toA b fromB toB) ;;
    suffix <- lift (commonSuffix fuel a (fromA + prefix) toA b (fromB + prefix) toB) ;;
    let fromA := fromA + prefix in
    let toA := toA - suffix in
    let fromB := fromB + prefix in
    let toB := toB - suffix in
    let lenA := toA - fromA in
    let lenB := toB - fromB in
    if (lenA =? 0) || (lenB =? 0) then ret [mkChange fromA toA fromB toB]
    else
      let found :=
        if lenA >? lenB then indexOf (slice a fromA toA) (slice b fromB toB) 0
        else if lenB >? lenA then indexOf (slice b fromB toB) (slice a fromA toA) 0
        else -1 in
      if (lenA >? lenB) && (found >? -1) then
        ret [mkChange fromA (fromA + found) fromB fromB;
             mkChange (fromA + found + lenB) toA toB toB]
      else if (lenB >? lenA) && (found >? -1) then
        ret [mkChange fromA fromA fromB (fromB + found);
             mkChange toA toA (fromB + found + lenA) toB]
      else if (lenA =? 1) || (lenB =? 1) then ret [mkChange fromA toA fromB toB]
      else
        half <- lift (halfMatch fuel a fromA toA b fromB toB) ;;
        match half with
        | Some (sharedA, sharedB, sharedLen) =>
            l1 <- findDiff a fromA sharedA b fromB sharedB ;;
            l2 <- findDiff a (sharedA + sharedLen) toA b (sharedB + sharedLen) toB ;;
            ret (l1 ++ l2)
        | None => findSnake a fromA toA b fromB toB
        end.
End Rec.

(** [findDiff], with the depth of its recursion bounded by [n]. *)
Fixpoint findDiff (n : nat) (a : str) (fromA toA : Z) (b : str) (fromB toB : Z)
  : M (list Change) :=
  match n with
  | O => lift None
  | S n' => findDiff_body (findDiff n') a fromA toA b fromB toB
  end.
End Engine.

(** ** Normalisation *)

(** [mergeAdjacent(changes, minGap)], started at [prev = changes[i - 1]]. *)
Fixpoint mergeAdjacent_from (minGap : Z) (prev : Change) (rest : list Change) : list Change :=
  match rest with
  | [] => [prev]
  | cur :: rest' =>
      if (toA prev >? fromA cur - minGap) && (toB prev >? fromB cur - minGap)
      then mergeAdjacent_from minGap
             (mkChange (fromA prev) (toA cur) (fromB prev) (toB cur)) rest'
      else prev :: mergeAdjacent_from minGap cur rest'
  end.

Definition mergeAdjacent (changes : list Change) (minGap : Z) : list Change :=
  match changes with
  | [] => []
  | c :: rest => mergeAdjacent_from minGap c rest
  end.

Section Normalize.
Variable fuel : nat.
Variables a b : str.

(** What one iteration of the inner [for] loop of [normalize] does to
    [changes[i]]; [prevToA] is [changes[i - 1].toA] (0 for the first) and
    [nextFromA] is [changes[i + 1].fromA] ([a.length] for the last). *)
Definition normalize_step (prevToA nextFromA : Z) (ch : Change) : option (Change * bool) :=
  match commonPrefix fuel a (fromA ch) (toA ch) b (fromB ch) (toB ch) with
  | None => None
  | Some pre =>
      let ch := if pre =? 0 then ch
                else mkChange (fromA ch + pre) (toA ch) (fromB ch + pre) (toB ch) in
      match commonSuffix fuel a (fromA ch) (toA ch) b (fromB ch) (toB ch) with
      | None => None
      | Some post =>
          let ch := if post =? 0 then ch
                    else mkChange (fromA ch) (toA ch - post) (fromB ch) (toB ch - post) in
          let lenA := toA ch - fromA ch in
          let lenB := toB ch - fromB ch in
          if negb (lenA =? 0) && negb (lenB =? 0) then Some (ch, false)
          else
            let beforeLen := fromA ch - prevToA in
            let afterLen := nextFromA - toA ch in
            if (beforeLen =? 0) || (afterLen =? 0) then Some (ch, false)
            else
              let text := if negb (lenA =? 0) then slice a (fromA ch) (toA ch)
                          else slice b (fromB ch) (toB ch) in
              if (beforeLen <=? slen text)
                 && str_eqb (slice a (fromA ch - beforeLen) (fromA ch))
                            (sliceFrom text (slen text - beforeLen))
              then Some (mkChange (fromA ch - beforeLen) (toA ch - beforeLen)
                                  (fromB ch - beforeLen) (toB ch - beforeLen), true)
              else if (afterLen <=? slen text)
                      && str_eqb (slice a (toA ch) (toA ch + afterLen))
                                 (slice text 0 afterLen)
              then Some (mkChange (fromA ch + afterLen) (toA ch + afterLen)
                                  (fromB ch + afterLen) (toB ch + afterLen), true)
              else Some (ch, false)
      end
  end.

(** The inner [for] loop of [normalize]. *)
Fixpoint normalize_pass (prevToA : Z) (changes : list Change) : option (list Change * bool) :=
  match changes with
  | [] => Some ([], false)
  | ch :: rest =>
      let nextFromA := match rest with
                       | next :: _ => fromA next
                       | [] => slen a
                       end in
      match normalize_step prevToA nextFromA ch with
      | None => None
      | Some (ch', moved) =>
          match normalize_pass (toA ch') rest with
          | None => None
          | Some (rest', moved') => Some (ch' :: rest', moved || moved')
          end
      end
  end.

(** The outer [for (;;)] loop of [normalize]. *)
Fixpoint normalize_loop (n : nat) (changes : list Change) : option (list Change) :=
  match n with
  | O => None
  | S n' =>
      match normalize_pass 0 (mergeAdjacent changes 1) with
      | None => None
      | Some (changes', moved) =>
          if moved then normalize_loop n' changes' else Some changes'
      end
  end.

(** [normalize(a, b, changes)] *)
Definition normalize (changes : list Change) : option (list Change) :=
  normalize_loop fuel changes.
End Normalize.

(** ** Configuration and [diff] *)

(** A [DiffConfig]; an absent configuration has both fields absent. *)
Record DiffConfig := mkConfig {
  cfg_scanLimit : option Z;
  cfg_timeout : option Z
}.

Definition noConfig : DiffConfig := mkConfig None None.

(** [diff(a, b, config)]: sets the three module variables, then runs
    [findDiff] and [normalize]. *)
Definition diff (now : nat -> Z) (fuel : nat) (a b : str) (config : DiffConfig)
  : M (list Change) :=
  fun g =>
    let sl := sar32 (match cfg_scanLimit config with
                     | Some s => s
                     | None => 1000000000
                     end) 1 in
    let '(tm, tk) :=
      match cfg_timeout config with
      | Some t => if t =? 0 then (0, ticks g) else (now (ticks g) + t, S (ticks g))
      | None => (0, ticks g)
      end in
    (changes <- findDiff now fuel fuel a 0 (slen a) b 0 (slen b) ;;
     lift (normalize fuel a b changes)) (mkGlobals sl tm false tk).

(** [diffIsPrecise()] *)
Definition diffIsPrecise : M bool := fun g => Some (negb (crude g), g).

(** ** Presentation pass *)

Section Presentable.
(** The regular expression [wordChar] ([\p{Alphabetic}\p{Number}] with the
    [u] flag) as the predicate [wordChar.test]; [None] when the engine
    rejected the expression.  Its Unicode tables are not part of the
    module. *)
Variable wordChar : option (str -> bool).
Variable fuel : nat.

Definition asciiWordChar (code : Z) : bool :=
  ((code >? 48) && (code <? 58)) || ((code >? 64) && (code <? 91))
  || ((code >? 96) && (code <? 123)).

(** [String.fromCharCode(c)] for a result of [charCodeAt]. *)
Definition fromCharCode (c : option Z) : str :=
  match c with Some u => [u] | None => [0] end.

(** [c < n], false on NaN. *)
Definition code_lt (c : option Z) (n : Z) : bool :=
  match c with Some u => u <? n | None => false end.

Definition wordCharAfter (s : str) (pos : Z) : Z :=
  if pos =? slen s then 0
  else
    let next := charCodeAt s pos in
    if code_lt next 192 then (if opt_test asciiWordChar next then 1 else 0)
    else match wordChar with
         | None => 0
         | Some test =>
             if negb (opt_test isSurrogate1 next) || (pos =? slen s - 1)
             then (if test (fromCharCode next) then 1 else 0)
             else (if test (slice s pos (pos + 2)) then 2 else 0)
         end.

Definition wordCharBefore (s : str) (pos : Z) : Z :=
  if pos =? 0 then 0
  else
    let prev := charCodeAt s (pos - 1) in
    if code_lt prev 192 then (if opt_test asciiWordChar prev then 1 else 0)
    else match wordChar with
         | None => 0
         | Some test =>
             if negb (opt_test isSurrogate2 prev) || (pos =? 1)
             then (if test (fromCharCode prev) then 1 else 0)
             else (if test (slice s (pos - 2) pos) then 2 else 0)
         end.

Definition MAX_SCAN : nat := 8.

Fixpoint wordBoundaryAfter_loop (i : nat) (s : str) (pos end_ cur : Z) : Z :=
  match i with
  | O => pos
  | S i' =>
      let size := wordCharAfter s cur in
      if (size =? 0) || (cur + size >? end_) then cur
      else wordBoundaryAfter_loop i' s pos end_ (cur + size)
  end.

Definition findWordBoundaryAfter (s : str) (pos max : Z) : Z :=
  if (pos =? slen s) || (wordCharBefore s pos =? 0) then pos
  else wordBoundaryAfter_loop MAX_SCAN s pos (pos + max) pos.

Fixpoint wordBoundaryBefore_loop (i : nat) (s : str) (pos end_ cur : Z) : Z :=
  match i with
  | O => pos
  | S i' =>
      let size := wordCharBefore s cur in
      if (size =? 0) || (cur - size <? end_) then cur
      else wordBoundaryBefore_loop i' s pos end_ (cur - size)
  end.

Definition findWordBoundaryBefore (s : str) (pos max : Z) : Z :=
  if (pos =? 0) || (wordCharAfter s pos =? 0) then pos
  else wordBoundaryBefore_loop MAX_SCAN s pos (pos - max) pos.

Fixpoint findLineBreakBefore_loop (n : nat) (s : str) (pos stop : Z) : option Z :=
  match n with
  | O => None
  | S n' =>
      if pos =? stop then Some (-1)
      else if code_is (charCodeAt s (pos - 1)) 10 then Some pos
      else findLineBreakBefore_loop n' s (pos - 1) stop
  end.

Definition findLineBreakBefore (s : str) (pos stop : Z) : option Z :=
  findLineBreakBefore_loop fuel s pos stop.

Fixpoint findLineBreakAfter_loop (n : nat) (s : str) (pos stop : Z) : option Z :=
  match n with
  | O => None
  | S n' =>
      if pos =? stop then Some (-1)
      else if code_is (charCodeAt s pos) 10 then Some pos
      else findLineBreakAfter_loop n' s (pos + 1) stop
  end.

Definition findLineBreakAfter (s : str) (pos stop : Z) : option Z :=
  findLineBreakAfter_loop fuel s pos stop.

(** The alignment of a pure insertion ([s] is [b], positions are the B
    side) or a pure deletion ([s] is [a], A side) to a line break. *)
Definition alignToLine (s : str) (from to : Z) (maxScanBefore maxScanAfter : Z)
           (change : Change) : option Change :=
  match findLineBreakAfter s from to with
  | None => None
  | Some first =>
      match (if first <? 0 then Some (-1) else findLineBreakBefore s to from) with
      | None => None
      | Some last =>
          if (first >? -1) && (first - from <=? maxScanAfter)
             && str_eqb (slice s from first) (slice s to (to + (first - from)))
          then Some (Change_offset change (first - from) (first - from))
          else if (last >? -1) && (to - last <=? maxScanBefore)
                  && str_eqb (slice s (from - (to - last)) from) (slice s last to)
          then Some (Change_offset change (- (to - last)) (- (to - last)))
          else Some change
      end
  end.

(** The body of the [for] loop of [makePresentable] for [changes[i]], for
    a change that is not a short insertion or deletion. *)
Definition presentChange (a b : str) (posA nextChangeA : Z) (change : Change)
  : option Change :=
  let lenA := toA change - fromA change in
  let lenB := toB change - fromB change in
  let maxScanBefore := fromA change - posA in
  let maxScanAfter := nextChangeA - toA change in
  let boundBefore := findWordBoundaryBefore a (fromA change) maxScanBefore in
  let boundAfter := findWordBoundaryAfter a (toA change) maxScanAfter in
  let lenBefore := fromA change - boundBefore in
  let lenAfter := boundAfter - toA change in
  let '(change, lenBefore, lenAfter) :=
    if ((lenA =? 0) || (lenB =? 0)) && negb (lenBefore =? 0) && negb (lenAfter =? 0)
    then
      let changeLen := Z.max lenA lenB in
      let '(changeText, changeFrom, changeTo) :=
        if negb (lenA =? 0) then (a, fromA change, toA change)
        else (b, fromB change, toB change) in
      if (changeLen >? lenBefore)
         && str_eqb (slice a boundBefore (fromA change))
                    (slice changeText (changeTo - lenBefore) changeTo)
      then
        let change := mkChange boundBefore (boundBefore + lenA)
                               (fromB change - lenBefore) (toB change - lenBefore) in
        let boundBefore := fromA change in
        let boundAfter := findWordBoundaryAfter a (toA change) (nextChangeA - toA change) in
        (change, fromA change - boundBefore, boundAfter - toA change)
      else if (changeLen >? lenAfter)
              && str_eqb (slice a (toA change) boundAfter)
                         (slice changeText changeFrom (changeFrom + lenAfter))
      then
        let change := mkChange (boundAfter - lenA) boundAfter
                               (fromB change + lenAfter) (toB change + lenAfter) in
        let boundAfter := toA change in
        let boundBefore := findWordBoundaryBefore a (fromA change) (fromA change - posA) in
        (change, fromA change - boundBefore, boundAfter - toA change)
      else (change, lenBefore, lenAfter)
    else (change, lenBefore, lenAfter) in
  if negb (lenBefore =? 0) || negb (lenAfter =? 0) then
    Some (mkChange (fromA change - lenBefore) (toA change + lenAfter)
                   (fromB change - lenBefore) (toB change + lenAfter))
  else if lenA =? 0 then
    alignToLine b (fromB change) (toB change) maxScanBefore maxScanAfter change
  else if lenB =? 0 then
    alignToLine a (fromA change) (toA change) maxScanBefore maxScanAfter change
  else Some change.

(** The [for] loop of [makePresentable]. *)
Fixpoint makePresentable_loop (a b : str) (posA : Z) (changes : list Change)
  : option (list Change) :=
  match changes with
  | [] => Some []
  | change :: rest =>
      let lenA := toA change - fromA change in
      let lenB := toB change - fromB change in
      let nextChangeA := match rest with
                         | next :: _ => fromA next
                         | [] => slen a
                         end in
      match (if (negb (lenA =? 0) && negb (lenB =? 0)) || (lenA >? 3) || (lenB >? 3)
             then presentChange a b posA nextChangeA change
             else Some change) with
      | None => None
      | Some change' =>
          match makePresentable_loop a b (toA change') rest with
          | None => None
          | Some rest' => Some (change' :: rest')
          end
      end
  end.

(** [makePresentable(changes, a, b)] *)
Definition makePresentable (changes : list Change) (a b : str) : option (list Change) :=
  match makePresentable_loop a b 0 changes with
  | None => None
  | Some changes' => Some (mergeAdjacent changes' 3)
  end.

(** [presentableDiff(a, b, config)] *)
Definition presentableDiff (now : nat -> Z) (a b : str) (config : DiffConfig)
  : M (list Change) :=
  changes <- diff now fuel a b config ;;
  lift (makePresentable changes a b).
End Presentable.

(** ** Documents *)

(** Modelled from the spec: the document type ([Text] of the editor's state
    library) is not part of the module.  The spec asks of a document
    "random-access substring slicing, line containing offset, total length";
    a document is modelled by its content, lines being separated by the
    line feed (code 10). *)
Definition Text := str.

Record Line := mkLine { line_from : Z; line_to : Z }.

Fixpoint lineStart (s : str) (n : nat) (i start : Z) : Z :=
  match n, s with
  | S n', c :: s' => lineStart s' n' (i + 1) (if c =? 10 then i + 1 else start)
  | _, _ => start
  end.

(** [doc.lineAt(pos)]: the line [from <= pos <= to]; [None] for a position
    outside the document (a [RangeError] in the library). *)
Definition lineAt (doc : Text) (pos : Z) : option Line :=
  if (pos <? 0) || (pos >? slen doc) then None
  else
    let from := lineStart doc (Z.to_nat pos) 0 0 in
    let nl := indexOf doc [10] pos in
    Some (mkLine from (if nl =? -1 then slen doc else nl)).

(** [doc.sliceString(from, to)], with the library's clipping of the range
    to the document. *)
Definition sliceString (doc : Text) (from to : Z) : str :=
  let f := Z.max 0 (Z.min (slen doc) from) in
  let t := Z.max f (Z.min (slen doc) to) in
  firstn (Z.to_nat (t - f)) (skipn (Z.to_nat f) doc).

(** ** Chunks *)

Module Chunk.
Record t := mk {
  changes : list Change;
  fromA : Z;
  toA : Z;
  fromB : Z;
  toB : Z;
  precise : bool
}.

(** [chunk.offset(offA, offB)] *)
Definition offset (c : t) (offA offB : Z) : t :=
  if negb (offA =? 0) || negb (offB =? 0)
  then mk (changes c) (fromA c + offA) (toA c + offA) (fromB c + offB) (toB c + offB)
          (precise c)
  else c.

Definition endA (c : t) : Z := Z.max (fromA c) (toA c - 1).
Definition endB (c : t) : Z := Z.max (fromB c) (toB c - 1).

(** The four boundaries of a chunk. *)
Definition bounds (c : t) : Z * Z * Z * Z := (fromA c, toA c, fromB c, toB c).
End Chunk.

Section ToChunks.
Variables a b : Text.

Definition fromLine (fromA fromB : Z) : option (Z * Z) :=
  match lineAt a fromA, lineAt b fromB with
  | Some lineA, Some lineB =>
      if (line_to lineA =? fromA) && (line_to lineB =? fromB)
         && (fromA <? slen a) && (fromB <? slen b)
      then Some (fromA + 1, fromB + 1)
      else Some (line_from lineA, line_from lineB)
  | _, _ => None
  end.

Definition toLine (toA toB : Z) : option (Z * Z) :=
  match lineAt a toA, lineAt b toB with
  | Some lineA, Some lineB =>
      if (line_from lineA =? toA) && (line_from lineB =? toB)
      then Some (toA, toB)
      else Some (line_to lineA + 1, line_to lineB + 1)
  | _, _ => None
  end.

Variables (offA offB : Z) (precise : bool).

(** The inner [while] loop of [toChunks] together with the rest of the
    outer loop: [chunk] is the group being collected, with line extent
    [fromA .. toA] and [fromB .. toB]; [rest] are the changes not yet
    looked at. *)
Fixpoint toChunks_loop (chunk : list Change) (fromA toA fromB toB : Z)
         (rest : list Change) : option (list Chunk.t) :=
  match rest with
  | [] => Some [Chunk.mk chunk fromA (Z.max fromA toA) fromB (Z.max fromB toB) precise]
  | next :: rest' =>
      let '(mkChange nFromA nToA nFromB nToB) := next in
      match fromLine (nFromA + offA) (nFromB + offB),
            toLine (nToA + offA) (nToB + offB) with
      | Some (nextA, nextB), Some (toA', toB') =>
          if (nextA >? toA + 1) && (nextB >? toB + 1) then
            match toChunks_loop [Change_offset next (- nextA + offA) (- nextB + offB)]
                                nextA toA' nextB toB' rest' with
            | Some chunks =>
                Some (Chunk.mk chunk fromA (Z.max fromA toA) fromB (Z.max fromB toB) precise
                        :: chunks)
            | None => None
            end
          else
            toChunks_loop (chunk ++ [Change_offset next (- fromA + offA) (- fromB + offB)])
                          fromA toA' fromB toB' rest'
      | _, _ => None
      end
  end.

(** [toChunks(changes, a, b, offA, offB, precise)] *)
Definition toChunks (changes : list Change) : option (list Chunk.t) :=
  match changes with
  | [] => Some []
  | change :: rest =>
      let '(mkChange cFromA cToA cFromB cToB) := change in
      match fromLine (cFromA + offA) (cFromB + offB),
            toLine (cToA + offA) (cToB + offB) with
      | Some (fromA, fromB), Some (toA, toB) =>
          toChunks_loop [Change_offset change (- fromA + offA) (- fromB + offB)]
                        fromA toA fromB toB rest
      | _, _ => None
      end
  end.
End ToChunks.

(** ** Incremental update *)

(** Modelled from the spec: the edit description ([ChangeDesc] of the
    editor's state library) is not part of the module.  Following the spec it
    is "an ordered list of disjoint (oldFrom, oldTo, newFrom, newTo) edited
    ranges", here the ranges that [iterChangedRanges] reports, together with
    the length of the document before the edit ([changes.length]). *)
Record ChangeDesc := mkChangeDesc {
  desc_length : Z;
  changedRanges : list (Z * Z * Z * Z)
}.

Module Range.
Record t := mk {
  fromA : Z; toA : Z; fromB : Z; toB : Z; diffA : Z; diffB : Z
}.
End Range.

Definition updateMargin : Z := 1000.

(** The loop of [findPos(chunks, pos, isA, start)]. *)
Fixpoint findPos_loop (n : nat) (chunks : list Chunk.t) (pos : Z) (isA start : bool)
         (lo hi : Z) : option (Z * Z) :=
  match n with
  | O => None
  | S n' =>
      if lo =? hi then
        match (if lo =? 0 then Some (0, 0)
               else match nth_error chunks (Z.to_nat (lo - 1)) with
                    | Some c => Some (Chunk.toA c, Chunk.toB c)
                    | None => None
                    end) with
        | Some (refA, refB) =>
            let off := pos - (if isA then refA else refB) in
            Some (refA + off, refB + off)
        | None => None
        end
      else
        let mid := sar32 (lo + hi) 1 in
        match (if mid <? 0 then None else nth_error chunks (Z.to_nat mid)) with
        | None => None
        | Some chunk =>
            let '(from, to) := if isA then (Chunk.fromA chunk, Chunk.toA chunk)
                               else (Chunk.fromB chunk, Chunk.toB chunk) in
            if from >? pos then findPos_loop n' chunks pos isA start lo mid
            else if to <=? pos then findPos_loop n' chunks pos isA start (mid + 1) hi
            else Some (if start then (Chunk.fromA chunk, Chunk.fromB chunk)
                       else (Chunk.toA chunk, Chunk.toB chunk))
        end
  end.

Definition findPos (fuel : nat) (chunks : list Chunk.t) (pos : Z) (isA start : bool)
  : option (Z * Z) :=
  findPos_loop fuel chunks pos isA start 0 (Z.of_nat (length chunks)).

(** The callback that [findRangesForChange] passes to [iterChangedRanges],
    applied to one changed range. *)
Definition addRange (fuel : nat) (chunks : list Chunk.t) (changes : ChangeDesc)
           (isA : bool) (otherLen : Z) (ranges : list Range.t) (r : Z * Z * Z * Z)
  : option (list Range.t) :=
  let '(cFromA, cToA, cFromB, cToB) := r in
  let len := desc_length changes in
  match (if cFromA >? updateMargin
         then findPos fuel chunks (cFromA - updateMargin) isA true
         else Some (0, 0)),
        (if cToA <? len - updateMargin
         then findPos fuel chunks (cToA + updateMargin) isA false
         else Some (if isA then len else otherLen, if isA then otherLen else len)) with
  | Some (fromA, fromB), Some (toA, toB) =>
      let lenDiff := (cToB - cFromB) - (cToA - cFromA) in
      let '(diffA, diffB) := if isA then (lenDiff, 0) else (0, lenDiff) in
      match rev ranges with
      | last :: before =>
          if Range.toA last >=? fromA
          then Some (rev before ++
                     [Range.mk (Range.fromA last) toA (Range.fromB last) toB
                               (Range.diffA last + diffA) (Range.diffB last + diffB)])
          else Some (ranges ++ [Range.mk fromA toA fromB toB diffA diffB])
      | [] => Some [Range.mk fromA toA fromB toB diffA diffB]
      end
  | _, _ => None
  end.

(** [findRangesForChange(chunks, changes, isA, otherLen)] *)
Fixpoint findRanges_loop (fuel : nat) (chunks : list Chunk.t) (changes : ChangeDesc)
         (isA : bool) (otherLen : Z) (ranges : list Range.t) (rs : list (Z * Z * Z * Z))
  : option (list Range.t) :=
  match rs with
  | [] => Some ranges
  | r :: rs' =>
      match addRange fuel chunks changes isA otherLen ranges r with
      | None => None
      | Some ranges' => findRanges_loop fuel chunks changes isA otherLen ranges' rs'
      end
  end.

Definition findRangesForChange (fuel : nat) (chunks : list Chunk.t) (changes : ChangeDesc)
           (isA : bool) (otherLen : Z) : option (list Range.t) :=
  findRanges_loop fuel chunks changes isA otherLen [] (changedRanges changes).

(** The first [while] loop of [updateChunks]: the chunks copied in front of
    a range, and the chunks left. *)
Fixpoint copyBefore (chunks : list Chunk.t) (offA offB fromA fromB : Z)
  : list Chunk.t * list Chunk.t :=
  match chunks with
  | [] => ([], [])
  | next :: chunks' =>
      if (Chunk.toA next + offA >? fromA) || (Chunk.toB next + offB >? fromB)
      then ([], chunks)
      else let '(copied, remaining) := copyBefore chunks' offA offB fromA fromB in
           (Chunk.offset next offA offB :: copied, remaining)
  end.

(** The second [while] loop of [updateChunks]: the chunks a range replaces
    are dropped. *)
Fixpoint skipReplaced (chunks : list Chunk.t) (offA offB toA toB : Z) : list Chunk.t :=
  match chunks with
  | [] => []
  | next :: chunks' =>
      if (Chunk.fromA next + offA >? toA) && (Chunk.fromB next + offB >? toB)
      then chunks
      else skipReplaced chunks' offA offB toA toB
  end.

Section Update.
Variable wordChar : option (str -> bool).
Variable now : nat -> Z.
Variable fuel : nat.
Variables (a b : Text) (conf : DiffConfig).

(** The main loop of [updateChunks], from range [i] on. *)
Fixpoint updateChunks_loop (ranges : list Range.t) (chunks : list Chunk.t)
         (offA offB : Z) : M (list Chunk.t) :=
  match ranges with
  | [] => ret (fst (copyBefore chunks offA offB (slen a) (slen b)))
  | range :: ranges' =>
      let fromA := Range.fromA range + offA in
      let fromB := Range.fromB range + offB in
      let '(copied, remaining) := copyBefore chunks offA offB fromA fromB in
      let toA := Range.toA range + offA + Range.diffA range in
      let toB := Range.toB range + offB + Range.diffB range in
      diff <- presentableDiff wordChar fuel now
                (sliceString a fromA toA) (sliceString b fromB toB) conf ;;
      precise <- diffIsPrecise ;;
      fresh <- lift (toChunks a b fromA fromB precise diff) ;;
      let offA := offA + Range.diffA range in
      let offB := offB + Range.diffB range in
      tail <- updateChunks_loop ranges' (skipReplaced remaining offA offB toA toB) offA offB ;;
      ret (copied ++ fresh ++ tail)
  end.

(** [updateChunks(ranges, chunks, a, b, conf)] *)
Definition updateChunks (ranges : list Range.t) (chunks : list Chunk.t)
  : M (list Chunk.t) :=
  match ranges with
  | [] => ret chunks
  | _ :: _ => updateChunks_loop ranges chunks 0 0
  end.

(** [Chunk.build(a, b, conf)] *)
Definition Chunk_build : M (list Chunk.t) :=
  diff <- presentableDiff wordChar fuel now a b conf ;;
  precise <- diffIsPrecise ;;
  lift (toChunks a b 0 0 precise diff).

(** [Chunk.updateA(chunks, a, b, changes, conf)] *)
Definition Chunk_updateA (chunks : list Chunk.t) (changes : ChangeDesc)
  : M (list Chunk.t) :=
  ranges <- lift (findRangesForChange fuel chunks changes true (slen b)) ;;
  updateChunks ranges chunks.

(** [Chunk.updateB(chunks, a, b, changes, conf)] *)
Definition Chunk_updateB (chunks : list Chunk.t) (changes : ChangeDesc)
  : M (list Chunk.t) :=
  ranges <- lift (findRangesForChange fuel chunks changes false (slen a)) ;;
  updateChunks ranges chunks.
End Update.

(** ** Literals for the examples *)


(** The code units of an ASCII literal. *)
Definition units (s : String.string) : str :=
  map (fun c => Z.of_N (Ascii.N_of_ascii c)) (String.list_ascii_of_string s).

(** The result of a computation, without the final state. *)
Definition result {A} (r : option (A * Globals)) : option A := option_map fst r.

Section Literals.
Import String.

Definition abc : str := units "abc"%string.
Definition hello_world : str := units "hello world"%string.
Definition hello_there : str := units "hello there"%string.

Definition lines_2 : Text :=
  (units "line1"%string ++ [10] ++ units "line2"%string ++ [10] ++ units "line3"%string)%list.
Definition lines_X : Text :=
  (units "line1"%string ++ [10] ++ units "lineX"%string ++ [10] ++ units "line3"%string)%list.
Definition lines_Y : Text :=
  (units "line1"%string ++ [10] ++ units "lineY"%string ++ [10] ++ units "line3"%string)%list.
End Literals.

(** A high and a low surrogate, and two ordinary letters. *)
Definition hi : Z := 55357.
Definition lo : Z := 56832.
Definition letter_q : Z := 113.
Definition letter_x : Z := 120.

(** Two short texts around three dashes. *)
Definition dashes_ab : str := [97; 45; 45; 45; 98].
Definition dashes_cd : str := [99; 45; 45; 45; 100].

(** A well-formed one-character text, and the same with a letter put
    between the two halves of its surrogate pair. *)
Definition smile : str := [hi; lo].
Definition smile_q : str := [hi; letter_q; lo].

(** Three lone low surrogates, and two whole pairs. *)
Definition lows : str := [lo; lo; lo].
Definition pairs : str := [hi; lo; hi; lo].

(** A lone high surrogate before a letter, and a whole pair. *)
Definition hi_x : str := [hi; letter_x].
Definition pair : str := [hi; lo].



(** ** Vocabulary of the properties *)

(** No two neighbours of the list are closer than [minGap] on both sides:
    this is the negation of the test in [mergeAdjacent]. *)
Fixpoint apart (minGap : Z) (prev : Change) (rest : list Change) : Prop :=
  match rest with
  | [] => True
  | cur :: rest' =>
      (fromA cur - toA prev >= minGap \/ fromB cur - toB prev >= minGap)
      /\ apart minGap cur rest'
  end.

Definition allApart (minGap : Z) (changes : list Change) : Prop :=
  match changes with
  | [] => True
  | c :: rest => apart minGap c rest
  end.

(** The changes are in ascending order, each with [from <= to], and
    pairwise disjoint in both documents, from positions [pA], [pB] on. *)
Fixpoint ordered (pA pB : Z) (changes : list Change) : bool :=
  match changes with
  | [] => true
  | c :: rest =>
      (pA <=? fromA c) && (fromA c <=? toA c) && (pB <=? fromB c) && (fromB c <=? toB c)
      && ordered (toA c) (toB c) rest
  end.

(** [a] with the A range of every change replaced by its B text. *)
Fixpoint patch (a b : str) (pA : Z) (changes : list Change) : str :=
  match changes with
  | [] => sliceFrom a pA
  | c :: rest => slice a pA (fromA c) ++ slice b (fromB c) (toB c) ++ patch a b (toA c) rest
  end.

(** The test at the head of [findSnake]: the effort budget is used up
    before the search starts. *)
Definition budgetExceeded (now : nat -> Z) (g : Globals) (lenA lenB : Z) : bool :=
  ((scanLimit g <? 1000000000) && (Z.min lenA lenB >? scanLimit g * 16))
  || ((timeout g >? 0) && (now (ticks g) >? timeout g)).

(** The sum of the length differences of the changed ranges of an edit. *)
Definition lengthDelta (rs : list (Z * Z * Z * Z)) : Z :=
  fold_right (fun r acc => let '(cFromA, cToA, cFromB, cToB) := r in
                           (cToB - cFromB) - (cToA - cFromA) + acc) 0 rs.

(** A changed range that starts within the first [updateMargin] units and
    ends within the last [updateMargin] units of the document has the whole
    documents as its window; the windows of such ranges merge. *)
Definition wholeWindow (changes : ChangeDesc) (r : Z * Z * Z * Z) : Prop :=
  let '(cFromA, cToA, _, _) := r in
  cFromA <= updateMargin /\ desc_length changes - updateMargin <= cToA.

(** [rec'] returns whatever [rec] returns. *)
Definition rec_le (rec rec' : str -> Z -> Z -> str -> Z -> Z -> M (list Change)) : Prop :=
  forall a fromA toA b fromB toB g r,
    rec a fromA toA b fromB toB g = Some r -> rec' a fromA toA b fromB toB g = Some r.

(** [m] leaves [scanLimit] and [timeout] as they are. *)
Definition keeps {A} (m : M A) : Prop :=
  forall g x g', m g = Some (x, g') ->
                 scanLimit g' = scanLimit g /\ timeout g' = timeout g.

Definition rec_keeps (rec : str -> Z -> Z -> str -> Z -> Z -> M (list Change)) : Prop :=
  forall a fromA toA b fromB toB, keeps (rec a fromA toA b fromB toB).

(** A stand-in for the recursive call of [findDiff] that returns the region
    it is called on as one change: with it, a function shows the regions it
    would recurse on. *)
Definition echo : str -> Z -> Z -> str -> Z -> Z -> M (list Change) :=
  fun _ fromA toA _ fromB toB => ret [mkChange fromA toA fromB toB].

(** The module state when the module is loaded ([scanLimit = 1e9],
    [timeout = 0], [crude = false]), and as [diff] sets it when no
    configuration is given. *)
Definition initial : Globals := mkGlobals 1000000000 0 false 0.
Definition defaults : Globals := mkGlobals 500000000 0 false 0.

(** * The rest of the module: positions, navigation and the shared history *)

(** ** Positions across the two sides *)

(** The loop of [mapPos], from chunk [i] on. *)
Fixpoint mapPos_loop (pos : Z) (isA : bool) (chunks : list Chunk.t) (startOur startOther : Z)
  : Z :=
  match chunks with
  | [] => startOther + (pos - startOur)
  | next :: chunks' =>
      if (if isA then Chunk.fromA next else Chunk.fromB next) >=? pos
      then startOther + (pos - startOur)
      else
        let '(our, other) := if isA then (Chunk.toA next, Chunk.toB next)
                             else (Chunk.toB next, Chunk.toA next) in
        mapPos_loop pos isA chunks' our other
  end.

(** [mapPos(pos, chunks, isA)]: the position on the other side that
    corresponds to [pos]. *)
Definition mapPos (pos : Z) (chunks : list Chunk.t) (isA : bool) : Z :=
  mapPos_loop pos isA chunks 0 0.

(** ** Moving the selection from chunk to chunk *)

(** The [side] of a merge configuration, and the name of an editor in the
    shared history: ["a"] or ["b"]. *)
Inductive Side := SideA | SideB.

Definition Side_eqb (s t : Side) : bool :=
  match s, t with
  | SideA, SideA | SideB, SideB => true
  | _, _ => false
  end.

(** [chunks[i]]; [None] stands for [undefined]. *)
Definition item {A} (l : list A) (i : Z) : option A :=
  if i <? 0 then None else nth_error l (Z.to_nat i).

(** The extent of a chunk on the side of the editor. *)
Definition sideRange (side : Side) (chunk : Chunk.t) : Z * Z :=
  match side with
  | SideB => (Chunk.fromB chunk, Chunk.toB chunk)
  | SideA => (Chunk.fromA chunk, Chunk.toA chunk)
  end.

(** The [for (let i = chunks.length - 1; i >= 0; i--)] loop of
    [moveByChunk], with [n = i + 1]: [Some (Some pos)] when the loop leaves
    [pos], [Some None] when the command returns false from inside it, [None]
    when it would read a property of [undefined]. *)
Fixpoint moveByChunk_loop (n : nat) (chunks : list Chunk.t) (side : Side) (head dir : Z)
  : option (option Z) :=
  match n with
  | O => Some (Some 0)
  | S i =>
      match nth_error chunks i with
      | None => None
      | Some chunk =>
          let '(from, to) := sideRange side chunk in
          if to <? head then Some (Some (Z.of_nat i + 1))
          else if from <=? head then
            if Z.of_nat (length chunks) =? 1 then Some None
            else Some (Some (Z.of_nat i + (if dir <? 0 then 0 else 1)))
          else moveByChunk_loop i chunks side head dir
      end
  end.

(** [moveByChunk(dir)] applied to an editor state of which it reads the
    chunk field ([None] without a merge extension), the side of the merge
    configuration and the head of the main selection.  The result is
    [Some None] when the command returns false, and [Some (Some (from, to))]
    when it dispatches the selection [anchor: from] and scrolls the range
    [to .. from] into view. *)
Definition moveByChunk (dir : Z) (chunks : option (list Chunk.t)) (conf : option Side)
           (head : Z) : option (option (Z * Z)) :=
  match chunks, conf with
  | Some chunks, Some side =>
      let len := Z.of_nat (length chunks) in
      if len =? 0 then Some None
      else
        match moveByChunk_loop (length chunks) chunks side head dir with
        | None => None
        | Some None => Some None
        | Some (Some pos) =>
            match item chunks (Z.rem (pos + (if dir <? 0 then len - 1 else 0)) len) with
            | None => None
            | Some next => Some (Some (sideRange side next))
            end
        end
  | _, _ => Some None
  end.

Definition goToNextChunk := moveByChunk 1.
Definition goToPreviousChunk := moveByChunk (-1).

(** ** The shared undo history *)

(** [l.slice(from, to)] on an array. *)
Definition aslice {A} (l : list A) (from to : Z) : list A :=
  let len := Z.of_nat (length l) in
  let f := clampIndex len from in
  let t := clampIndex len to in
  firstn (Z.to_nat (t - f)) (skipn (Z.to_nat f) l).

Module SharedHistory.
Section History.
(** The transactions of the editor, which the history only stores. *)
Variable Transaction : Type.

Record Entry := mkEntry {
  editor : Side;
  transaction : Transaction;
  timestamp : Z
}.

(** The fields of a [SharedHistory]. *)
Record t := mk {
  history : list Entry;
  currentIndex : Z;
  lastUndoTimestamp : Z;
  lastRedoTimestamp : Z;
  groupTimeoutMs : Z
}.

(** An element of the result of [undoGroup] and [redoGroup]. *)
Record Group := mkGroup {
  group_editor : Side;
  transactions : list Transaction
}.

(** [new SharedHistory()] *)
Definition create : t := mk [] (-1) 0 0 1000.

(** [addTransaction(editor, transaction)]; [now] is the value that
    [Date.now()] returns in the call. *)
Definition addTransaction (h : t) (ed : Side) (tr : Transaction) (now : Z) : t :=
  mk (aslice (history h) 0 (currentIndex h + 1) ++ [mkEntry ed tr now])
     (currentIndex h + 1)
     (lastUndoTimestamp h) (lastRedoTimestamp h) (groupTimeoutMs h).

Definition canUndo (h : t) : bool := currentIndex h >=? 0.

Definition canRedo (h : t) : bool := currentIndex h <? Z.of_nat (length (history h)) - 1.

(** The test that puts two neighbouring entries in one group. *)
Definition grouped (h : t) (earlier later : Entry) : bool :=
  (timestamp later - timestamp earlier <=? groupTimeoutMs h)
  && Side_eqb (editor earlier) (editor later).

(** The [while (startIndex > 0)] loop of [getUndoGroup]; [None] when it
    would read a property of [undefined]. *)
Fixpoint getUndoGroup_loop (h : t) (startIndex : nat) : option Z :=
  match startIndex with
  | O => Some 0
  | S prev =>
      match nth_error (history h) prev, nth_error (history h) startIndex with
      | Some prevEntry, Some currentEntry =>
          if grouped h prevEntry currentEntry then getUndoGroup_loop h prev
          else Some (Z.of_nat startIndex)
      | _, _ => None
      end
  end.

(** [getUndoGroup()]: [Some None] is [null], [Some (Some (startIndex,
    endIndex))] a group. *)
Definition getUndoGroup (h : t) : option (option (Z * Z)) :=
  if negb (canUndo h) then Some None
  else
    match getUndoGroup_loop h (Z.to_nat (currentIndex h)) with
    | None => None
    | Some startIndex => Some (Some (startIndex, currentIndex h))
    end.

(** The [while (endIndex < this.history.length - 1)] loop of
    [getRedoGroup], with [n] the distance of [endIndex] from the last
    index. *)
Fixpoint getRedoGroup_loop (h : t) (n : nat) (endIndex : Z) : option Z :=
  match n with
  | O => Some endIndex
  | S n' =>
      match item (history h) endIndex, item (history h) (endIndex + 1) with
      | Some currentEntry, Some nextEntry =>
          if grouped h currentEntry nextEntry
          then getRedoGroup_loop h n' (endIndex + 1)
          else Some endIndex
      | _, _ => None
      end
  end.

(** [getRedoGroup()] *)
Definition getRedoGroup (h : t) : option (option (Z * Z)) :=
  if negb (canRedo h) then Some None
  else
    let startIndex := currentIndex h + 1 in
    match getRedoGroup_loop h
            (Z.to_nat (Z.of_nat (length (history h)) - 1 - startIndex)) startIndex with
    | None => None
    | Some endIndex => Some (Some (startIndex, endIndex))
    end.

(** The [for (let i = group.startIndex; i <= group.endIndex; i++)] loop of
    [undoGroup] and of [redoGroup], with [n] iterations to go. *)
Fixpoint byEditor_loop (h : t) (n : nat) (i : Z) (currentEditor : Side)
         (currentTransactions : list Transaction) (result : list Group)
  : option (Side * list Transaction * list Group) :=
  match n with
  | O => Some (currentEditor, currentTransactions, result)
  | S n' =>
      match item (history h) i with
      | None => None
      | Some entry =>
          if negb (Side_eqb (editor entry) currentEditor)
          then byEditor_loop h n' (i + 1) (editor entry) [transaction entry]
                 (result ++ [mkGroup currentEditor currentTransactions])
          else byEditor_loop h n' (i + 1) currentEditor
                 (currentTransactions ++ [transaction entry]) result
      end
  end.

(** The transactions of the entries [startIndex .. endIndex], grouped by
    editor. *)
Definition byEditor (h : t) (startIndex endIndex : Z) : option (list Group) :=
  match item (history h) startIndex with
  | None => None
  | Some first =>
      match byEditor_loop h (Z.to_nat (endIndex - startIndex + 1)) startIndex
              (editor first) [] [] with
      | None => None
      | Some (currentEditor, currentTransactions, result) =>
          Some (match currentTransactions with
                | [] => result
                | _ :: _ => result ++ [mkGroup currentEditor currentTransactions]
                end)
      end
  end.

(** [undoGroup()]: the groups returned ([None] for [null]) and the history
    afterwards. *)
Definition undoGroup (h : t) (now : Z) : option (option (list Group) * t) :=
  match getUndoGroup h with
  | None => None
  | Some None => Some (None, h)
  | Some (Some (startIndex, endIndex)) =>
      match byEditor h startIndex endIndex with
      | None => None
      | Some result =>
          Some (Some result,
                mk (history h) (startIndex - 1) now (lastRedoTimestamp h)
                   (groupTimeoutMs h))
      end
  end.

(** [redoGroup()] *)
Definition redoGroup (h : t) (now : Z) : option (option (list Group) * t) :=
  match getRedoGroup h with
  | None => None
  | Some None => Some (None, h)
  | Some (Some (startIndex, endIndex)) =>
      match byEditor h startIndex endIndex with
      | None => None
      | Some result =>
          Some (Some result,
                mk (history h) endIndex (lastUndoTimestamp h) now (groupTimeoutMs h))
      end
  end.

(** [undo()]: the entry returned ([None] for [undefined]) and the history
    afterwards. *)
Definition undo (h : t) (now : Z) : option Entry * t :=
  (item (history h) (currentIndex h),
   mk (history h) (currentIndex h - 1) now (lastRedoTimestamp h) (groupTimeoutMs h)).

(** [redo()]; [None] stands for [null] and for [undefined]. *)
Definition redo (h : t) (now : Z) : option Entry * t :=
  if negb (canRedo h) then (None, h)
  else
    (item (history h) (currentIndex h + 1),
     mk (history h) (currentIndex h + 1) (lastUndoTimestamp h) now (groupTimeoutMs h)).

(** [clear()] *)
Definition clear (h : t) : t := mk [] (-1) 0 0 (groupTimeoutMs h).

(** The index of a history points at one of its entries or just before the
    first one. *)
Definition wf (h : t) : Prop :=
  -1 <= currentIndex h < Z.of_nat (length (history h)).

(** The entries [from .. to - 1] of a history. *)
Definition entries (h : t) (from to : Z) : list Entry :=
  firstn (Z.to_nat (to - from)) (skipn (Z.to_nat from) (history h)).

(** The entries [s .. e] of a history are grouped two by two. *)
Definition chained (h : t) (s e : Z) : Prop :=
  forall j, s <= j < e ->
    exists x y, item (history h) j = Some x /\ item (history h) (j + 1) = Some y
                /\ grouped h x y = true.
End History.
End SharedHistory.

(** ** Vocabulary of the further properties *)

(** The [n] units of [a] from position [pA] on are the [n] units of [b] from
    position [pB] on. *)
Definition same (a b : str) (pA pB n : Z) : Prop :=
  forall i, 0 <= i < n -> charCodeAt a (pA + i) = charCodeAt b (pB + i).

(** [changes] is an edit script from [a] to [b], from the positions [pA],
    [pB] on: the changes lie inside the strings, in ascending order, and the
    stretches before, between and after them are the same in [a] and in
    [b]. *)
Fixpoint edits (a b : str) (pA pB : Z) (changes : list Change) : Prop :=
  match changes with
  | [] =>
      0 <= pA <= slen a /\ 0 <= pB <= slen b
      /\ slen a - pA = slen b - pB /\ same a b pA pB (slen a - pA)
  | c :: rest =>
      0 <= pA <= fromA c /\ 0 <= pB <= fromB c
      /\ fromA c <= toA c /\ fromB c <= toB c
      /\ fromA c - pA = fromB c - pB /\ same a b pA pB (fromA c - pA)
      /\ edits a b (toA c) (toB c) rest
  end.

(** No position of [s] lies inside a surrogate pair. *)
Definition noPairs (s : str) : Prop := forall i, validIndex s i = true.

(** The common prefix of two ranges cannot be longer than [q]: one of the
    ranges ends there, or the next units differ. *)
Definition prefixEnds (a : str) (fromA toA : Z) (b : str) (fromB toB : Z) (q : Z) : Prop :=
  fromA + q = toA \/ fromB + q = toB
  \/ code_eq (charCodeAt a (fromA + q)) (charCodeAt b (fromB + q)) = false.

(** The common suffix of two ranges cannot be longer than [q]. *)
Definition suffixEnds (a : str) (fromA toA : Z) (b : str) (fromB toB : Z) (q : Z) : Prop :=
  toA - q = fromA \/ toB - q = fromB
  \/ code_eq (charCodeAt a (toA - q - 1)) (charCodeAt b (toB - q - 1)) = false.

(** The position in [a] where the text after a change ends: the start of
    the next change, or the end of [a]. *)
Definition nextFromA (a : str) (rest : list Change) : Z :=
  match rest with
  | next :: _ => fromA next
  | [] => slen a
  end.

(** Every result of [m] satisfies [P]. *)
Definition yields {A} (P : A -> Prop) (m : M A) : Prop :=
  forall g x g', m g = Some (x, g') -> P x.

(** The list holds an element. *)
Definition nonEmpty {A} (l : list A) : Prop := l <> [].

(** [changes] is an edit script for the ranges [pA .. eA] of [a] and
    [pB .. eB] of [b]: the changes lie in the ranges, in order, and the
    texts between them agree. *)
Fixpoint editsIn (a b : str) (pA pB eA eB : Z) (changes : list Change) : Prop :=
  match changes with
  | [] => pA <= eA /\ pB <= eB /\ eA - pA = eB - pB /\ same a b pA pB (eA - pA)
  | c :: rest =>
      pA <= fromA c /\ pB <= fromB c
      /\ fromA c <= toA c /\ fromB c <= toB c
      /\ fromA c - pA = fromB c - pB /\ same a b pA pB (fromA c - pA)
      /\ editsIn a b (toA c) (toB c) eA eB rest
  end.

(** [m] is a stretch that the two ranges share. *)
Definition shared (a b : str) (fromA toA fromB toB : Z) (m : Match) : Prop :=
  let '(sA, sB, len) := m in
  fromA <= sA /\ fromB <= sB /\ 0 <= len /\ sA + len <= toA /\ sB + len <= toB
  /\ same a b sA sB len.

(** A match, if any, is such a stretch. *)
Definition sharedOrNone (a b : str) (fromA toA fromB toB : Z) (m : option Match) : Prop :=
  match m with
  | Some m => shared a b fromA toA fromB toB m
  | None => True
  end.

(** A match, if any, is at least [size] units long. *)
Definition longOrNone (size : Z) (m : option Match) : Prop :=
  match m with
  | Some (_, _, len) => size <= len
  | None => True
  end.

(** The Myers search never starts: the scan limit leaves no room for it, or
    the deadline lies behind every later reading of the clock. *)
Definition noSearch (now : nat -> Z) (g : Globals) : Prop :=
  scanLimit g = 0
  \/ (0 < timeout g /\ forall n, (ticks g <= n)%nat -> timeout g < now n).

(** The configuration and the clock that make [diff] start in such a
    state. *)
Definition searchOff (now : nat -> Z) (config : DiffConfig) (g : Globals) : Prop :=
  cfg_scanLimit config = Some 0 \/ cfg_scanLimit config = Some 1
  \/ exists t, cfg_timeout config = Some t /\ t <> 0 /\ 0 < now (ticks g) + t
               /\ forall n, (ticks g < n)%nat -> now (ticks g) + t < now n.

(** From a state where [I] holds, every result of [m] satisfies [P], and
    [I] holds afterwards. *)
Definition under {A} (I : Globals -> Prop) (P : A -> Prop) (m : M A) : Prop :=
  forall g x g', I g -> m g = Some (x, g') -> P x /\ I g'.

(** [s] holds no line break. *)
Definition noBreaks (s : str) : Prop :=
  forall i, code_is (charCodeAt s i) 10 = false.

(** The chunks follow each other on both sides, and the stretches between
    them are as long on one side as on the other, from the positions [pA],
    [pB] on. *)
Fixpoint aligned (pA pB : Z) (chunks : list Chunk.t) : Prop :=
  match chunks with
  | [] => True
  | c :: rest =>
      pA <= Chunk.fromA c <= Chunk.toA c /\ pB <= Chunk.fromB c <= Chunk.toB c
      /\ Chunk.fromA c - pA = Chunk.fromB c - pB
      /\ aligned (Chunk.toA c) (Chunk.toB c) rest
  end.

(** On the A side, [pos] lies at or before the start of every chunk that
    does not end before it. *)
Definition betweenChunks (pos : Z) (chunks : list Chunk.t) : Prop :=
  Forall (fun c => pos <= Chunk.fromA c \/ Chunk.toA c < pos) chunks.

(** The chunk starts after [head], and does not end before it. *)
Definition startsAfter (side : Side) (head : Z) (c : Chunk.t) : Prop :=
  head < fst (sideRange side c) /\ head <= snd (sideRange side c).

(** The chunk starts at or before [head]. *)
Definition startsBefore (side : Side) (head : Z) (c : Chunk.t) : Prop :=
  fst (sideRange side c) <= head.

(** Each range ends before the next one starts, on the A side. *)
Definition rangesApart (rs : list Range.t) : Prop :=
  forall i r1 r2, nth_error rs i = Some r1 -> nth_error rs (S i) = Some r2 ->
                  Range.toA r1 < Range.fromA r2.

(** The changes of a chunk, at their positions in the documents. *)
Definition documentChanges (c : Chunk.t) : list Change :=
  map (fun ch => Change_offset ch (Chunk.fromA c) (Chunk.fromB c)) (Chunk.changes c).

(** The start and the end of a chunk on one side. *)
Definition chunkFrom (isA : bool) (c : Chunk.t) : Z :=
  if isA then Chunk.fromA c else Chunk.fromB c.
Definition chunkTo (isA : bool) (c : Chunk.t) : Z :=
  if isA then Chunk.toA c else Chunk.toB c.

(** What [findPos] returns for a position outside the chunks, where
    [before] are the chunks that end at or before it. *)
Definition besideChunks (before : list Chunk.t) (pos : Z) (isA : bool) : Z * Z :=
  let '(refA, refB) := match rev before with
                       | last :: _ => (Chunk.toA last, Chunk.toB last)
                       | [] => (0, 0)
                       end in
  let off := pos - (if isA then refA else refB) in
  (refA + off, refB + off).

(** The chunk starts inside the documents, and its ends [endA], [endB] are
    positions of the documents at or after its start. *)
Definition endsInside (a b : Text) (c : Chunk.t) : Prop :=
  0 <= Chunk.fromA c <= Chunk.endA c /\ Chunk.endA c <= slen a
  /\ 0 <= Chunk.fromB c <= Chunk.endB c /\ Chunk.endB c <= slen b.

(** Every chunk has [from <= to] on both sides and ends, on both sides,
    before the next one starts. *)
Fixpoint chunksApart (chunks : list Chunk.t) : Prop :=
  match chunks with
  | [] => True
  | c :: rest =>
      Chunk.fromA c <= Chunk.toA c /\ Chunk.fromB c <= Chunk.toB c
      /\ match rest with
         | [] => True
         | d :: _ => Chunk.toA c < Chunk.fromA d /\ Chunk.toB c < Chunk.fromB d
         end
      /\ chunksApart rest
  end.

(** ** Further literals *)

Section MoreLiterals.
Import String.

(** Two strings that share no unit. *)
Definition abcd : str := units "abcd"%string.
Definition wxyz : str := units "wxyz"%string.

(** "! abc", and "z ab" and "z abc" on two lines. *)
Definition bang_abc : str := units "! abc"%string.
Definition z_ab_twice : str := (units "z ab"%string ++ [10] ++ units "z abc"%string)%list.
End MoreLiterals.

(** ** Vocabulary of the incremental update *)



(** The change inserts a stretch, deletes a stretch, or replaces one unit by
    a different one. *)
Definition basicChange (a b : str) (c : Change) : Prop :=
  (toA c = fromA c /\ fromB c < toB c)
  \/ (toB c = fromB c /\ fromA c < toA c)
  \/ (toA c = fromA c + 1 /\ toB c = fromB c + 1
      /\ code_eq (charCodeAt a (fromA c)) (charCodeAt b (fromB c)) = false).

(** The window [range] of an update holds every chunk of the list: the first
    chunk does not end at or before the start of the window on both sides
    (so that [updateChunks] copies no chunk in front of the window), and no
    chunk starts after the end of the window on both sides (so that it
    copies none behind it). *)
Definition holdsChunks (range : Range.t) (chunks : list Chunk.t) : Prop :=
  match chunks with
  | [] => True
  | first :: _ =>
      Range.fromA range < Chunk.toA first \/ Range.fromB range < Chunk.toB first
  end
  /\ Forall (fun c => Chunk.fromA c <= Range.toA range
                      \/ Chunk.fromB c <= Range.toB range) chunks.

(** The window is the whole of both documents. *)
Definition wholeDocuments (a b : Text) (range : Range.t) : Prop :=
  Range.fromA range = 0 /\ Range.fromB range = 0
  /\ Range.toA range + Range.diffA range = slen a
  /\ Range.toB range + Range.diffB range = slen b.

(** The documents are the same, and so are the two sides of the window. *)
Definition sameDocuments (a b : Text) (range : Range.t) : Prop :=
  a = b /\ Range.fromA range = Range.fromB range
  /\ Range.toA range + Range.diffA range = Range.toB range + Range.diffB range.

(** [b] is [a] with the stretch [fromA c .. toA c] replaced by the stretch
    [fromB c .. toB c] of [b], where [c] is a basic change that starts where
    the common prefix of the two documents ends; the window starts at the
    same offset on both sides, leaves as much of [a] as of [b] behind it,
    and holds [c] with room around it: the length of the longer side of [c]
    plus 40 units, on each side where the window does not reach the end of
    the documents.  No position of [a] lies inside a surrogate pair, and the
    shorter document has at most 2^30 units. *)
Definition oneDifference (a b : Text) (range : Range.t) : Prop :=
  let f := Range.fromA range in
  let tA := Range.toA range + Range.diffA range in
  let tB := Range.toB range + Range.diffB range in
  exists c : Change,
    noPairs a /\ Z.min (slen a) (slen b) <= 2 ^ 30
    /\ Range.fromB range = f /\ 0 <= f /\ tA <= slen a
    /\ slen a - tA = slen b - tB
    /\ fromB c = fromA c /\ fromA c <= toA c /\ fromB c <= toB c
    /\ slen a - toA c = slen b - toB c
    /\ same a b 0 0 (fromA c)
    /\ prefixEnds a 0 (slen a) b 0 (slen b) (fromA c)
    /\ same a b (toA c) (toB c) (slen a - toA c)
    /\ basicChange a b c
    /\ f <= fromA c /\ toA c <= tA
    /\ (f = 0 \/ Z.max (toA c - fromA c) (toB c - fromB c) + 40 <= fromA c - f)
    /\ (tA = slen a \/ Z.max (toA c - fromA c) (toB c - fromB c) + 40 <= tA - toA c).

(** One step of keeping the chunks of [a] and [b] up to date, where [b] is
    document B after the edit [changes] and [chunks] the list before it:
    the edit has one window, which holds every chunk of the list, and the
    window is the whole of the documents, or the documents are the same, or
    they differ in one basic change inside the window. *)
Definition windowStep (fuel : nat) (a b : Text) (chunks : list Chunk.t)
           (changes : ChangeDesc) : Prop :=
  exists range,
    findRangesForChange fuel chunks changes false (slen a) = Some [range]
    /\ holdsChunks range chunks
    /\ (wholeDocuments a b range
        \/ sameDocuments a b range
        \/ (oneDifference a b range /\ (Z.to_nat (slen a) + 32 <= fuel)%nat)).

Section Steps.
Variable wordChar : option (str -> bool).
Variable now : nat -> Z.
Variable fuel : nat.
Variables (a : Text) (conf : DiffConfig).



End Steps.

(** ** Literals for the incremental update *)



(** The line "ab", [n] times. *)
Definition rhyme (n : nat) : Text := flat_map (fun _ => [97; 98; 10]) (seq 0 n).

(** * Properties *)

(** ** Identity *)

Lemma str_eqb_refl (s : str) : str_eqb s s = true.
Proof.
  induction s as [|x s IH]; simpl; [reflexivity|].
  now rewrite Z.eqb_refl, IH.
Qed.

Lemma str_eqb_eq (s t : str) : str_eqb s t = true <-> s = t.
Proof.
  split.
  - revert t; induction s as [|x s IH]; intros [|y t]; simpl; try discriminate; auto.
    intros H. apply andb_true_iff in H as [Hx Hs].
    apply Z.eqb_eq in Hx. apply IH in Hs. congruence.
  - intros ->. apply str_eqb_refl.
Qed.

(** C2. [diff(a, a, config)] is the empty list for every string and every
    configuration (one unit of fuel is all the model needs); in particular
    [diff("abc", "abc")] is []. *)
Theorem diff_same_empty :
  (forall now fuel (a : str) config g,
      result (diff now (S fuel) a a config g) = Some [])
  /\ (forall now g, result (diff now 1 abc abc noConfig g) = Some []).
Proof.
  assert (H : forall now fuel (a : str) config g,
             result (diff now (S fuel) a a config g) = Some []).
  { intros now fuel a config g. unfold diff, result.
    destruct (cfg_timeout config) as [t|]; [destruct (t =? 0)|];
      unfold bind; simpl; unfold findDiff_body; rewrite str_eqb_refl; reflexivity. }
  split; [exact H | intros now g; apply H].
Qed.

(** ** Edits without changed ranges *)

(** C10. When the edit description has no changed ranges, [Chunk.updateA]
    and [Chunk.updateB] return the prior chunk list itself, and leave the
    module state as it was: nothing is diffed, translated or replaced. *)
Theorem update_no_ranges wordChar now fuel (a b : Text) conf chunks changes g :
  changedRanges changes = [] ->
  Chunk_updateA wordChar now fuel a b conf chunks changes g = Some (chunks, g)
  /\ Chunk_updateB wordChar now fuel a b conf chunks changes g = Some (chunks, g).
Proof.
  intros Hnil.
  unfold Chunk_updateA, Chunk_updateB, findRangesForChange, bind, lift.
  rewrite Hnil. simpl. split; reflexivity.
Qed.

Lemma update_no_ranges_witness :
  let chunks := [Chunk.mk [mkChange 0 5 0 5] 6 12 6 12 true] in
  Chunk_updateA None (fun _ => 0) 0 lines_2 lines_X noConfig chunks
                (mkChangeDesc 17 []) defaults = Some (chunks, defaults)
  /\ Chunk_updateB None (fun _ => 0) 0 lines_2 lines_X noConfig chunks
                   (mkChangeDesc 17 []) defaults = Some (chunks, defaults).
Proof.
  intros chunks. apply update_no_ranges. reflexivity.
Defined.

(** ** More fuel never changes a result

    Every function of the model that takes fuel returns the same result when
    it is given more: a result obtained with some amount of fuel is the
    result of the program. *)

Create HintDb mono.
#[local] Hint Extern 1 (_ <= _)%nat => lia : mono.

(** One step of a fuel-monotonicity proof: the hypothesis and the goal are
    the same body, run with less and with more fuel. *)
Ltac mono_case H e e' :=
  lazymatch e with
  | match ?e1 with _ => _ end =>
      lazymatch e' with
      | match ?e1' with _ => _ end => mono_case H e1 e1'
      end
  | _ =>
      first
        [ constr_eq e e'; destruct e eqn:?; try discriminate H
        | let E := fresh "E" in
          let E' := fresh "E" in
          destruct e eqn:E; [|discriminate H];
          lazymatch type of E with
          | _ = Some ?v => assert (E' : e' = Some v) by eauto with mono; rewrite E'
          end ];
      cbv beta iota in *
  end.

Ltac mono_step :=
  lazymatch goal with
  | H : match ?e with _ => _ end = Some _ |- match ?e' with _ => _ end = Some _ =>
      mono_case H e e'
  | H : (match ?e with _ => _ end) _ = Some _ |- (match ?e' with _ => _ end) _ = Some _ =>
      mono_case H e e'
  | H : Some _ = Some _ |- _ => exact H
  | H : ?x = Some _ |- ?y = Some _ => solve [eauto with mono]
  end.
Ltac mono := repeat mono_step.

Lemma chunkSize_loop_mono n : forall n' size max r,
  (n <= n')%nat -> chunkSize_loop n size max = Some r -> chunkSize_loop n' size max = Some r.
Proof.
  induction n as [|n IH]; intros n' size max r Hle H; [discriminate|].
  destruct n' as [|n']; [lia|]. simpl in *. mono.
Qed.
#[local] Hint Resolve chunkSize_loop_mono : mono.

Lemma chunkSize_mono n n' lenA lenB r :
  (n <= n')%nat -> chunkSize n lenA lenB = Some r -> chunkSize n' lenA lenB = Some r.
Proof. unfold chunkSize. eauto with mono. Qed.
#[local] Hint Resolve chunkSize_mono : mono.

Lemma commonPrefix_loop_mono n : forall n' a fromA toA b fromB toB chunk pA pB r,
  (n <= n')%nat -> commonPrefix_loop n a fromA toA b fromB toB chunk pA pB = Some r ->
  commonPrefix_loop n' a fromA toA b fromB toB chunk pA pB = Some r.
Proof.
  induction n as [|n IH]; intros n' a fromA toA b fromB toB chunk pA pB r Hle H; [discriminate|].
  destruct n' as [|n']; [lia|]. simpl in *. mono.
Qed.
#[local] Hint Resolve commonPrefix_loop_mono : mono.

Lemma commonPrefix_mono n n' a fromA toA b fromB toB r :
  (n <= n')%nat -> commonPrefix n a fromA toA b fromB toB = Some r ->
  commonPrefix n' a fromA toA b fromB toB = Some r.
Proof. unfold commonPrefix. intros Hle H. mono. Qed.
#[local] Hint Resolve commonPrefix_mono : mono.

Lemma commonSuffix_loop_mono n : forall n' a fromA toA b fromB toB chunk pA pB r,
  (n <= n')%nat -> commonSuffix_loop n a fromA toA b fromB toB chunk pA pB = Some r ->
  commonSuffix_loop n' a fromA toA b fromB toB chunk pA pB = Some r.
Proof.
  induction n as [|n IH]; intros n' a fromA toA b fromB toB chunk pA pB r Hle H; [discriminate|].
  destruct n' as [|n']; [lia|]. simpl in *. mono.
Qed.
#[local] Hint Resolve commonSuffix_loop_mono : mono.

Lemma commonSuffix_mono n n' a fromA toA b fromB toB r :
  (n <= n')%nat -> commonSuffix n a fromA toA b fromB toB = Some r ->
  commonSuffix n' a fromA toA b fromB toB = Some r.
Proof. unfold commonSuffix. intros Hle H. mono. Qed.
#[local] Hint Resolve commonSuffix_mono : mono.

Lemma snake_mono lenX lenY matches n : forall n' x y r,
  (n <= n')%nat -> snake lenX lenY matches n x y = Some r ->
  snake lenX lenY matches n' x y = Some r.
Proof.
  induction n as [|n IH]; intros n' x y r Hle H; [discriminate|].
  destruct n' as [|n']; [lia|]. simpl in *. mono.
Qed.
#[local] Hint Resolve snake_mono : mono.

Lemma advance_loop_mono lenX lenY vOff other fromBack matches fuel fuel' n :
  (fuel <= fuel')%nat ->
  forall n' depth k fr r,
  (n <= n')%nat ->
  advance_loop lenX lenY vOff other fromBack matches fuel n depth k fr = Some r ->
  advance_loop lenX lenY vOff other fromBack matches fuel' n' depth k fr = Some r.
Proof.
  intros Hf. induction n as [|n IH]; intros n' depth k fr r Hle H; [discriminate|].
  destruct n' as [|n']; [lia|]. simpl in *. mono.
Qed.
#[local] Hint Resolve advance_loop_mono : mono.

Lemma Frontier_advance_mono lenX lenY vOff other fromBack matches fuel fuel' depth fr r :
  (fuel <= fuel')%nat ->
  Frontier_advance lenX lenY vOff other fromBack matches fuel depth fr = Some r ->
  Frontier_advance lenX lenY vOff other fromBack matches fuel' depth fr = Some r.
Proof. unfold Frontier_advance. eauto with mono. Qed.
#[local] Hint Resolve Frontier_advance_mono : mono.

Lemma findMatch_occ_mono fuel fuel' a fromA toA b fromB toB n :
  (fuel <= fuel')%nat ->
  forall n' rangeB seed start end_ found best r,
  (n <= n')%nat ->
  findMatch_occ fuel a fromA toA b fromB toB n rangeB seed start end_ found best = Some r ->
  findMatch_occ fuel' a fromA toA b fromB toB n' rangeB seed start end_ found best = Some r.
Proof.
  intros Hf. induction n as [|n IH]; intros n' rangeB seed start end_ found best r Hle H;
    [discriminate|].
  destruct n' as [|n']; [lia|]. simpl in *. mono.
Qed.
#[local] Hint Resolve findMatch_occ_mono : mono.

Lemma findMatch_seeds_mono fuel fuel' a fromA toA b fromB toB n :
  (fuel <= fuel')%nat ->
  forall n' rangeB size start best r,
  (n <= n')%nat ->
  findMatch_seeds fuel a fromA toA b fromB toB n rangeB size start best = Some r ->
  findMatch_seeds fuel' a fromA toA b fromB toB n' rangeB size start best = Some r.
Proof.
  intros Hf. induction n as [|n IH]; intros n' rangeB size start best r Hle H;
    [discriminate|].
  destruct n' as [|n']; [lia|]. simpl in *. mono.
Qed.
#[local] Hint Resolve findMatch_seeds_mono : mono.

Lemma findMatch_sizes_mono fuel fuel' a fromA toA b fromB toB n :
  (fuel <= fuel')%nat ->
  forall n' rangeB size divideTo best r,
  (n <= n')%nat ->
  findMatch_sizes fuel a fromA toA b fromB toB n rangeB size divideTo best = Some r ->
  findMatch_sizes fuel' a fromA toA b fromB toB n' rangeB size divideTo best = Some r.
Proof.
  intros Hf. induction n as [|n IH]; intros n' rangeB size divideTo best r Hle H;
    [discriminate|].
  destruct n' as [|n']; [lia|]. simpl in *. mono.
Qed.
#[local] Hint Resolve findMatch_sizes_mono : mono.

Lemma findMatch_mono fuel fuel' a fromA toA b fromB toB size divideTo r :
  (fuel <= fuel')%nat ->
  findMatch fuel a fromA toA b fromB toB size divideTo = Some r ->
  findMatch fuel' a fromA toA b fromB toB size divideTo = Some r.
Proof. unfold findMatch. eauto with mono. Qed.
#[local] Hint Resolve findMatch_mono : mono.

Lemma option_map_mono {A B} (f : A -> B) (x y : option A) r :
  (forall v, x = Some v -> y = Some v) ->
  option_map f x = Some r -> option_map f y = Some r.
Proof.
  intros Hxy H. destruct x as [v|]; [|discriminate].
  now rewrite (Hxy v eq_refl).
Qed.

Lemma halfMatch_mono fuel fuel' a fromA toA b fromB toB r :
  (fuel <= fuel')%nat ->
  halfMatch fuel a fromA toA b fromB toB = Some r ->
  halfMatch fuel' a fromA toA b fromB toB = Some r.
Proof.
  unfold halfMatch. intros Hf H.
  destruct (toA - fromA <? toB - fromB).
  - destruct ((toB - fromB <? 4) || ((toA - fromA) * 2 <? toB - fromB)); [exact H|].
    eapply option_map_mono; [|exact H]. eauto with mono.
  - mono.
Qed.
#[local] Hint Resolve halfMatch_mono : mono.

Lemma bisect_mono rec rec' a fromA toA splitA b fromB toB splitB g r :
  rec_le rec rec' ->
  bisect rec a fromA toA splitA b fromB toB splitB g = Some r ->
  bisect rec' a fromA toA splitA b fromB toB splitB g = Some r.
Proof.
  unfold rec_le, bisect, bind, ret. intros Hrec H. mono.
Qed.
#[local] Hint Resolve bisect_mono : mono.

Lemma crudeMatch_mono fuel fuel' rec rec' a fromA toA b fromB toB g r :
  (fuel <= fuel')%nat -> rec_le rec rec' ->
  crudeMatch fuel rec a fromA toA b fromB toB g = Some r ->
  crudeMatch fuel' rec' a fromA toA b fromB toB g = Some r.
Proof.
  unfold rec_le, crudeMatch, bind, ret, lift, setCrude. intros Hf Hrec H.
  destruct (toA - fromA <? toB - fromB).
  - destruct (option_map (option_map swapMatch)
                (findMatch fuel b fromB toB a fromA toA ((toA - fromA) / 6) 50)) eqn:E;
      [|discriminate].
    erewrite option_map_mono; [| |exact E]; [|eauto with mono]. mono.
  - mono.
Qed.
#[local] Hint Resolve crudeMatch_mono : mono.

Lemma findSnake_loop_mono now fuel fuel' rec rec' n :
  (fuel <= fuel')%nat -> rec_le rec rec' ->
  forall n' a fromA toA b fromB toB off depth f1 f2 g r,
  (n <= n')%nat ->
  findSnake_loop now fuel rec n a fromA toA b fromB toB off depth f1 f2 g = Some r ->
  findSnake_loop now fuel' rec' n' a fromA toA b fromB toB off depth f1 f2 g = Some r.
Proof.
  intros Hf Hrec. induction n as [|n IH];
    intros n' a fromA toA b fromB toB off depth f1 f2 g r Hle H; [discriminate|].
  destruct n' as [|n']; [lia|]. simpl in *.
  unfold bind, ret, lift, getScanLimit in *. mono.
Qed.
#[local] Hint Resolve findSnake_loop_mono : mono.

Lemma findSnake_mono now fuel fuel' rec rec' a fromA toA b fromB toB g r :
  (fuel <= fuel')%nat -> rec_le rec rec' ->
  findSnake now fuel rec a fromA toA b fromB toB g = Some r ->
  findSnake now fuel' rec' a fromA toA b fromB toB g = Some r.
Proof.
  unfold findSnake, bind, ret, lift, getScanLimit. intros Hf Hrec H. mono.
Qed.
#[local] Hint Resolve findSnake_mono : mono.

Lemma findDiff_body_mono now fuel fuel' rec rec' a fromA toA b fromB toB g r :
  (fuel <= fuel')%nat -> rec_le rec rec' ->
  findDiff_body now fuel rec a fromA toA b fromB toB g = Some r ->
  findDiff_body now fuel' rec' a fromA toA b fromB toB g = Some r.
Proof.
  unfold findDiff_body, bind, ret, lift. intros Hf Hrec H. mono.
Qed.
#[local] Hint Resolve findDiff_body_mono : mono.

Lemma findDiff_mono now fuel fuel' n :
  (fuel <= fuel')%nat ->
  forall n', (n <= n')%nat -> rec_le (findDiff now fuel n) (findDiff now fuel' n').
Proof.
  intros Hf. induction n as [|n IH]; intros n' Hle a fromA toA b fromB toB g r H;
    [discriminate|].
  destruct n' as [|n']; [lia|]. simpl in *.
  eapply findDiff_body_mono; [exact Hf| |exact H]. apply IH. lia.
Qed.
#[local] Hint Resolve findDiff_mono : mono.

Lemma findDiff_more_fuel now fuel fuel' a fromA toA b fromB toB g r :
  (fuel <= fuel')%nat ->
  findDiff now fuel fuel a fromA toA b fromB toB g = Some r ->
  findDiff now fuel' fuel' a fromA toA b fromB toB g = Some r.
Proof. intros Hf. now apply findDiff_mono. Qed.
#[local] Hint Resolve findDiff_more_fuel : mono.

Lemma normalize_step_mono fuel fuel' a b prevToA nextFromA ch r :
  (fuel <= fuel')%nat ->
  normalize_step fuel a b prevToA nextFromA ch = Some r ->
  normalize_step fuel' a b prevToA nextFromA ch = Some r.
Proof. unfold normalize_step. intros Hf H. mono. Qed.
#[local] Hint Resolve normalize_step_mono : mono.

Lemma normalize_pass_mono fuel fuel' a b changes :
  (fuel <= fuel')%nat ->
  forall prevToA r,
  normalize_pass fuel a b prevToA changes = Some r ->
  normalize_pass fuel' a b prevToA changes = Some r.
Proof.
  intros Hf. induction changes as [|ch rest IH]; intros prevToA r H; simpl in *; mono.
Qed.
#[local] Hint Resolve normalize_pass_mono : mono.

Lemma normalize_loop_mono fuel fuel' a b n :
  (fuel <= fuel')%nat ->
  forall n' changes r,
  (n <= n')%nat ->
  normalize_loop fuel a b n changes = Some r ->
  normalize_loop fuel' a b n' changes = Some r.
Proof.
  intros Hf. induction n as [|n IH]; intros n' changes r Hle H; [discriminate|].
  destruct n' as [|n']; [lia|]. simpl in *. mono.
Qed.
#[local] Hint Resolve normalize_loop_mono : mono.

Lemma normalize_mono fuel fuel' a b changes r :
  (fuel <= fuel')%nat ->
  normalize fuel a b changes = Some r -> normalize fuel' a b changes = Some r.
Proof. unfold normalize. eauto with mono. Qed.
#[local] Hint Resolve normalize_mono : mono.

Lemma diff_mono now fuel fuel' a b config g r :
  (fuel <= fuel')%nat ->
  diff now fuel a b config g = Some r -> diff now fuel' a b config g = Some r.
Proof.
  unfold diff, bind, lift. intros Hf H.
  destruct (cfg_timeout config) as [t|]; [destruct (t =? 0)|]; cbv beta iota zeta in *; mono.
Qed.
#[local] Hint Resolve diff_mono : mono.

Lemma findLineBreakBefore_loop_mono n : forall n' s pos stop r,
  (n <= n')%nat ->
  findLineBreakBefore_loop n s pos stop = Some r ->
  findLineBreakBefore_loop n' s pos stop = Some r.
Proof.
  induction n as [|n IH]; intros n' s pos stop r Hle H; [discriminate|].
  destruct n' as [|n']; [lia|]. simpl in *. mono.
Qed.

Lemma findLineBreakAfter_loop_mono n : forall n' s pos stop r,
  (n <= n')%nat ->
  findLineBreakAfter_loop n s pos stop = Some r ->
  findLineBreakAfter_loop n' s pos stop = Some r.
Proof.
  induction n as [|n IH]; intros n' s pos stop r Hle H; [discriminate|].
  destruct n' as [|n']; [lia|]. simpl in *. mono.
Qed.
#[local] Hint Resolve findLineBreakBefore_loop_mono findLineBreakAfter_loop_mono : mono.

Lemma alignToLine_mono fuel fuel' s from to maxScanBefore maxScanAfter change r :
  (fuel <= fuel')%nat ->
  alignToLine fuel s from to maxScanBefore maxScanAfter change = Some r ->
  alignToLine fuel' s from to maxScanBefore maxScanAfter change = Some r.
Proof.
  unfold alignToLine, findLineBreakAfter, findLineBreakBefore. intros Hf H. mono.
Qed.
#[local] Hint Resolve alignToLine_mono : mono.

Lemma presentChange_mono wordChar fuel fuel' a b posA nextChangeA change r :
  (fuel <= fuel')%nat ->
  presentChange wordChar fuel a b posA nextChangeA change = Some r ->
  presentChange wordChar fuel' a b posA nextChangeA change = Some r.
Proof. unfold presentChange. intros Hf H. mono. Qed.
#[local] Hint Resolve presentChange_mono : mono.

Lemma makePresentable_loop_mono wordChar fuel fuel' a b changes :
  (fuel <= fuel')%nat ->
  forall posA r,
  makePresentable_loop wordChar fuel a b posA changes = Some r ->
  makePresentable_loop wordChar fuel' a b posA changes = Some r.
Proof.
  intros Hf. induction changes as [|ch rest IH]; intros posA r H; simpl in *; mono.
Qed.
#[local] Hint Resolve makePresentable_loop_mono : mono.

Lemma makePresentable_mono wordChar fuel fuel' changes a b r :
  (fuel <= fuel')%nat ->
  makePresentable wordChar fuel changes a b = Some r ->
  makePresentable wordChar fuel' changes a b = Some r.
Proof. unfold makePresentable. intros Hf H. mono. Qed.
#[local] Hint Resolve makePresentable_mono : mono.

Lemma presentableDiff_mono wordChar fuel fuel' now a b config g r :
  (fuel <= fuel')%nat ->
  presentableDiff wordChar fuel now a b config g = Some r ->
  presentableDiff wordChar fuel' now a b config g = Some r.
Proof. unfold presentableDiff, bind, lift. intros Hf H. mono. Qed.
#[local] Hint Resolve presentableDiff_mono : mono.

Lemma findPos_loop_mono n : forall n' chunks pos isA start lo hi r,
  (n <= n')%nat ->
  findPos_loop n chunks pos isA start lo hi = Some r ->
  findPos_loop n' chunks pos isA start lo hi = Some r.
Proof.
  induction n as [|n IH]; intros n' chunks pos isA start lo hi r Hle H; [discriminate|].
  destruct n' as [|n']; [lia|]. simpl in *. mono.
Qed.
#[local] Hint Resolve findPos_loop_mono : mono.

Lemma findPos_mono fuel fuel' chunks pos isA start r :
  (fuel <= fuel')%nat ->
  findPos fuel chunks pos isA start = Some r -> findPos fuel' chunks pos isA start = Some r.
Proof. unfold findPos. eauto with mono. Qed.
#[local] Hint Resolve findPos_mono : mono.

Lemma addRange_mono fuel fuel' chunks changes isA otherLen ranges rg r :
  (fuel <= fuel')%nat ->
  addRange fuel chunks changes isA otherLen ranges rg = Some r ->
  addRange fuel' chunks changes isA otherLen ranges rg = Some r.
Proof.
  unfold addRange. intros Hf H. destruct rg as [[[cFromA cToA] cFromB] cToB].
  destruct (cFromA >? updateMargin); destruct (cToA <? desc_length changes - updateMargin);
    mono.
Qed.
#[local] Hint Resolve addRange_mono : mono.

Lemma findRanges_loop_mono fuel fuel' chunks changes isA otherLen rs :
  (fuel <= fuel')%nat ->
  forall ranges r,
  findRanges_loop fuel chunks changes isA otherLen ranges rs = Some r ->
  findRanges_loop fuel' chunks changes isA otherLen ranges rs = Some r.
Proof.
  intros Hf. induction rs as [|rg rs IH]; intros ranges r H; simpl in *; mono.
Qed.
#[local] Hint Resolve findRanges_loop_mono : mono.

Lemma findRangesForChange_mono fuel fuel' chunks changes isA otherLen r :
  (fuel <= fuel')%nat ->
  findRangesForChange fuel chunks changes isA otherLen = Some r ->
  findRangesForChange fuel' chunks changes isA otherLen = Some r.
Proof. unfold findRangesForChange. eauto with mono. Qed.
#[local] Hint Resolve findRangesForChange_mono : mono.

Lemma updateChunks_loop_mono wordChar now fuel fuel' a b conf ranges :
  (fuel <= fuel')%nat ->
  forall chunks offA offB g r,
  updateChunks_loop wordChar now fuel a b conf ranges chunks offA offB g = Some r ->
  updateChunks_loop wordChar now fuel' a b conf ranges chunks offA offB g = Some r.
Proof.
  intros Hf. induction ranges as [|range ranges IH]; intros chunks offA offB g r H;
    simpl in *; [exact H|].
  unfold bind, ret, lift, diffIsPrecise in *. mono.
Qed.
#[local] Hint Resolve updateChunks_loop_mono : mono.

Lemma updateChunks_mono wordChar now fuel fuel' a b conf ranges chunks g r :
  (fuel <= fuel')%nat ->
  updateChunks wordChar now fuel a b conf ranges chunks g = Some r ->
  updateChunks wordChar now fuel' a b conf ranges chunks g = Some r.
Proof. unfold updateChunks. intros Hf H. destruct ranges; eauto with mono. Qed.
#[local] Hint Resolve updateChunks_mono : mono.

Lemma Chunk_build_mono wordChar now fuel fuel' a b conf g r :
  (fuel <= fuel')%nat ->
  Chunk_build wordChar now fuel a b conf g = Some r ->
  Chunk_build wordChar now fuel' a b conf g = Some r.
Proof. unfold Chunk_build, bind, lift, diffIsPrecise. intros Hf H. mono. Qed.

Lemma Chunk_updateA_mono wordChar now fuel fuel' a b conf chunks changes g r :
  (fuel <= fuel')%nat ->
  Chunk_updateA wordChar now fuel a b conf chunks changes g = Some r ->
  Chunk_updateA wordChar now fuel' a b conf chunks changes g = Some r.
Proof. unfold Chunk_updateA, bind, lift. intros Hf H. mono. Qed.

Lemma Chunk_updateB_mono wordChar now fuel fuel' a b conf chunks changes g r :
  (fuel <= fuel')%nat ->
  Chunk_updateB wordChar now fuel a b conf chunks changes g = Some r ->
  Chunk_updateB wordChar now fuel' a b conf chunks changes g = Some r.
Proof. unfold Chunk_updateB, bind, lift. intros Hf H. mono. Qed.

(** Two runs of [diff] that both return, return the same. *)
Lemma diff_fuel_irrelevant now fuel fuel' a b config g r r' :
  diff now fuel a b config g = Some r ->
  diff now fuel' a b config g = Some r' ->
  r = r'.
Proof.
  intros H H'. destruct (Nat.le_ge_cases fuel fuel') as [Hle|Hle].
  - apply (diff_mono _ _ _ _ _ Hle) in H. congruence.
  - apply (diff_mono _ _ _ _ _ Hle) in H'. congruence.
Qed.

(** The result, without the state, is kept as well. *)
Lemma result_mono {A} (f : nat -> option (A * Globals)) (fuel fuel' : nat) (x : A) :
  (forall r, f fuel = Some r -> f fuel' = Some r) ->
  result (f fuel) = Some x -> result (f fuel') = Some x.
Proof.
  unfold result. intros Hmono H.
  destruct (f fuel) as [[y g]|] eqn:E; [|discriminate].
  now rewrite (Hmono _ eq_refl).
Qed.

(** ** Traces

    The steps of the source on the inputs used below, as a reader of the
    source finds them by hand. *)

(** "hello world" and "hello there" share the prefix "hello " and no
    suffix; the seed "r" of "world" is found in "there", and to the left
    of it "wo" and "the" share nothing. *)
Example trace_hello :
  commonPrefix 10 hello_world 0 11 hello_there 0 11 = Some 6
  /\ commonSuffix 10 hello_world 6 11 hello_there 6 11 = Some 0
  /\ halfMatch 10 hello_world 6 11 hello_there 6 11 = Some (Some (8, 9, 1))
  /\ result (findSnake (fun _ => 0) 10 echo hello_world 6 8 hello_there 6 9 defaults)
     = Some [mkChange 6 8 6 9].
Proof. repeat split; vm_compute; reflexivity. Qed.

(** "a---b" and "c---d": the three dashes are the shared substring. *)
Example trace_dashes :
  halfMatch 10 dashes_ab 0 5 dashes_cd 0 5 = Some (Some (1, 1, 3))
  /\ result (findDiff_body (fun _ => 0) 10 echo dashes_ab 0 5 dashes_cd 0 5 defaults)
     = Some [mkChange 0 1 0 1; mkChange 4 5 4 5].
Proof. repeat split; vm_compute; reflexivity. Qed.

(** [smile] and [smile_q]: the cut after the shared high surrogate would
    split the pair of [smile], so no prefix and no suffix is taken off;
    [smile] does not occur in [smile_q]; [findSnake] meets at (2, 3), the far
    corner, and [bisect] recurses on the whole region and on the empty
    one. *)
Example trace_smile :
  commonPrefix 10 smile 0 2 smile_q 0 3 = Some 0
  /\ commonSuffix 10 smile 0 2 smile_q 0 3 = Some 0
  /\ indexOf (slice smile_q 0 3) (slice smile 0 2) 0 = -1
  /\ halfMatch 10 smile 0 2 smile_q 0 3 = Some None
  /\ result (findSnake (fun _ => 0) 10 echo smile 0 2 smile_q 0 3 defaults)
     = Some [mkChange 0 2 0 3; mkChange 2 2 3 3].
Proof. repeat split; vm_compute; reflexivity. Qed.

(** [lows] and [pairs]: the common suffix is the last low surrogate, which
    leaves [toB = 3] inside the second pair of [pairs]; [findSnake] meets at
    (1, 3), and [bisect] moves the cut of [b] to 4, past [toB]. *)
Example trace_lows :
  commonSuffix 10 lows 0 3 pairs 0 4 = Some 1
  /\ validIndex pairs 3 = false
  /\ result (findSnake (fun _ => 0) 10 echo lows 0 2 pairs 0 3 defaults)
     = Some [mkChange 0 1 0 4; mkChange 1 2 4 3].
Proof. repeat split; vm_compute; reflexivity. Qed.

(** [hi_x] and [pair]: the common prefix is the high surrogate; the cut at
    1 is a boundary of [hi_x], which is all that [commonPrefix] checks. *)
Example trace_hi_x :
  commonPrefix 10 hi_x 0 2 pair 0 2 = Some 1
  /\ validIndex hi_x 1 = true.
Proof. repeat split; vm_compute; reflexivity. Qed.

(** ** The worked examples *)

(** C5. [Chunk.build("line1\nline2\nline3", "line1\nlineX\nline3")] is
    exactly one chunk with [fromA = fromB = 6] and [toA = toB = 12]: the
    second line (offsets 6 to 11, and its line break) on both sides; the
    first line (0 to 5) and the third (12 to 17) are outside it.  Fuel 8 is
    enough, and more changes nothing. *)
Theorem build_second_line wordChar now g fuel :
  (8 <= fuel)%nat ->
  result (Chunk_build wordChar now fuel lines_2 lines_X noConfig g)
  = Some [Chunk.mk [mkChange 0 5 0 5] 6 12 6 12 true]
  /\ lineAt lines_2 0 = Some (mkLine 0 5) /\ lineAt lines_X 0 = Some (mkLine 0 5)
  /\ lineAt lines_2 6 = Some (mkLine 6 11) /\ lineAt lines_X 6 = Some (mkLine 6 11)
  /\ lineAt lines_2 12 = Some (mkLine 12 17) /\ lineAt lines_X 12 = Some (mkLine 12 17).
Proof.
  intros Hfuel. split; [|repeat split; vm_compute; reflexivity].
  apply (result_mono (fun n => Chunk_build wordChar now n lines_2 lines_X noConfig g) 8).
  - intros r. now apply Chunk_build_mono.
  - destruct g as [sl tm cr tk]. vm_compute. reflexivity.
Qed.

Lemma build_second_line_witness :
  result (Chunk_build None (fun _ => 0) 8 lines_2 lines_X noConfig initial)
  = Some [Chunk.mk [mkChange 0 5 0 5] 6 12 6 12 true]
  /\ lineAt lines_2 0 = Some (mkLine 0 5) /\ lineAt lines_X 0 = Some (mkLine 0 5)
  /\ lineAt lines_2 6 = Some (mkLine 6 11) /\ lineAt lines_X 6 = Some (mkLine 6 11)
  /\ lineAt lines_2 12 = Some (mkLine 12 17) /\ lineAt lines_X 12 = Some (mkLine 12 17).
Proof.
  apply (@build_second_line None (fun _ => 0) initial 8). lia.
Defined.

(** C8, as the code has it. [diff("hello world", "hello there")] keeps the
    shared "r": it returns two changes, "wo" (A 6 to 8) replaced by "the"
    (B 6 to 9) and "ld" (A 9 to 11) replaced by "e" (B 10 to 11).  Fuel 7 is
    enough, and more changes nothing. *)
Theorem diff_hello_two_changes now g fuel :
  (7 <= fuel)%nat ->
  result (diff now fuel hello_world hello_there noConfig g)
  = Some [mkChange 6 8 6 9; mkChange 9 11 10 11].
Proof.
  intros Hfuel.
  apply (result_mono (fun n => diff now n hello_world hello_there noConfig g) 7).
  - intros r. now apply diff_mono.
  - destruct g as [sl tm cr tk]. vm_compute. reflexivity.
Qed.

Lemma diff_hello_two_changes_witness :
  result (diff (fun _ => 0) 7 hello_world hello_there noConfig initial)
  = Some [mkChange 6 8 6 9; mkChange 9 11 10 11].
Proof.
  apply (@diff_hello_two_changes (fun _ => 0) initial 7). lia.
Defined.

(** C8, as stated, fails: the result is not the single change
    (6, 11, 6, 12); offset 12 is not even a position of "hello there",
    which has 11 units. *)
Lemma diff_hello_not_single :
  result (diff (fun _ => 0) 7 hello_world hello_there noConfig initial)
  <> Some [mkChange 6 11 6 12]
  /\ slen hello_there = 11.
Proof.
  split; [|reflexivity].
  vm_compute. discriminate.
Qed.

(** ** The final merge pass *)

Lemma mergeAdjacent_from_apart minGap rest :
  forall prev, allApart minGap (mergeAdjacent_from minGap prev rest).
Proof.
  induction rest as [|cur rest IH]; intros prev; simpl; [exact I|].
  destruct ((toA prev >? fromA cur - minGap) && (toB prev >? fromB cur - minGap)) eqn:E.
  - apply IH.
  - specialize (IH cur). simpl.
    destruct (mergeAdjacent_from minGap cur rest) as [|c l] eqn:El.
    + exact I.
    + assert (Hc : fromA c = fromA cur /\ fromB c = fromB cur).
      { clear - El. revert cur c l El.
        induction rest as [|n rest IH]; intros cur c l El; simpl in El.
        - inversion El; subst; auto.
        - destruct ((toA cur >? fromA n - minGap) && (toB cur >? fromB n - minGap)).
          + apply IH in El. simpl in El. exact El.
          + inversion El; subst; auto. }
      destruct Hc as [HA HB]. simpl. split; [|exact IH].
      rewrite HA, HB.
      apply andb_false_iff in E as [E|E]; rewrite Z.gtb_ltb, Z.ltb_ge in E; lia.
Qed.

Lemma mergeAdjacent_apart changes minGap : allApart minGap (mergeAdjacent changes minGap).
Proof.
  destruct changes as [|c rest]; simpl; [exact I | apply mergeAdjacent_from_apart].
Qed.

(** C7, as the code has it. The last step of [presentableDiff] is
    [mergeAdjacent(changes, 3)], which merges two neighbours when the gap
    between them is below 3 (at most 2) on both sides: in the list returned,
    every two consecutive changes are at least 3 units apart on the A side or
    on the B side. *)
Theorem presentableDiff_gaps wordChar fuel now (a b : str) config g changes g' :
  presentableDiff wordChar fuel now a b config g = Some (changes, g') ->
  allApart 3 changes.
Proof.
  unfold presentableDiff, bind, lift, makePresentable. intros H.
  destruct (diff now fuel a b config g) as [[raw g1]|]; [|discriminate].
  destruct (makePresentable_loop wordChar fuel a b 0 raw) as [l|]; [|discriminate].
  inversion H; subst. apply mergeAdjacent_apart.
Qed.

Lemma presentableDiff_gaps_witness :
  allApart 3 [mkChange 0 1 0 1; mkChange 4 5 4 5].
Proof.
  apply (@presentableDiff_gaps None 20 (fun _ => 0) dashes_ab dashes_cd noConfig
           initial _ defaults).
  vm_compute. reflexivity.
Defined.

(** C7, as stated, fails: [presentableDiff("a---b", "c---d")] returns two
    changes whose gap is exactly 3 units on both sides, and they are not
    merged. *)
Lemma presentableDiff_gap_three_kept :
  result (presentableDiff None 20 (fun _ => 0) dashes_ab dashes_cd noConfig initial)
  = Some [mkChange 0 1 0 1; mkChange 4 5 4 5]
  /\ 4 - 1 <= 3.
Proof.
  split; [vm_compute; reflexivity | lia].
Qed.

(** ** Surrogate pairs at the edge of the common prefix and suffix *)

(** C9 at a failing input. For "\uD83Dx" and "\uD83D\uDE00" the common
    prefix is the shared high surrogate; [commonPrefix] checks the cut against
    the pairs of [a] only, so the change starts at offset 1 of [b], between
    the two halves of its surrogate pair.  Fuel 3 is enough, and more changes
    nothing. *)
Theorem diff_cuts_pair_of_b now g fuel :
  (3 <= fuel)%nat ->
  result (diff now fuel hi_x pair noConfig g) = Some [mkChange 1 2 1 2]
  /\ validIndex pair 1 = false.
Proof.
  intros Hfuel. split; [|reflexivity].
  apply (result_mono (fun n => diff now n hi_x pair noConfig g) 3).
  - intros r. now apply diff_mono.
  - destruct g as [sl tm cr tk]. vm_compute. reflexivity.
Qed.

Lemma diff_cuts_pair_of_b_witness :
  result (diff (fun _ => 0) 3 hi_x pair noConfig initial)
  = Some [mkChange 1 2 1 2]
  /\ validIndex pair 1 = false.
Proof.
  apply (@diff_cuts_pair_of_b (fun _ => 0) initial 3). lia.
Defined.

(** C1 at a failing input. For three lone low surrogates against two whole
    pairs, the common suffix ends inside the last pair of [b]; [bisect] then
    moves the cut of [b] past the end of the range, and [diff] returns a
    second change with [fromB = 4 > toB = 3].  The changes are not ordered
    and disjoint, and patching [a] with them does not give [b].  Fuel 4 is
    enough, and more changes nothing. *)
Theorem diff_lone_surrogates_invalid now g fuel :
  (4 <= fuel)%nat ->
  let changes := [mkChange 0 0 0 3; mkChange 1 2 4 3] in
  result (diff now fuel lows pairs noConfig g) = Some changes
  /\ ordered 0 0 changes = false
  /\ patch lows pairs 0 changes <> pairs.
Proof.
  intros Hfuel changes. split; [|split; [reflexivity | vm_compute; discriminate]].
  apply (result_mono (fun n => diff now n lows pairs noConfig g) 4).
  - intros r. now apply diff_mono.
  - destruct g as [sl tm cr tk]. vm_compute. reflexivity.
Qed.

Lemma diff_lone_surrogates_invalid_witness :
  let changes := [mkChange 0 0 0 3; mkChange 1 2 4 3] in
  result (diff (fun _ => 0) 4 lows pairs noConfig initial) = Some changes
  /\ ordered 0 0 changes = false
  /\ patch lows pairs 0 changes <> pairs.
Proof.
  apply (@diff_lone_surrogates_invalid (fun _ => 0) initial 4). lia.
Defined.

(** The region that [findDiff] hands to [findSnake] for [smile] and
    [smile_q] is one insertion away from equal; the search meets at the far
    corner (2, 3), and [bisect] calls [findDiff] on the same region again,
    and then on the empty region behind it. *)
Lemma findDiff_body_calls_itself now fuel rec c t :
  (4 <= fuel)%nat ->
  findDiff_body now fuel rec smile 0 2 smile_q 0 3 (mkGlobals 500000000 0 c t)
  = (l1 <- rec smile 0 2 smile_q 0 3 ;;
     l2 <- rec smile 2 2 smile_q 3 3 ;;
     ret (l1 ++ l2)) (mkGlobals 500000000 0 c t).
Proof.
  intros Hfuel.
  do 4 (destruct fuel as [|fuel]; [lia|]).
  vm_compute. reflexivity.
Qed.

Lemma findDiff_body_stuck now fuel rec :
  (forall c t, rec smile 0 2 smile_q 0 3 (mkGlobals 500000000 0 c t) = None) ->
  forall c t,
    findDiff_body now fuel rec smile 0 2 smile_q 0 3 (mkGlobals 500000000 0 c t) = None.
Proof.
  intros Hrec c t.
  destruct (Nat.lt_ge_cases fuel 4) as [Hlt|Hge].
  - specialize (Hrec c t). vm_compute in Hrec.
    do 4 (destruct fuel as [|fuel]; [vm_compute; try rewrite Hrec; reflexivity|]). lia.
  - rewrite findDiff_body_calls_itself by exact Hge.
    unfold bind. now rewrite Hrec.
Qed.

Lemma findDiff_stuck now fuel n :
  forall c t, findDiff now fuel n smile 0 2 smile_q 0 3 (mkGlobals 500000000 0 c t) = None.
Proof.
  induction n as [|n IH]; intros c t; [reflexivity|].
  simpl. apply findDiff_body_stuck. exact IH.
Qed.

(** C3 at a failing input. For "\uD83D\uDE00" and "\uD83Dq\uDE00" no
    amount of fuel yields a result: [findDiff] calls itself on the same
    region without end (in the source the stack overflows), for [diff] and
    for [presentableDiff]. *)
Theorem diff_never_returns wordChar now fuel g :
  diff now fuel smile smile_q noConfig g = None
  /\ presentableDiff wordChar fuel now smile smile_q noConfig g = None.
Proof.
  assert (H : diff now fuel smile smile_q noConfig g = None).
  { unfold diff. simpl cfg_scanLimit. simpl cfg_timeout. cbv iota beta.
    change (sar32 1000000000 1) with 500000000.
    unfold bind. change (slen smile) with 2. change (slen smile_q) with 3.
    now rewrite findDiff_stuck. }
  split; [exact H|]. unfold presentableDiff, bind. now rewrite H.
Qed.

(** ** The hard ceiling of the effort budget *)

(** The module variables [scanLimit] and [timeout] are written by [diff]
    only: every other function leaves them as they are. *)

Lemma keeps_ret {A} (x : A) : keeps (ret x).
Proof. intros g y g' H. inversion H; subst; auto. Qed.

Lemma keeps_lift {A} (o : option A) : keeps (lift o).
Proof. intros g y g' H. unfold lift in H. destruct o; inversion H; subst; auto. Qed.

Lemma keeps_bind {A B} (m : M A) (k : A -> M B) :
  keeps m -> (forall x, keeps (k x)) -> keeps (bind m k).
Proof.
  intros Hm Hk g y g' H. unfold bind in H.
  destruct (m g) as [[x g1]|] eqn:E; [|discriminate].
  destruct (Hm _ _ _ E) as [H1 H2]. destruct (Hk x _ _ _ H) as [H3 H4].
  split; congruence.
Qed.

Lemma keeps_getScanLimit : keeps getScanLimit.
Proof. intros g y g' H. inversion H; subst; auto. Qed.

Lemma keeps_getTimeout : keeps getTimeout.
Proof. intros g y g' H. inversion H; subst; auto. Qed.

Lemma keeps_setCrude : keeps setCrude.
Proof. intros g y g' H. inversion H; subst; auto. Qed.

Lemma keeps_dateNow now : keeps (dateNow now).
Proof. intros g y g' H. inversion H; subst; auto. Qed.

Create HintDb keeps.
#[local] Hint Resolve keeps_ret keeps_lift keeps_getScanLimit keeps_getTimeout
  keeps_setCrude keeps_dateNow : keeps.

Ltac keeps_tac :=
  repeat first
    [ solve [auto with keeps]
    | apply keeps_bind; [|intros ?]
    | match goal with
      | |- keeps (if ?c then _ else _) => destruct c
      | |- keeps (match ?x with _ => _ end) => destruct x
      end ].

Lemma keeps_timedOut now : keeps (timedOut now).
Proof. unfold timedOut. keeps_tac. Qed.
#[local] Hint Resolve keeps_timedOut : keeps.

Lemma keeps_bisect rec a fromA toA splitA b fromB toB splitB :
  rec_keeps rec -> keeps (bisect rec a fromA toA splitA b fromB toB splitB).
Proof. unfold rec_keeps, bisect. intros Hrec. keeps_tac. Qed.
#[local] Hint Resolve keeps_bisect : keeps.

Lemma keeps_crudeMatch fuel rec a fromA toA b fromB toB :
  rec_keeps rec -> keeps (crudeMatch fuel rec a fromA toA b fromB toB).
Proof. unfold rec_keeps, crudeMatch. intros Hrec. keeps_tac. Qed.
#[local] Hint Resolve keeps_crudeMatch : keeps.

Lemma keeps_findSnake_loop now fuel rec n :
  rec_keeps rec ->
  forall a fromA toA b fromB toB off depth f1 f2,
    keeps (findSnake_loop now fuel rec n a fromA toA b fromB toB off depth f1 f2).
Proof.
  intros Hrec. induction n as [|n IH]; intros; simpl; keeps_tac.
Qed.
#[local] Hint Resolve keeps_findSnake_loop : keeps.

Lemma keeps_findSnake now fuel rec a fromA toA b fromB toB :
  rec_keeps rec -> keeps (findSnake now fuel rec a fromA toA b fromB toB).
Proof. unfold findSnake. intros Hrec. keeps_tac. Qed.
#[local] Hint Resolve keeps_findSnake : keeps.

Lemma keeps_findDiff_body now fuel rec a fromA toA b fromB toB :
  rec_keeps rec -> keeps (findDiff_body now fuel rec a fromA toA b fromB toB).
Proof. unfold findDiff_body. intros Hrec. keeps_tac. Qed.

Lemma keeps_findDiff now fuel n : rec_keeps (findDiff now fuel n).
Proof.
  induction n as [|n IH]; intros a fromA toA b fromB toB; simpl.
  - apply keeps_lift.
  - now apply keeps_findDiff_body.
Qed.

(** [diff] sets [scanLimit] to half the configured limit (half of 1e9 when
    none is configured), and nothing changes it until [diff] returns. *)
Lemma diff_scanLimit now fuel a b config g r g' :
  diff now fuel a b config g = Some (r, g') ->
  scanLimit g' = sar32 (match cfg_scanLimit config with
                        | Some s => s
                        | None => 1000000000
                        end) 1.
Proof.
  unfold diff. intros H.
  destruct (match cfg_timeout config with
            | Some t => if t =? 0 then (0, ticks g) else (now (ticks g) + t, S (ticks g))
            | None => (0, ticks g)
            end) as [tm tk].
  assert (K : keeps (changes <- findDiff now fuel fuel a 0 (slen a) b 0 (slen b) ;;
                     lift (normalize fuel a b changes))).
  { apply keeps_bind; [apply keeps_findDiff | intros; apply keeps_lift]. }
  apply K in H. simpl in H. tauto.
Qed.


Lemma toInt32_le (s : Z) : 0 <= s -> toInt32 s <= s.
Proof.
  intros Hs. unfold toInt32.
  pose proof (Z.mod_le (s + 2147483648) 4294967296 ltac:(lia) ltac:(lia)). lia.
Qed.

Lemma sar32_one_le (s : Z) : 0 <= s -> sar32 s 1 <= s.
Proof.
  intros Hs. unfold sar32. pose proof (toInt32_le Hs) as H.
  change (2 ^ 1) with 2.
  destruct (Z_lt_le_dec (toInt32 s) 0) as [Hneg|Hpos].
  - pose proof (Z.div_lt_upper_bound (toInt32 s) 2 0 ltac:(lia) ltac:(lia)). lia.
  - pose proof (Z.div_le_upper_bound (toInt32 s) 2 s ltac:(lia) ltac:(lia)). lia.
Qed.

(** C6. Let [s >= 0] be the configured [scanLimit], so that [diff] has set
    the module variable to [s >> 1].  When the budget is exceeded at the head
    of [findSnake] and the shorter side of the region is longer than
    [64 * s], [findSnake] returns the region as the single change
    [(fromA, toA, fromB, toB)]; [crudeMatch] is not run (the [crude] flag is
    left as it was). *)
Theorem findSnake_gives_up now fuel rec (a : str) fromA toA (b : str) fromB toB g (s : Z) :
  0 <= s ->
  scanLimit g = sar32 s 1 ->
  budgetExceeded now g (toA - fromA) (toB - fromB) = true ->
  Z.min (toA - fromA) (toB - fromB) > 64 * s ->
  exists g',
    findSnake now fuel rec a fromA toA b fromB toB g
    = Some ([mkChange fromA toA fromB toB], g')
    /\ crude g' = crude g /\ scanLimit g' = scanLimit g /\ timeout g' = timeout g.
Proof.
  intros Hs Hsl Hover Hlong.
  pose proof (sar32_one_le Hs) as Hle.
  assert (Hgt : (Z.min (toA - fromA) (toB - fromB) >? scanLimit g * 64) = true).
  { rewrite Z.gtb_ltb. apply Z.ltb_lt. rewrite Hsl. lia. }
  unfold budgetExceeded in Hover.
  unfold findSnake, bind, getScanLimit.
  destruct ((scanLimit g <? 1000000000)
            && (Z.min (toA - fromA) (toB - fromB) >? scanLimit g * 16)) eqn:E1.
  - unfold ret. rewrite Hgt. exists g. auto.
  - simpl in Hover. apply andb_true_iff in Hover as [Htm Hnow].
    unfold timedOut, bind, getTimeout. rewrite Htm.
    unfold dateNow, ret. rewrite Hnow. simpl scanLimit. rewrite Hgt.
    eexists. split; [reflexivity|]. simpl. auto.
Qed.

Lemma findSnake_gives_up_witness :
  exists g',
    findSnake (fun _ => 0) 0 (fun _ _ _ _ _ _ => ret []) [1; 2; 3] 0 3 [4; 5; 6] 0 3
              (mkGlobals 0 0 false 0)
    = Some ([mkChange 0 3 0 3], g')
    /\ crude g' = false /\ scanLimit g' = 0 /\ timeout g' = 0.
Proof.
  apply (@findSnake_gives_up (fun _ => 0) 0 (fun _ _ _ _ _ _ => ret []) [1; 2; 3] 0 3
           [4; 5; 6] 0 3 (mkGlobals 0 0 false 0) 0).
  - lia.
  - reflexivity.
  - reflexivity.
  - vm_compute. reflexivity.
Defined.

(** ** Incremental update against a full rebuild *)



Lemma findRanges_loop_whole fuel chunks changes (otherLen : Z) rs :
  0 <= otherLen ->
  Forall (wholeWindow changes) rs ->
  forall d,
    findRanges_loop fuel chunks changes false otherLen
      [Range.mk 0 otherLen 0 (desc_length changes) 0 d] rs
    = Some [Range.mk 0 otherLen 0 (desc_length changes) 0 (d + lengthDelta rs)].
Proof.
  intros Hother Hrs.
  induction Hrs as [|[[[cFromA cToA] cFromB] cToB] rs [H1 H2] _ IH]; intros d; simpl.
  - now rewrite Z.add_0_r.
  - unfold addRange.
    replace (cFromA >? updateMargin) with false
      by (symmetry; rewrite Z.gtb_ltb; apply Z.ltb_ge; lia).
    replace (cToA <? desc_length changes - updateMargin) with false
      by (symmetry; apply Z.ltb_ge; lia).
    simpl rev. cbv iota beta. simpl Range.toA.
    replace (otherLen >=? 0) with true by (symmetry; apply Z.geb_le; lia).
    simpl. rewrite IH. do 3 f_equal. lia.
Qed.

Lemma findRangesForChange_whole fuel chunks changes (otherLen : Z) :
  0 <= otherLen ->
  changedRanges changes <> [] ->
  Forall (wholeWindow changes) (changedRanges changes) ->
  findRangesForChange fuel chunks changes false otherLen
  = Some [Range.mk 0 otherLen 0 (desc_length changes) 0
                   (lengthDelta (changedRanges changes))].
Proof.
  intros Hother Hne Hrs. unfold findRangesForChange.
  destruct (changedRanges changes) as [|[[[cFromA cToA] cFromB] cToB] rs]; [congruence|].
  inversion Hrs as [|r rs' H12 Hrs']; subst. simpl in H12. destruct H12 as [H1 H2].
  simpl findRanges_loop.
  replace (cFromA >? updateMargin) with false
    by (symmetry; rewrite Z.gtb_ltb; apply Z.ltb_ge; lia).
  replace (cToA <? desc_length changes - updateMargin) with false
    by (symmetry; apply Z.ltb_ge; lia).
  rewrite findRanges_loop_whole by assumption. reflexivity.
Qed.

(** * Further properties *)

Unset Implicit Arguments.

(** ** 32-bit arithmetic *)

Lemma toInt32_small (z : Z) : -2147483648 <= z < 2147483648 -> toInt32 z = z.
Proof. intros H. unfold toInt32. rewrite Z.mod_small by lia. lia. Qed.

Lemma shl32_double (z : Z) : 0 <= z < 1073741824 -> shl32 z 1 = 2 * z.
Proof.
  intros H. unfold shl32. rewrite (toInt32_small z) by lia.
  change (2 ^ 1) with 2. rewrite toInt32_small by lia. lia.
Qed.

Lemma sar32_half (z : Z) : 0 <= z < 2147483648 -> sar32 z 1 = z / 2.
Proof. intros H. unfold sar32. rewrite toInt32_small by lia. reflexivity. Qed.

(** ** [chunkSize] *)

Lemma chunkSize_loop_pow (max : Z) (d : nat) : forall (k : Z) (fuel : nat),
  max <= 2 ^ 30 -> 0 <= k -> k + Z.of_nat d = 30 ->
  (k = 0 \/ 2 ^ (k - 1) < max) ->
  (d < fuel)%nat ->
  exists j, k <= j <= 30 /\ chunkSize_loop fuel (2 ^ k) max = Some (2 ^ j)
            /\ max <= 2 ^ j /\ (j = 0 \/ 2 ^ (j - 1) < max).
Proof.
  induction d as [|d IH]; intros k fuel Hmax Hk Hd Hprev Hfuel;
    (destruct fuel as [|fuel]; [lia|]); cbn [chunkSize_loop].
  - assert (k = 30) by lia. subst k.
    destruct (Z.ltb_spec (2 ^ 30) max); [lia|].
    exists 30. split; [lia|]. split; [reflexivity|]. split; [lia|exact Hprev].
  - destruct (Z.ltb_spec (2 ^ k) max) as [Hlt|Hge].
    + assert (Hpk : 0 < 2 ^ k) by (apply Z.pow_pos_nonneg; lia).
      assert (Hk30 : 2 ^ k < 2 ^ 30) by lia.
      rewrite shl32_double by (change (2 ^ 30) with 1073741824 in Hk30; lia).
      replace (2 * 2 ^ k) with (2 ^ (k + 1)) by (rewrite Z.pow_add_r by lia; lia).
      destruct (IH (k + 1) fuel) as (j & Hj & E & H1 & H2); try lia.
      { right. now replace (k + 1 - 1) with k by lia. }
      exists j. split; [lia|]. split; [exact E|]. split; assumption.
    + exists k. split; [lia|]. split; [reflexivity|]. split; [lia|exact Hprev].
Qed.

Lemma chunkSize_returns (fuel : nat) (lenA lenB : Z) :
  Z.min lenA lenB <= 2 ^ 30 -> (31 <= fuel)%nat ->
  exists j, 0 <= j <= 30 /\ chunkSize fuel lenA lenB = Some (2 ^ j).
Proof.
  intros Hmax Hfuel. unfold chunkSize. change 1 with (2 ^ 0).
  destruct (@chunkSize_loop_pow (Z.min lenA lenB) 30 0 fuel) as (j & Hj & E & _);
    auto; try lia.
  exists j. split; [exact Hj | exact E].
Qed.

(** X1. When the shorter of the two lengths is at most 2^30, chunkSize(lenA,
    lenB) returns the least power of two that is not below it (1 when it is
    below 1). *)
Theorem chunkSize_power_of_two (fuel : nat) (lenA lenB : Z) :
  Z.min lenA lenB <= 2 ^ 30 -> (31 <= fuel)%nat ->
  exists j, 0 <= j <= 30 /\ chunkSize fuel lenA lenB = Some (2 ^ j)
            /\ Z.min lenA lenB <= 2 ^ j
            /\ (j = 0 \/ 2 ^ (j - 1) < Z.min lenA lenB).
Proof.
  intros Hmax Hfuel. unfold chunkSize. change 1 with (2 ^ 0).
  apply (@chunkSize_loop_pow (Z.min lenA lenB) 30 0 fuel); auto; lia.
Qed.

Lemma chunkSize_power_of_two_witness :
  exists j, 0 <= j <= 30 /\ chunkSize 31 5 9 = Some (2 ^ j)
            /\ Z.min 5 9 <= 2 ^ j
            /\ (j = 0 \/ 2 ^ (j - 1) < Z.min 5 9).
Proof.
  apply (chunkSize_power_of_two 31 5 9); [vm_compute; discriminate | lia].
Defined.

Lemma chunkSize_loop_zero (max : Z) (fuel : nat) :
  0 < max -> chunkSize_loop fuel 0 max = None.
Proof.
  intros Hmax. induction fuel as [|fuel IH]; cbn [chunkSize_loop]; [reflexivity|].
  destruct (Z.ltb_spec 0 max); [|lia]. exact IH.
Qed.

(** X2. When both lengths exceed 2^30, the loop of chunkSize never ends:
    size << 1 wraps around as a 32-bit integer and reaches 0, which stays
    below the maximum. The model returns no result, whatever the fuel. *)
Theorem chunkSize_never_returns (fuel : nat) (lenA lenB : Z) :
  2 ^ 30 < Z.min lenA lenB -> chunkSize fuel lenA lenB = None.
Proof.
  intros Hmax. unfold chunkSize. set (max := Z.min lenA lenB) in *.
  change (2 ^ 30) with 1073741824 in Hmax.
  do 32 (destruct fuel as [|fuel]; [reflexivity|];
         cbn [chunkSize_loop];
         match goal with
         | |- context [?s <? max] => destruct (Z.ltb_spec s max); [|lia]
         end;
         match goal with
         | |- context [shl32 ?s 1] =>
             let v := eval vm_compute in (shl32 s 1) in
             change (shl32 s 1) with v
         end).
  apply chunkSize_loop_zero. lia.
Qed.

Lemma chunkSize_never_returns_witness :
  chunkSize 100 1073741825 1073741830 = None.
Proof.
  apply (chunkSize_never_returns 100 1073741825 1073741830). reflexivity.
Defined.

(** ** Line breaks *)

Lemma findLineBreakAfter_loop_spec (s : str) (stop : Z) (n : nat) : forall pos,
  pos <= stop -> (Z.to_nat (stop - pos) < n)%nat ->
  exists r, findLineBreakAfter_loop n s pos stop = Some r
    /\ ((r = -1 /\ forall i, pos <= i < stop -> code_is (charCodeAt s i) 10 = false)
        \/ (pos <= r < stop /\ code_is (charCodeAt s r) 10 = true
            /\ forall i, pos <= i < r -> code_is (charCodeAt s i) 10 = false)).
Proof.
  induction n as [|n IH]; intros pos Hle Hn; [lia|]. cbn [findLineBreakAfter_loop].
  destruct (Z.eqb_spec pos stop) as [->|Hne].
  - exists (-1). split; [reflexivity|]. left. split; [reflexivity|]. intros i Hi. lia.
  - destruct (code_is (charCodeAt s pos) 10) eqn:Ec.
    + exists pos. split; [reflexivity|]. right. split; [lia|]. split; [exact Ec|].
      intros i Hi. lia.
    + destruct (IH (pos + 1)) as (r & Er & Hr); [lia|lia|].
      exists r. split; [exact Er|].
      destruct Hr as [[-> Hall]|(Hb & Hc & Hall)].
      * left. split; [reflexivity|]. intros i Hi.
        destruct (Z.eq_dec i pos) as [->|]; [exact Ec|apply Hall; lia].
      * right. split; [lia|]. split; [exact Hc|]. intros i Hi.
        destruct (Z.eq_dec i pos) as [->|]; [exact Ec|apply Hall; lia].
Qed.

Lemma findLineBreakBefore_loop_spec (s : str) (stop : Z) (n : nat) : forall pos,
  stop <= pos -> (Z.to_nat (pos - stop) < n)%nat ->
  exists r, findLineBreakBefore_loop n s pos stop = Some r
    /\ ((r = -1 /\ forall i, stop < i <= pos -> code_is (charCodeAt s (i - 1)) 10 = false)
        \/ (stop < r <= pos /\ code_is (charCodeAt s (r - 1)) 10 = true
            /\ forall i, r < i <= pos -> code_is (charCodeAt s (i - 1)) 10 = false)).
Proof.
  induction n as [|n IH]; intros pos Hle Hn; [lia|]. cbn [findLineBreakBefore_loop].
  destruct (Z.eqb_spec pos stop) as [->|Hne].
  - exists (-1). split; [reflexivity|]. left. split; [reflexivity|]. intros i Hi. lia.
  - destruct (code_is (charCodeAt s (pos - 1)) 10) eqn:Ec.
    + exists pos. split; [reflexivity|]. right. split; [lia|]. split; [exact Ec|].
      intros i Hi. lia.
    + destruct (IH (pos - 1)) as (r & Er & Hr); [lia|lia|].
      exists r. split; [exact Er|].
      destruct Hr as [[-> Hall]|(Hb & Hc & Hall)].
      * left. split; [reflexivity|]. intros i Hi.
        destruct (Z.eq_dec i pos) as [->|]; [exact Ec|apply Hall; lia].
      * right. split; [lia|]. split; [exact Hc|]. intros i Hi.
        destruct (Z.eq_dec i pos) as [->|]; [exact Ec|apply Hall; lia].
Qed.

(** X3. For from <= to, findLineBreakAfter(s, from, to) returns the position
    of the first line break at from <= i < to, and findLineBreakBefore(s,
    to, from) the position just after the last line break of that stretch;
    each returns -1 when the stretch holds no line break. *)
Theorem findLineBreak_first_and_last (fuel : nat) (s : str) (from to : Z) :
  from <= to -> (Z.to_nat (to - from) < fuel)%nat ->
  (exists r, findLineBreakAfter fuel s from to = Some r
     /\ ((r = -1 /\ forall i, from <= i < to -> code_is (charCodeAt s i) 10 = false)
         \/ (from <= r < to /\ code_is (charCodeAt s r) 10 = true
             /\ forall i, from <= i < r -> code_is (charCodeAt s i) 10 = false)))
  /\ (exists r, findLineBreakBefore fuel s to from = Some r
     /\ ((r = -1 /\ forall i, from < i <= to -> code_is (charCodeAt s (i - 1)) 10 = false)
         \/ (from < r <= to /\ code_is (charCodeAt s (r - 1)) 10 = true
             /\ forall i, r < i <= to -> code_is (charCodeAt s (i - 1)) 10 = false))).
Proof.
  intros Hle Hfuel. split.
  - now apply findLineBreakAfter_loop_spec.
  - now apply findLineBreakBefore_loop_spec.
Qed.

Lemma findLineBreak_first_and_last_witness :
  let s := [97; 10; 98; 10; 99] in
  (exists r, findLineBreakAfter 6 s 0 5 = Some r
     /\ ((r = -1 /\ forall i, 0 <= i < 5 -> code_is (charCodeAt s i) 10 = false)
         \/ (0 <= r < 5 /\ code_is (charCodeAt s r) 10 = true
             /\ forall i, 0 <= i < r -> code_is (charCodeAt s i) 10 = false)))
  /\ (exists r, findLineBreakBefore 6 s 5 0 = Some r
     /\ ((r = -1 /\ forall i, 0 < i <= 5 -> code_is (charCodeAt s (i - 1)) 10 = false)
         \/ (0 < r <= 5 /\ code_is (charCodeAt s (r - 1)) 10 = true
             /\ forall i, r < i <= 5 -> code_is (charCodeAt s (i - 1)) 10 = false))).
Proof.
  intro s. apply (findLineBreak_first_and_last 6 s 0 5); [lia | simpl; lia].
Defined.

(** ** Word boundaries *)

Lemma wordCharAfter_range wordChar (s : str) (pos : Z) :
  0 <= wordCharAfter wordChar s pos <= 2.
Proof.
  unfold wordCharAfter.
  repeat match goal with
         | |- context [if ?c then _ else _] => destruct c
         | |- context [match ?x with _ => _ end] => destruct x
         end; lia.
Qed.

Lemma wordCharBefore_range wordChar (s : str) (pos : Z) :
  0 <= wordCharBefore wordChar s pos <= 2.
Proof.
  unfold wordCharBefore.
  repeat match goal with
         | |- context [if ?c then _ else _] => destruct c
         | |- context [match ?x with _ => _ end] => destruct x
         end; lia.
Qed.

Lemma wordBoundaryAfter_loop_bounds wordChar (s : str) (pos end_ : Z) (i : nat) :
  forall cur, pos <= cur <= end_ ->
  pos <= wordBoundaryAfter_loop wordChar i s pos end_ cur <= end_.
Proof.
  induction i as [|i IH]; intros cur Hc; cbn [wordBoundaryAfter_loop]; [lia|].
  pose proof (wordCharAfter_range wordChar s cur).
  destruct (Z.eqb_spec (wordCharAfter wordChar s cur) 0); cbn [orb]; [lia|].
  destruct (Z.gtb_spec (cur + wordCharAfter wordChar s cur) end_); [lia|].
  apply IH. lia.
Qed.

Lemma wordBoundaryBefore_loop_bounds wordChar (s : str) (pos end_ : Z) (i : nat) :
  forall cur, end_ <= cur <= pos ->
  end_ <= wordBoundaryBefore_loop wordChar i s pos end_ cur <= pos.
Proof.
  induction i as [|i IH]; intros cur Hc; cbn [wordBoundaryBefore_loop]; [lia|].
  pose proof (wordCharBefore_range wordChar s cur).
  destruct (Z.eqb_spec (wordCharBefore wordChar s cur) 0); cbn [orb]; [lia|].
  destruct (Z.ltb_spec (cur - wordCharBefore wordChar s cur) end_); [lia|].
  apply IH. lia.
Qed.

Lemma findWordBoundaryAfter_bounds wordChar (s : str) (pos max : Z) :
  0 <= max -> pos <= findWordBoundaryAfter wordChar s pos max <= pos + max.
Proof.
  intros Hmax. unfold findWordBoundaryAfter.
  destruct ((pos =? slen s) || (wordCharBefore wordChar s pos =? 0)); [lia|].
  apply wordBoundaryAfter_loop_bounds. lia.
Qed.

Lemma findWordBoundaryBefore_bounds wordChar (s : str) (pos max : Z) :
  0 <= max -> pos - max <= findWordBoundaryBefore wordChar s pos max <= pos.
Proof.
  intros Hmax. unfold findWordBoundaryBefore.
  destruct ((pos =? 0) || (wordCharAfter wordChar s pos =? 0)); [lia|].
  apply wordBoundaryBefore_loop_bounds. lia.
Qed.

(** X4. For max >= 0, findWordBoundaryAfter(s, pos, max) returns a position
    from pos to pos + max and findWordBoundaryBefore(s, pos, max) a position
    from pos - max to pos, for every string, position and word-character
    test. *)
Theorem findWordBoundary_within (wordChar : option (str -> bool)) (s : str) (pos max : Z) :
  0 <= max ->
  pos <= findWordBoundaryAfter wordChar s pos max <= pos + max
  /\ pos - max <= findWordBoundaryBefore wordChar s pos max <= pos.
Proof.
  intros Hmax. split.
  - now apply findWordBoundaryAfter_bounds.
  - now apply findWordBoundaryBefore_bounds.
Qed.

Lemma findWordBoundary_within_witness :
  3 <= findWordBoundaryAfter None hello_world 3 5 <= 3 + 5
  /\ 3 - 5 <= findWordBoundaryBefore None hello_world 3 5 <= 3.
Proof.
  apply (findWordBoundary_within None hello_world 3 5). lia.
Defined.

(** ** [mergeAdjacent] *)

Lemma mergeAdjacent_from_fixed minGap rest : forall prev,
  apart minGap prev rest -> mergeAdjacent_from minGap prev rest = prev :: rest.
Proof.
  induction rest as [|cur rest IH]; intros prev Hap; cbn [mergeAdjacent_from];
    [reflexivity|].
  cbn [apart] in Hap. destruct Hap as [Hgap Hap].
  destruct (Z.gtb_spec (toA prev) (fromA cur - minGap));
    destruct (Z.gtb_spec (toB prev) (fromB cur - minGap)); cbn [andb];
    try (rewrite IH by assumption; reflexivity).
  lia.
Qed.

Lemma mergeAdjacent_fixed changes minGap :
  allApart minGap changes -> mergeAdjacent changes minGap = changes.
Proof.
  destruct changes as [|c rest]; cbn; [reflexivity|]. apply mergeAdjacent_from_fixed.
Qed.

(** ** Slices *)

Lemma slen_nonneg (s : str) : 0 <= slen s.
Proof. unfold slen. lia. Qed.

Lemma slice_range (s : str) (p q : Z) :
  0 <= p <= q -> q <= slen s ->
  slice s p q = firstn (Z.to_nat (q - p)) (skipn (Z.to_nat p) s).
Proof.
  intros H1 H2. unfold slice, clampIndex.
  destruct (Z.ltb_spec p 0); [lia|]. destruct (Z.ltb_spec q 0); [lia|].
  rewrite !Z.min_l by lia. reflexivity.
Qed.

Lemma slice_length (s : str) (p q : Z) :
  0 <= p <= q -> q <= slen s -> slen (slice s p q) = q - p.
Proof.
  intros H1 H2. rewrite slice_range by assumption. unfold slen in *.
  rewrite length_firstn, length_skipn. lia.
Qed.

Lemma charCodeAt_slice (s : str) (p q i : Z) :
  0 <= p <= q -> q <= slen s -> 0 <= i < q - p ->
  charCodeAt (slice s p q) i = charCodeAt s (p + i).
Proof.
  intros H1 H2 Hi. rewrite slice_range by assumption. unfold charCodeAt.
  destruct (Z.ltb_spec i 0); [lia|]. destruct (Z.ltb_spec (p + i) 0); [lia|].
  rewrite nth_error_firstn.
  destruct (Nat.ltb_spec (Z.to_nat i) (Z.to_nat (q - p))); [|lia].
  rewrite nth_error_skipn. f_equal. lia.
Qed.



Lemma str_ext (s t : str) :
  slen s = slen t -> (forall i, 0 <= i < slen s -> charCodeAt s i = charCodeAt t i) ->
  s = t.
Proof.
  revert t. induction s as [|x s IH]; intros [|y t] Hl Hn; try reflexivity;
    try (unfold slen in Hl; cbn in Hl; lia).
  f_equal.
  - specialize (Hn 0). unfold charCodeAt, slen in Hn. cbn in Hn.
    assert (Some x = Some y) by (apply Hn; lia). congruence.
  - apply IH; [unfold slen in *; cbn [length] in Hl; lia|].
    intros i Hi. specialize (Hn (i + 1)). unfold charCodeAt, slen in *.
    cbn [length] in Hn.
    destruct (Z.ltb_spec (i + 1) 0); [lia|]. destruct (Z.ltb_spec i 0); [lia|].
    replace (Z.to_nat (i + 1)) with (S (Z.to_nat i)) in Hn by lia. cbn in Hn.
    apply Hn. lia.
Qed.

Lemma slice_eq_same (a b : str) (p q n : Z) :
  0 <= p -> 0 <= q -> 0 <= n -> p + n <= slen a -> q + n <= slen b ->
  (slice a p (p + n) = slice b q (q + n) <-> same a b p q n).
Proof.
  intros Hp Hq Hn Ha Hb. split.
  - intros E i Hi.
    rewrite <- (charCodeAt_slice a p (p + n)) by lia.
    rewrite <- (charCodeAt_slice b q (q + n)) by lia. now rewrite E.
  - intros Hs. apply str_ext.
    + rewrite !slice_length by lia. lia.
    + intros i Hi. rewrite slice_length in Hi by lia.
      rewrite !charCodeAt_slice by lia. apply Hs. lia.
Qed.

Lemma str_eqb_same (a b : str) (p q n : Z) :
  0 <= p -> 0 <= q -> 0 <= n -> p + n <= slen a -> q + n <= slen b ->
  (str_eqb (slice a p (p + n)) (slice b q (q + n)) = true <-> same a b p q n).
Proof.
  intros. rewrite str_eqb_eq. now apply slice_eq_same.
Qed.

Lemma same_nil (a b : str) (p q n : Z) : n <= 0 -> same a b p q n.
Proof. intros H i Hi. lia. Qed.

Lemma same_app (a b : str) (p q n m : Z) :
  0 <= n -> same a b p q n -> same a b (p + n) (q + n) m -> same a b p q (n + m).
Proof.
  intros Hn H1 H2 i Hi. destruct (Z.lt_ge_cases i n).
  - apply H1. lia.
  - replace (p + i) with (p + n + (i - n)) by lia.
    replace (q + i) with (q + n + (i - n)) by lia. apply H2. lia.
Qed.

Lemma same_sub (a b : str) (p q n k m : Z) :
  same a b p q n -> 0 <= k -> k + m <= n -> same a b (p + k) (q + k) m.
Proof.
  intros H Hk Hm i Hi. replace (p + k + i) with (p + (k + i)) by lia.
  replace (q + k + i) with (q + (k + i)) by lia. apply H. lia.
Qed.

Lemma same_sym (a b : str) (p q n : Z) : same a b p q n -> same b a q p n.
Proof. intros H i Hi. symmetry. now apply H. Qed.

Lemma same_trans (a b c : str) (p q r n : Z) :
  same a b p q n -> same b c q r n -> same a c p r n.
Proof. intros H1 H2 i Hi. rewrite H1 by assumption. now apply H2. Qed.

Lemma same_refl (a : str) (p n : Z) : same a a p p n.
Proof. intros i Hi. reflexivity. Qed.

(** ** Edit scripts *)

Lemma edits_bounds (a b : str) (changes : list Change) : forall pA pB,
  edits a b pA pB changes -> 0 <= pA <= slen a /\ 0 <= pB <= slen b.
Proof.
  induction changes as [|c rest IH]; intros pA pB H; cbn [edits] in H.
  - lia.
  - destruct H as (HA & HB & HcA & HcB & _ & _ & Hrest). apply IH in Hrest. lia.
Qed.

Lemma slice_app (s : str) (p q r : Z) :
  0 <= p <= q -> q <= r -> r <= slen s -> slice s p q ++ slice s q r = slice s p r.
Proof.
  intros H1 H2 H3. apply str_ext.
  - unfold slen at 1. rewrite length_app, Nat2Z.inj_add. fold (slen (slice s p q)).
    fold (slen (slice s q r)). rewrite !slice_length by lia. lia.
  - intros i Hi.
    assert (Hl : slen (slice s p q ++ slice s q r) = r - p).
    { unfold slen at 1. rewrite length_app, Nat2Z.inj_add. fold (slen (slice s p q)).
      fold (slen (slice s q r)). rewrite !slice_length by lia. lia. }
    rewrite Hl in Hi. rewrite (charCodeAt_slice s p r) by lia.
    unfold charCodeAt at 1. destruct (Z.ltb_spec i 0); [lia|].
    pose proof (slice_length s p q ltac:(lia) ltac:(lia)) as Hpq. unfold slen in Hpq.
    destruct (Z.lt_ge_cases i (q - p)).
    + rewrite nth_error_app1 by lia.
      pose proof (charCodeAt_slice s p q i ltac:(lia) ltac:(lia) ltac:(lia)) as E.
      unfold charCodeAt at 1 in E. destruct (Z.ltb_spec i 0); [lia|]. exact E.
    + rewrite nth_error_app2 by lia.
      pose proof (charCodeAt_slice s q r (i - (q - p)) ltac:(lia) ltac:(lia) ltac:(lia))
        as E.
      unfold charCodeAt at 1 in E. destruct (Z.ltb_spec (i - (q - p)) 0); [lia|].
      replace (Z.to_nat i - length (slice s p q))%nat with (Z.to_nat (i - (q - p))) by lia.
      rewrite E. f_equal. lia.
Qed.

Lemma same_slices (a b : str) (p p' q q' : Z) :
  0 <= p <= p' -> p' <= slen a -> 0 <= q -> q' <= slen b -> p' - p = q' - q ->
  same a b p q (p' - p) -> slice a p p' = slice b q q'.
Proof.
  intros H1 H2 H3 H4 H5 Hs.
  replace p' with (p + (p' - p)) by lia. replace q' with (q + (p' - p)) by lia.
  apply slice_eq_same; try lia. exact Hs.
Qed.

Lemma edits_patch (a b : str) (changes : list Change) : forall pA pB,
  edits a b pA pB changes -> patch a b pA changes = sliceFrom b pB.
Proof.
  induction changes as [|c rest IH]; intros pA pB H; cbn [edits patch] in *.
  - destruct H as (HA & HB & Hl & Hs). unfold sliceFrom.
    apply same_slices; try lia. exact Hs.
  - destruct H as (HA & HB & HcA & HcB & Hg & Hs & Hrest).
    pose proof (edits_bounds _ _ _ _ _ Hrest) as [HtA HtB].
    rewrite (IH _ _ Hrest). unfold sliceFrom.
    replace (slice a pA (fromA c)) with (slice b pB (fromB c)).
    + rewrite slice_app by lia. rewrite slice_app by lia. reflexivity.
    + symmetry. apply same_slices; try lia. exact Hs.
Qed.

Lemma sliceFrom_zero (s : str) : sliceFrom s 0 = s.
Proof.
  unfold sliceFrom. rewrite slice_range by (pose proof (slen_nonneg s); lia).
  cbn [Z.to_nat skipn]. rewrite Z.sub_0_r. unfold slen. rewrite Nat2Z.id.
  apply firstn_all.
Qed.

(** ** Plain strings *)

Lemma charCodeAt_In (s : str) (i c : Z) : charCodeAt s i = Some c -> In c s.
Proof.
  unfold charCodeAt. destruct (i <? 0); [discriminate|]. apply nth_error_In.
Qed.

Lemma noPairs_plain (s : str) :
  forallb (fun c => negb (isSurrogate1 c)) s = true -> noPairs s.
Proof.
  intros H i. unfold validIndex.
  destruct (charCodeAt s (i - 1)) as [c|] eqn:Ec.
  - rewrite forallb_forall in H. apply charCodeAt_In in Ec. apply H in Ec.
    cbn [opt_test]. rewrite Ec. now rewrite orb_true_r.
  - cbn [opt_test negb]. now rewrite orb_true_r.
Qed.

Lemma noBreaks_plain (s : str) :
  forallb (fun c => negb (c =? 10)) s = true -> noBreaks s.
Proof.
  intros H i. unfold code_is.
  destruct (charCodeAt s i) as [c|] eqn:Ec; [|reflexivity].
  rewrite forallb_forall in H. apply charCodeAt_In in Ec. apply H in Ec.
  now apply negb_true_iff in Ec.
Qed.

Lemma same_computed (a b : str) (p q n : Z) :
  0 <= p -> 0 <= q -> 0 <= n -> p + n <= slen a -> q + n <= slen b ->
  str_eqb (slice a p (p + n)) (slice b q (q + n)) = true -> same a b p q n.
Proof. intros. apply str_eqb_same; assumption. Qed.

Ltac same_by_computation :=
  apply same_computed; [vm_compute; discriminate .. | vm_compute; reflexivity].

Ltac edits_by_computation :=
  cbn [edits editsIn fromA toA fromB toB];
  repeat match goal with
         | |- _ /\ _ => split
         | |- same _ _ _ _ _ => same_by_computation
         | |- _ <= _ <= _ => split
         | |- _ <= _ => vm_compute; discriminate
         | |- _ = _ => vm_compute; reflexivity
         end.

(** ** [chunkSize] again *)

Lemma chunkSize_loop_wrapped (max : Z) (fuel : nat) :
  2 ^ 30 < max -> chunkSize_loop fuel (-2147483648) max = None.
Proof.
  intros Hmax. change (2 ^ 30) with 1073741824 in Hmax.
  destruct fuel as [|fuel]; [reflexivity|]. cbn [chunkSize_loop].
  destruct (Z.ltb_spec (-2147483648) max); [|lia].
  change (shl32 (-2147483648) 1) with 0. apply chunkSize_loop_zero. lia.
Qed.

Lemma chunkSize_loop_range (max : Z) (fuel : nat) : forall k c,
  0 <= k <= 30 -> chunkSize_loop fuel (2 ^ k) max = Some c ->
  exists j, k <= j <= 30 /\ c = 2 ^ j.
Proof.
  induction fuel as [|fuel IH]; intros k c Hk E; cbn [chunkSize_loop] in E; [discriminate|].
  destruct (Z.ltb_spec (2 ^ k) max) as [Hlt|Hge].
  - destruct (Z.eq_dec k 30) as [->|Hne].
    + change (shl32 (2 ^ 30) 1) with (-2147483648) in E.
      rewrite chunkSize_loop_wrapped in E by exact Hlt. discriminate.
    + assert (Hpk : 0 < 2 ^ k) by (apply Z.pow_pos_nonneg; lia).
      assert (Hk29 : 2 ^ k <= 2 ^ 29) by (apply Z.pow_le_mono_r; lia).
      rewrite shl32_double in E by (change (2 ^ 29) with 536870912 in Hk29; lia).
      replace (2 * 2 ^ k) with (2 ^ (k + 1)) in E by (rewrite Z.pow_add_r by lia; lia).
      apply IH in E; [|lia]. destruct E as (j & Hj & ->). exists j. split; [lia|reflexivity].
  - inversion E; subst. exists k. split; [lia|reflexivity].
Qed.

Lemma chunkSize_range (fuel : nat) (lenA lenB c : Z) :
  chunkSize fuel lenA lenB = Some c -> exists j, 0 <= j <= 30 /\ c = 2 ^ j.
Proof.
  unfold chunkSize. change 1 with (2 ^ 0). intros E.
  apply chunkSize_loop_range in E; [exact E|lia].
Qed.

Lemma pow2_one (k : Z) : 0 <= k -> (2 ^ k =? 1) = (k =? 0).
Proof.
  intros Hk. destruct (Z.eqb_spec k 0) as [->|Hne]; [reflexivity|].
  apply Z.eqb_neq. assert (2 ^ 1 <= 2 ^ k) by (apply Z.pow_le_mono_r; lia).
  change (2 ^ 1) with 2 in H. lia.
Qed.

Lemma sar32_pow2 (k : Z) : 1 <= k <= 30 -> sar32 (2 ^ k) 1 = 2 ^ (k - 1).
Proof.
  intros Hk. assert (2 ^ k <= 2 ^ 30) by (apply Z.pow_le_mono_r; lia).
  assert (0 < 2 ^ k) by (apply Z.pow_pos_nonneg; lia).
  rewrite sar32_half by (change (2 ^ 30) with 1073741824 in H; lia).
  replace k with (k - 1 + 1) at 1 by lia. rewrite Z.pow_add_r by lia.
  change (2 ^ 1) with 2. rewrite Z.div_mul by lia. reflexivity.
Qed.

(** ** One unit *)

Lemma unit_differs (a b : str) (p q : Z) :
  0 <= p -> p + 1 <= slen a -> 0 <= q -> q + 1 <= slen b ->
  str_eqb (slice a p (p + 1)) (slice b q (q + 1)) = false ->
  code_eq (charCodeAt a p) (charCodeAt b q) = false.
Proof.
  intros Hp Ha Hq Hb E.
  destruct (code_eq (charCodeAt a p) (charCodeAt b q)) eqn:Ec; [|reflexivity].
  exfalso. unfold code_eq in Ec.
  destruct (charCodeAt a p) as [x|] eqn:Ex; [|discriminate].
  destruct (charCodeAt b q) as [y|] eqn:Ey; [|discriminate].
  apply Z.eqb_eq in Ec. subst y.
  assert (Hs : same a b p q 1).
  { intros i Hi. assert (i = 0) by lia. subst i. rewrite !Z.add_0_r. congruence. }
  apply str_eqb_same in Hs; try lia. congruence.
Qed.

Lemma code_eq_same (a b : str) (p q : Z) :
  code_eq (charCodeAt a p) (charCodeAt b q) = true -> same a b p q 1.
Proof.
  intros Ec i Hi. assert (i = 0) by lia. subst i. rewrite !Z.add_0_r.
  unfold code_eq in Ec.
  destruct (charCodeAt a p) as [x|]; [|discriminate].
  destruct (charCodeAt b q) as [y|]; [|discriminate].
  apply Z.eqb_eq in Ec. now subst.
Qed.

(** ** [commonPrefix] *)

Section Prefix.
Variables (a : str) (fromA toA : Z) (b : str) (fromB toB : Z).
Hypothesis HA : 0 <= fromA <= toA /\ toA <= slen a.
Hypothesis HB : 0 <= fromB <= toB /\ toB <= slen b.

Lemma commonPrefix_loop_sound (fuel : nat) : forall k pA pB p,
  0 <= k <= 30 ->
  fromA <= pA <= toA -> pB = fromB + (pA - fromA) -> pB <= toB ->
  same a b fromA fromB (pA - fromA) ->
  commonPrefix_loop fuel a fromA toA b fromB toB (2 ^ k) pA pB = Some p ->
  exists q, pA - fromA <= q /\ q <= toA - fromA /\ q <= toB - fromB
            /\ same a b fromA fromB q
            /\ prefixEnds a fromA toA b fromB toB q
            /\ (p = q \/ (p = q - 1 /\ validIndex a (fromA + q) = false)).
Proof.
  induction fuel as [|fuel IH]; intros k pA pB p Hk HpA HpB HpB' Hs E;
    cbn [commonPrefix_loop] in E; [discriminate|].
  assert (Hc : 1 <= 2 ^ k) by (pose proof (Z.pow_pos_nonneg 2 k); lia).
  destruct (Z.gtb_spec (pA + 2 ^ k) toA) as [HeA|HeA];
    [|destruct (Z.gtb_spec (pB + 2 ^ k) toB) as [HeB|HeB];
      [|destruct (str_eqb (slice a pA (pA + 2 ^ k)) (slice b pB (pB + 2 ^ k))) eqn:Eq]];
    cbn [orb negb] in E.
  3:{ (* the chunk matches *)
      apply str_eqb_same in Eq; try lia.
      assert (Hs' : same a b fromA fromB (pA + 2 ^ k - fromA)).
      { replace (pA + 2 ^ k - fromA) with (pA - fromA + 2 ^ k) by lia.
        apply same_app; [lia|exact Hs|].
        replace (fromA + (pA - fromA)) with pA by lia.
        replace (fromB + (pA - fromA)) with pB by lia. exact Eq. }
      destruct ((pA + 2 ^ k =? toA) || (pB + 2 ^ k =? toB)) eqn:Eend.
      - inversion E; subst p. exists (pA + 2 ^ k - fromA).
        split; [lia|]. split; [lia|]. split; [lia|]. split; [exact Hs'|].
        split; [|left; reflexivity].
        apply orb_true_iff in Eend. unfold prefixEnds. rewrite !Z.eqb_eq in Eend. lia.
      - apply IH in E; try lia; auto.
        destruct E as (q & Hq1 & Hq). exists q. split; [lia|exact Hq]. }
  all: rewrite pow2_one in E by lia.
  all: destruct (Z.eqb_spec k 0) as [->|Hk0];
    [ change (2 ^ 0) with 1 in *; exists (pA - fromA);
      split; [lia|]; split; [lia|]; split; [lia|]; split; [exact Hs|];
      split; [unfold prefixEnds|inversion E; subst p;
              replace (fromA + (pA - fromA)) with pA by lia;
              destruct (validIndex a pA); [left; lia|right; split; [lia|reflexivity]]]
    | rewrite sar32_pow2 in E by lia; apply IH in E; try lia; auto ].
  - left. lia.
  - right. left. lia.
  - right. right. replace (fromA + (pA - fromA)) with pA by lia.
    replace (fromB + (pA - fromA)) with pB by lia.
    apply unit_differs; try lia. exact Eq.
Qed.

Lemma commonPrefix_loop_total (fuel : nat) : forall k pA pB,
  0 <= k <= 30 -> fromA <= pA <= toA ->
  (Z.to_nat (k + (toA - pA)) < fuel)%nat ->
  exists p, commonPrefix_loop fuel a fromA toA b fromB toB (2 ^ k) pA pB = Some p.
Proof.
  induction fuel as [|fuel IH]; intros k pA pB Hk HpA Hfuel; [lia|].
  cbn [commonPrefix_loop].
  assert (Hc : 1 <= 2 ^ k) by (pose proof (Z.pow_pos_nonneg 2 k); lia).
  destruct ((pA + 2 ^ k >? toA) || (pB + 2 ^ k >? toB)
            || negb (str_eqb (slice a pA (pA + 2 ^ k)) (slice b pB (pB + 2 ^ k)))) eqn:Et.
  - rewrite pow2_one by lia. destruct (Z.eqb_spec k 0); [eauto|].
    rewrite sar32_pow2 by lia. apply IH; lia.
  - destruct ((pA + 2 ^ k =? toA) || (pB + 2 ^ k =? toB)); [eauto|].
    apply orb_false_iff in Et. destruct Et as [Et _].
    apply orb_false_iff in Et. destruct Et as [Et _].
    rewrite Z.gtb_ltb, Z.ltb_ge in Et. apply IH; lia.
Qed.

Lemma commonPrefix_sound (fuel : nat) (p : Z) :
  commonPrefix fuel a fromA toA b fromB toB = Some p ->
  exists q, 0 <= q /\ q <= toA - fromA /\ q <= toB - fromB
            /\ same a b fromA fromB q
            /\ (fromA = toB \/ prefixEnds a fromA toA b fromB toB q)
            /\ (p = q \/ (p = q - 1 /\ validIndex a (fromA + q) = false)).
Proof.
  unfold commonPrefix.
  destruct (Z.eqb_spec fromA toA) as [E1|E1]; cbn [orb].
  { intros E; inversion E; subst p. exists 0.
    split; [lia|]. split; [lia|]. split; [lia|]. split; [apply same_nil; lia|].
    split; [right; left; lia|left; reflexivity]. }
  destruct (Z.eqb_spec fromA toB) as [E2|E2]; cbn [orb].
  { intros E; inversion E; subst p. exists 0.
    split; [lia|]. split; [lia|]. split; [lia|]. split; [apply same_nil; lia|].
    split; [left; exact E2|left; reflexivity]. }
  destruct (code_eq (charCodeAt a fromA) (charCodeAt b fromB)) eqn:Ec; cbn [negb].
  2:{ intros E; inversion E; subst p. exists 0.
      split; [lia|]. split; [lia|]. split; [lia|]. split; [apply same_nil; lia|].
      split; [right; right; right; now rewrite !Z.add_0_r|left; reflexivity]. }
  destruct (chunkSize fuel (toA - fromA) (toB - fromB)) as [c|] eqn:Ecs; [|discriminate].
  apply chunkSize_range in Ecs. destruct Ecs as (k & Hk & ->).
  intros E. apply commonPrefix_loop_sound in E; try lia.
  - destruct E as (q & H1 & H2 & H3 & H4 & H5 & H6). exists q.
    split; [lia|]. split; [lia|]. split; [lia|]. split; [exact H4|].
    split; [right; exact H5|exact H6].
  - apply same_nil; lia.
Qed.
End Prefix.

(** X5. For bounds inside the strings with fromA != toB, a shorter range of
    at most 2^30 units and enough fuel, commonPrefix(a, fromA, toA, b,
    fromB, toB) returns the length q of the longest common prefix of the two
    ranges, or q - 1 when position fromA + q lies inside a surrogate pair of
    a. *)
Theorem commonPrefix_longest (fuel : nat) (a : str) (fromA toA : Z) (b : str)
        (fromB toB : Z) :
  0 <= fromA <= toA -> toA <= slen a -> 0 <= fromB <= toB -> toB <= slen b ->
  fromA <> toB ->
  Z.min (toA - fromA) (toB - fromB) <= 2 ^ 30 ->
  (Z.to_nat (toA - fromA) + 32 <= fuel)%nat ->
  exists p q,
    commonPrefix fuel a fromA toA b fromB toB = Some p
    /\ 0 <= q /\ q <= toA - fromA /\ q <= toB - fromB
    /\ same a b fromA fromB q
    /\ prefixEnds a fromA toA b fromB toB q
    /\ (p = q \/ (p = q - 1 /\ validIndex a (fromA + q) = false)).
Proof.
  intros HA HA' HB HB' Hslip Hmin Hfuel.
  assert (Hex : exists p, commonPrefix fuel a fromA toA b fromB toB = Some p).
  { unfold commonPrefix.
    destruct ((fromA =? toA) || (fromA =? toB)
              || negb (code_eq (charCodeAt a fromA) (charCodeAt b fromB))); [eauto|].
    destruct (chunkSize_returns fuel (toA - fromA) (toB - fromB) Hmin ltac:(lia))
      as (j & Hj & Ej).
    rewrite Ej. apply commonPrefix_loop_total; lia. }
  destruct Hex as [p Ep]. exists p.
  destruct (commonPrefix_sound a fromA toA b fromB toB ltac:(lia) ltac:(lia) fuel p Ep)
    as (q & H1 & H2 & H3 & H4 & H5 & H6).
  exists q. split; [exact Ep|]. split; [lia|]. split; [lia|]. split; [lia|].
  split; [exact H4|]. split; [|exact H6].
  destruct H5 as [H5|H5]; [contradiction|exact H5].
Qed.

Lemma commonPrefix_longest_witness :
  exists p q,
    commonPrefix 43 hello_world 0 11 hello_there 0 10 = Some p
    /\ 0 <= q /\ q <= 11 - 0 /\ q <= 10 - 0
    /\ same hello_world hello_there 0 0 q
    /\ prefixEnds hello_world 0 11 hello_there 0 10 q
    /\ (p = q \/ (p = q - 1 /\ validIndex hello_world (0 + q) = false)).
Proof.
  apply (commonPrefix_longest 43 hello_world 0 11 hello_there 0 10);
    try (vm_compute; discriminate); try lia.
Defined.

(** ** [commonSuffix] *)

Section Suffix.
Variables (a : str) (fromA toA : Z) (b : str) (fromB toB : Z).
Hypothesis HA : 0 <= fromA <= toA /\ toA <= slen a.
Hypothesis HB : 0 <= fromB <= toB /\ toB <= slen b.

Lemma commonSuffix_loop_sound (fuel : nat) : forall k pA pB p,
  0 <= k <= 30 ->
  fromA <= pA <= toA -> pB = toB - (toA - pA) -> fromB <= pB ->
  same a b pA pB (toA - pA) ->
  commonSuffix_loop fuel a fromA toA b fromB toB (2 ^ k) pA pB = Some p ->
  exists q, toA - pA <= q /\ q <= toA - fromA /\ q <= toB - fromB
            /\ same a b (toA - q) (toB - q) q
            /\ suffixEnds a fromA toA b fromB toB q
            /\ (p = q \/ (p = q - 1 /\ validIndex a (toA - q) = false)).
Proof.
  induction fuel as [|fuel IH]; intros k pA pB p Hk HpA HpB HpB' Hs E;
    cbn [commonSuffix_loop] in E; [discriminate|].
  assert (Hc : 1 <= 2 ^ k) by (pose proof (Z.pow_pos_nonneg 2 k); lia).
  destruct (Z.ltb_spec (pA - 2 ^ k) fromA) as [HeA|HeA];
    [|destruct (Z.ltb_spec (pB - 2 ^ k) fromB) as [HeB|HeB];
      [|destruct (str_eqb (slice a (pA - 2 ^ k) pA) (slice b (pB - 2 ^ k) pB)) eqn:Eq]];
    cbn [orb negb] in E.
  3:{ (* the chunk matches *)
      replace pA with (pA - 2 ^ k + 2 ^ k) in Eq at 2 by lia.
      replace pB with (pB - 2 ^ k + 2 ^ k) in Eq at 2 by lia.
      apply str_eqb_same in Eq; try lia.
      assert (Hs' : same a b (pA - 2 ^ k) (pB - 2 ^ k) (toA - (pA - 2 ^ k))).
      { replace (toA - (pA - 2 ^ k)) with (2 ^ k + (toA - pA)) by lia.
        apply same_app; [lia|exact Eq|].
        replace (pA - 2 ^ k + 2 ^ k) with pA by lia.
        replace (pB - 2 ^ k + 2 ^ k) with pB by lia. exact Hs. }
      destruct ((pA - 2 ^ k =? fromA) || (pB - 2 ^ k =? fromB)) eqn:Eend.
      - inversion E; subst p. exists (toA - (pA - 2 ^ k)).
        split; [lia|]. split; [lia|]. split; [lia|]. split.
        + replace (toA - (toA - (pA - 2 ^ k))) with (pA - 2 ^ k) by lia.
          replace (toB - (toA - (pA - 2 ^ k))) with (pB - 2 ^ k) by lia. exact Hs'.
        + split; [|left; reflexivity].
          apply orb_true_iff in Eend. unfold suffixEnds. rewrite !Z.eqb_eq in Eend. lia.
      - apply IH in E; try lia; auto.
        destruct E as (q & Hq1 & Hq). exists q. split; [lia|exact Hq]. }
  all: rewrite pow2_one in E by lia.
  all: destruct (Z.eqb_spec k 0) as [->|Hk0];
    [ change (2 ^ 0) with 1 in *; exists (toA - pA);
      split; [lia|]; split; [lia|]; split; [lia|];
      split; [replace (toA - (toA - pA)) with pA by lia;
              replace (toB - (toA - pA)) with pB by lia; exact Hs|];
      split; [unfold suffixEnds|inversion E; subst p;
              replace (toA - (toA - pA)) with pA by lia;
              destruct (validIndex a pA); [left; lia|right; split; [lia|reflexivity]]]
    | rewrite sar32_pow2 in E by lia; apply IH in E; try lia; auto ].
  - left. lia.
  - right. left. lia.
  - right. right. replace (toA - (toA - pA) - 1) with (pA - 1) by lia.
    replace (toB - (toA - pA) - 1) with (pB - 1) by lia.
    apply unit_differs; try lia.
    replace (pA - 1 + 1) with pA by lia. replace (pB - 1 + 1) with pB by lia. exact Eq.
Qed.

Lemma commonSuffix_loop_total (fuel : nat) : forall k pA pB,
  0 <= k <= 30 -> fromA <= pA <= toA ->
  (Z.to_nat (k + (pA - fromA)) < fuel)%nat ->
  exists p, commonSuffix_loop fuel a fromA toA b fromB toB (2 ^ k) pA pB = Some p.
Proof.
  induction fuel as [|fuel IH]; intros k pA pB Hk HpA Hfuel; [lia|].
  cbn [commonSuffix_loop].
  assert (Hc : 1 <= 2 ^ k) by (pose proof (Z.pow_pos_nonneg 2 k); lia).
  destruct ((pA - 2 ^ k <? fromA) || (pB - 2 ^ k <? fromB)
            || negb (str_eqb (slice a (pA - 2 ^ k) pA) (slice b (pB - 2 ^ k) pB))) eqn:Et.
  - rewrite pow2_one by lia. destruct (Z.eqb_spec k 0); [eauto|].
    rewrite sar32_pow2 by lia. apply IH; lia.
  - destruct ((pA - 2 ^ k =? fromA) || (pB - 2 ^ k =? fromB)); [eauto|].
    apply orb_false_iff in Et. destruct Et as [Et _].
    apply orb_false_iff in Et. destruct Et as [Et _].
    rewrite Z.ltb_ge in Et. apply IH; lia.
Qed.

Lemma commonSuffix_sound (fuel : nat) (p : Z) :
  commonSuffix fuel a fromA toA b fromB toB = Some p ->
  exists q, 0 <= q /\ q <= toA - fromA /\ q <= toB - fromB
            /\ same a b (toA - q) (toB - q) q
            /\ suffixEnds a fromA toA b fromB toB q
            /\ (p = q \/ (p = q - 1 /\ validIndex a (toA - q) = false)).
Proof.
  unfold commonSuffix.
  destruct (Z.eqb_spec fromA toA) as [E1|E1]; cbn [orb].
  { intros E; inversion E; subst p. exists 0.
    split; [lia|]. split; [lia|]. split; [lia|]. split; [apply same_nil; lia|].
    split; [left; lia|left; reflexivity]. }
  destruct (Z.eqb_spec fromB toB) as [E2|E2]; cbn [orb].
  { intros E; inversion E; subst p. exists 0.
    split; [lia|]. split; [lia|]. split; [lia|]. split; [apply same_nil; lia|].
    split; [right; left; lia|left; reflexivity]. }
  destruct (code_eq (charCodeAt a (toA - 1)) (charCodeAt b (toB - 1))) eqn:Ec; cbn [negb].
  2:{ intros E; inversion E; subst p. exists 0.
      split; [lia|]. split; [lia|]. split; [lia|]. split; [apply same_nil; lia|].
      split; [right; right; now rewrite !Z.sub_0_r|left; reflexivity]. }
  destruct (chunkSize fuel (toA - fromA) (toB - fromB)) as [c|] eqn:Ecs; [|discriminate].
  apply chunkSize_range in Ecs. destruct Ecs as (k & Hk & ->).
  intros E. apply commonSuffix_loop_sound in E; try lia.
  - destruct E as (q & H1 & H2 & H3 & H4 & H5 & H6). exists q.
    split; [lia|]. split; [lia|]. split; [lia|]. split; [exact H4|].
    split; [exact H5|exact H6].
  - apply same_nil; lia.
Qed.

(** The result is never negative: after the guard, the loop cannot stop at
    [toA]. *)
Lemma commonSuffix_nonneg (fuel : nat) (p : Z) :
  commonSuffix fuel a fromA toA b fromB toB = Some p -> 0 <= p.
Proof.
  intros E. pose proof E as E'. apply commonSuffix_sound in E'.
  destruct E' as (q & H1 & H2 & H3 & H4 & H5 & [->|[-> Hv]]); [exact H1|].
  destruct (Z.eq_dec q 0) as [->|]; [|lia]. exfalso.
  (* q = 0: the guard of [commonSuffix] has seen that the last units agree *)
  unfold commonSuffix in E.
  destruct (Z.eqb_spec fromA toA) as [E1|E1]; cbn [orb] in E; [inversion E|].
  destruct (Z.eqb_spec fromB toB) as [E2|E2]; cbn [orb] in E; [inversion E|].
  destruct (code_eq (charCodeAt a (toA - 1)) (charCodeAt b (toB - 1))) eqn:Ec;
    cbn [negb] in E; [|inversion E].
  unfold suffixEnds in H5. rewrite !Z.sub_0_r in H5.
  destruct H5 as [H5|[H5|H5]]; [lia|lia|congruence].
Qed.
End Suffix.

(** X6. For bounds inside the strings, a shorter range of at most 2^30 units
    and enough fuel, commonSuffix(a, fromA, toA, b, fromB, toB) returns the
    length q of the longest common suffix of the two ranges, or q - 1 when
    position toA - q lies inside a surrogate pair of a; the result is never
    negative. *)
Theorem commonSuffix_longest (fuel : nat) (a : str) (fromA toA : Z) (b : str)
        (fromB toB : Z) :
  0 <= fromA <= toA -> toA <= slen a -> 0 <= fromB <= toB -> toB <= slen b ->
  Z.min (toA - fromA) (toB - fromB) <= 2 ^ 30 ->
  (Z.to_nat (toA - fromA) + 32 <= fuel)%nat ->
  exists p q,
    commonSuffix fuel a fromA toA b fromB toB = Some p
    /\ 0 <= p /\ q <= toA - fromA /\ q <= toB - fromB
    /\ same a b (toA - q) (toB - q) q
    /\ suffixEnds a fromA toA b fromB toB q
    /\ (p = q \/ (p = q - 1 /\ validIndex a (toA - q) = false)).
Proof.
  intros HA HA' HB HB' Hmin Hfuel.
  assert (Hex : exists p, commonSuffix fuel a fromA toA b fromB toB = Some p).
  { unfold commonSuffix.
    destruct ((fromA =? toA) || (fromB =? toB)
              || negb (code_eq (charCodeAt a (toA - 1)) (charCodeAt b (toB - 1))));
      [eauto|].
    destruct (chunkSize_returns fuel (toA - fromA) (toB - fromB) Hmin ltac:(lia))
      as (j & Hj & Ej).
    rewrite Ej. apply commonSuffix_loop_total; lia. }
  destruct Hex as [p Ep]. exists p.
  pose proof (commonSuffix_nonneg a fromA toA b fromB toB ltac:(lia) ltac:(lia) fuel p Ep)
    as Hp.
  destruct (commonSuffix_sound a fromA toA b fromB toB ltac:(lia) ltac:(lia) fuel p Ep)
    as (q & H1 & H2 & H3 & H4 & H5 & H6).
  exists q. split; [exact Ep|]. split; [lia|]. split; [lia|]. split; [lia|].
  split; [exact H4|]. split; [exact H5|exact H6].
Qed.

Lemma commonSuffix_longest_witness :
  exists p q,
    commonSuffix 43 hello_world 0 11 hello_there 0 10 = Some p
    /\ 0 <= p /\ q <= 11 - 0 /\ q <= 10 - 0
    /\ same hello_world hello_there (11 - q) (10 - q) q
    /\ suffixEnds hello_world 0 11 hello_there 0 10 q
    /\ (p = q \/ (p = q - 1 /\ validIndex hello_world (11 - q) = false)).
Proof.
  apply (commonSuffix_longest 43 hello_world 0 11 hello_there 0 10);
    try (vm_compute; discriminate); try lia.
Defined.

(** ** Edit scripts and slices *)

Lemma str_eqb_slices (a b : str) (p p' q q' : Z) :
  0 <= p <= p' -> p' <= slen a -> 0 <= q <= q' -> q' <= slen b ->
  str_eqb (slice a p p') (slice b q q') = true ->
  p' - p = q' - q /\ same a b p q (p' - p).
Proof.
  intros H1 H2 H3 H4 E. apply str_eqb_eq in E.
  assert (Hl : p' - p = q' - q).
  { rewrite <- (slice_length a p p') by lia. rewrite <- (slice_length b q q') by lia.
    now rewrite E. }
  split; [exact Hl|].
  replace p' with (p + (p' - p)) in E by lia.
  replace q' with (q + (p' - p)) in E by lia.
  apply slice_eq_same in E; try lia. exact E.
Qed.

Lemma slice_slice (s : str) (p q i j : Z) :
  0 <= p <= q -> q <= slen s -> 0 <= i <= j -> j <= q - p ->
  slice (slice s p q) i j = slice s (p + i) (p + j).
Proof.
  intros H1 H2 H3 H4.
  pose proof (slice_length s p q H1 H2) as Hl.
  apply str_ext.
  - rewrite !slice_length by lia. lia.
  - intros k Hk. rewrite slice_length in Hk by lia.
    rewrite charCodeAt_slice by lia. rewrite charCodeAt_slice by lia.
    rewrite charCodeAt_slice by lia. f_equal. lia.
Qed.

Lemma sliceFrom_slice (s : str) (p q k : Z) :
  0 <= p <= q -> q <= slen s -> 0 <= k <= q - p ->
  sliceFrom (slice s p q) k = slice s (p + k) q.
Proof.
  intros H1 H2 H3. unfold sliceFrom. rewrite slice_length by lia.
  rewrite slice_slice by lia. f_equal. lia.
Qed.

Lemma edits_next (a b : str) (rest : list Change) (tA tB : Z) :
  edits a b tA tB rest ->
  0 <= tA <= nextFromA a rest /\ nextFromA a rest <= slen a
  /\ 0 <= tB /\ tB + (nextFromA a rest - tA) <= slen b
  /\ same a b tA tB (nextFromA a rest - tA).
Proof.
  intros H. pose proof (edits_bounds _ _ _ _ _ H) as Hb.
  destruct rest as [|c rest]; cbn [edits nextFromA] in *.
  - destruct H as (HA & HB & Hl & Hs). repeat split; try lia. exact Hs.
  - destruct H as (HA & HB & HcA & HcB & Hg & Hs & Hrest).
    apply edits_bounds in Hrest. repeat split; try lia. exact Hs.
Qed.

Lemma edits_front_extend (a b : str) (rest : list Change) (tA tB n : Z) :
  edits a b tA tB rest -> 0 <= n -> n <= tA -> n <= tB ->
  same a b (tA - n) (tB - n) n ->
  edits a b (tA - n) (tB - n) rest.
Proof.
  intros H Hn HA HB Hs. destruct rest as [|c rest]; cbn [edits] in *.
  - destruct H as (H1 & H2 & Hl & Hs'). repeat split; try lia.
    replace (slen a - (tA - n)) with (n + (slen a - tA)) by lia.
    apply same_app; [lia|exact Hs|].
    replace (tA - n + n) with tA by lia. replace (tB - n + n) with tB by lia. exact Hs'.
  - destruct H as (H1 & H2 & HcA & HcB & Hg & Hs' & Hrest). repeat split; try lia.
    + replace (fromA c - (tA - n)) with (n + (fromA c - tA)) by lia.
      apply same_app; [lia|exact Hs|].
      replace (tA - n + n) with tA by lia. replace (tB - n + n) with tB by lia. exact Hs'.
    + exact Hrest.
Qed.

Lemma edits_front_shrink (a b : str) (rest : list Change) (tA tB n : Z) :
  edits a b tA tB rest -> 0 <= n -> tA + n <= nextFromA a rest ->
  edits a b (tA + n) (tB + n) rest.
Proof.
  intros H Hn Hle. destruct rest as [|c rest]; cbn [edits nextFromA] in *.
  - destruct H as (H1 & H2 & Hl & Hs'). repeat split; try lia.
    replace (slen a - (tA + n)) with (slen a - tA - n) by lia.
    apply (same_sub a b tA tB (slen a - tA)); [exact Hs'|lia|lia].
  - destruct H as (H1 & H2 & HcA & HcB & Hg & Hs' & Hrest). repeat split; try lia.
    + replace (fromA c - (tA + n)) with (fromA c - tA - n) by lia.
      apply (same_sub a b tA tB (fromA c - tA)); [exact Hs'|lia|lia].
    + exact Hrest.
Qed.

(** ** [mergeAdjacent] *)

Lemma mergeAdjacent_from_edits (a b : str) (minGap : Z) (rest : list Change) :
  forall prev pA pB,
    edits a b pA pB (prev :: rest) ->
    edits a b pA pB (mergeAdjacent_from minGap prev rest).
Proof.
  induction rest as [|cur rest IH]; intros prev pA pB H; cbn [mergeAdjacent_from].
  - exact H.
  - cbn [edits] in H.
    destruct H as (H1 & H2 & HpA & HpB & Hg & Hs & H3 & H4 & HcA & HcB & Hg' & Hs' & Hrest).
    destruct ((toA prev >? fromA cur - minGap) && (toB prev >? fromB cur - minGap)).
    + apply IH. cbn [edits fromA toA fromB toB]. repeat split; try lia; auto.
    + cbn [edits]. split; [lia|]. split; [lia|]. split; [lia|]. split; [lia|].
      split; [lia|]. split; [exact Hs|]. apply IH. cbn [edits].
      repeat split; try lia; auto.
Qed.

Lemma mergeAdjacent_edits (a b : str) (changes : list Change) (minGap pA pB : Z) :
  edits a b pA pB changes -> edits a b pA pB (mergeAdjacent changes minGap).
Proof.
  destruct changes as [|c rest]; [trivial|]. apply mergeAdjacent_from_edits.
Qed.

(** X7. mergeAdjacent turns an edit script from a to b (changes inside the
    strings, in ascending order, with equal text before, between and after
    them) into an edit script from a to b, for every minGap; applying the
    result to a gives b. *)
Theorem mergeAdjacent_keeps_edits (a b : str) (changes : list Change) (minGap : Z) :
  edits a b 0 0 changes ->
  edits a b 0 0 (mergeAdjacent changes minGap)
  /\ patch a b 0 (mergeAdjacent changes minGap) = b.
Proof.
  intros H. apply (mergeAdjacent_edits a b changes minGap) in H. split; [exact H|].
  rewrite (edits_patch _ _ _ _ _ H). apply sliceFrom_zero.
Qed.

Lemma mergeAdjacent_keeps_edits_witness :
  edits hello_world hello_there 0 0
        (mergeAdjacent [mkChange 6 8 6 9; mkChange 9 11 10 11] 3)
  /\ patch hello_world hello_there 0
           (mergeAdjacent [mkChange 6 8 6 9; mkChange 9 11 10 11] 3)
     = hello_there.
Proof.
  apply (mergeAdjacent_keeps_edits hello_world hello_there
           [mkChange 6 8 6 9; mkChange 9 11 10 11] 3).
  edits_by_computation.
Defined.

(** ** [normalize] *)

(** The text of a pure insertion or deletion, as [normalize] takes it. *)
Lemma move_left_edits (a b : str) (pA pB fA tA fB tB : Z) (rest : list Change) :
  edits a b pA pB (mkChange fA tA fB tB :: rest) ->
  tA - fA = 0 \/ tB - fB = 0 ->
  let bl := fA - pA in
  let text := if negb (tA - fA =? 0) then slice a fA tA else slice b fB tB in
  bl <= slen text ->
  str_eqb (slice a (fA - bl) fA) (sliceFrom text (slen text - bl)) = true ->
  edits a b pA pB (mkChange (fA - bl) (tA - bl) (fB - bl) (tB - bl) :: rest).
Proof.
  intros H Hpure bl text Hbl E. cbn [edits fromA toA fromB toB] in H.
  destruct H as (H1 & H2 & HcA & HcB & Hg & Hs & Hrest).
  pose proof (edits_bounds _ _ _ _ _ Hrest) as [HtA HtB].
  subst bl text. cbn [edits fromA toA fromB toB].
  destruct (Z.eqb_spec (tA - fA) 0) as [HlA|HlA]; cbn [negb] in *.
  - (* an insertion: the text is in [b] *)
    rewrite slice_length in Hbl, E by lia.
    rewrite sliceFrom_slice in E by lia.
    apply str_eqb_slices in E; try lia. destruct E as [_ E].
    replace (fA - (fA - pA)) with pA in * by lia.
    split; [lia|]. split; [lia|]. split; [lia|]. split; [lia|]. split; [lia|].
    split; [apply same_nil; lia|].
    replace (tA - (fA - pA)) with (tA - (fA - pA)) by lia.
    apply edits_front_extend; try lia; auto.
    replace (tA - (fA - pA)) with pA by lia.
    replace (fB + (tB - fB - (fA - pA))) with (tB - (fA - pA)) in E by lia.
    replace (fA - pA) with (fA - pA) by lia. exact E.
  - (* a deletion: the text is in [a] *)
    assert (HlB : tB - fB = 0) by lia.
    rewrite slice_length in Hbl, E by lia.
    rewrite sliceFrom_slice in E by lia.
    apply str_eqb_slices in E; try lia. destruct E as [_ E].
    replace (fA - (fA - pA)) with pA in * by lia.
    split; [lia|]. split; [lia|]. split; [lia|]. split; [lia|]. split; [lia|].
    split; [apply same_nil; lia|].
    apply edits_front_extend; try lia; auto.
    replace (fA + (tA - fA - (fA - pA))) with (tA - (fA - pA)) in E by lia.
    replace (tB - (fA - pA)) with pB by lia.
    intros i Hi. rewrite <- (E i) by lia. apply Hs. lia.
Qed.

Lemma move_right_edits (a b : str) (pA pB fA tA fB tB : Z) (rest : list Change) :
  edits a b pA pB (mkChange fA tA fB tB :: rest) ->
  tA - fA = 0 \/ tB - fB = 0 ->
  let al := nextFromA a rest - tA in
  let text := if negb (tA - fA =? 0) then slice a fA tA else slice b fB tB in
  al <= slen text ->
  str_eqb (slice a tA (tA + al)) (slice text 0 al) = true ->
  edits a b pA pB (mkChange (fA + al) (tA + al) (fB + al) (tB + al) :: rest).
Proof.
  intros H Hpure al text Hal E. cbn [edits fromA toA fromB toB] in H.
  destruct H as (H1 & H2 & HcA & HcB & Hg & Hs & Hrest).
  pose proof (edits_next _ _ _ _ _ Hrest) as (Hn1 & Hn2 & Hn3 & Hn4 & Hn5).
  subst al text. cbn [edits fromA toA fromB toB].
  set (al := nextFromA a rest - tA) in *.
  destruct (Z.eqb_spec (tA - fA) 0) as [HlA|HlA]; cbn [negb] in *.
  - (* an insertion *)
    rewrite slice_length in Hal by lia.
    rewrite slice_slice in E by lia. rewrite Z.add_0_r in E.
    apply str_eqb_slices in E; try lia. destruct E as [_ E].
    replace (tA + al - tA) with al in E by lia.
    split; [lia|]. split; [lia|]. split; [lia|]. split; [lia|]. split; [lia|].
    split.
    + replace (fA + al - pA) with (fA - pA + al) by lia.
      apply same_app; [lia|exact Hs|].
      replace (pA + (fA - pA)) with tA by lia.
      replace (pB + (fA - pA)) with fB by lia. exact E.
    + apply edits_front_shrink; try lia; auto.
  - (* a deletion *)
    assert (HlB : tB - fB = 0) by lia.
    rewrite slice_length in Hal by lia.
    rewrite slice_slice in E by lia. rewrite Z.add_0_r in E.
    apply str_eqb_slices in E; try lia. destruct E as [_ E].
    replace (tA + al - tA) with al in E by lia.
    split; [lia|]. split; [lia|]. split; [lia|]. split; [lia|]. split; [lia|].
    split.
    + replace (fA + al - pA) with (fA - pA + al) by lia.
      apply same_app; [lia|exact Hs|].
      replace (pA + (fA - pA)) with fA by lia.
      replace (pB + (fA - pA)) with tB by lia.
      intros i Hi. rewrite <- (E i) by lia. apply Hn5. lia.
    + apply edits_front_shrink; try lia; auto.
Qed.

Lemma strip_edits (a b : str) (pA pB fA tA fB tB pre post : Z) (rest : list Change) :
  edits a b pA pB (mkChange fA tA fB tB :: rest) ->
  0 <= pre -> 0 <= post -> pre + post <= tA - fA -> pre + post <= tB - fB ->
  same a b fA fB pre -> same a b (tA - post) (tB - post) post ->
  edits a b pA pB (mkChange (fA + pre) (tA - post) (fB + pre) (tB - post) :: rest).
Proof.
  intros H Hpre Hpost HlA HlB Hs1 Hs2. cbn [edits fromA toA fromB toB] in *.
  destruct H as (H1 & H2 & HcA & HcB & Hg & Hs & Hrest).
  pose proof (edits_bounds _ _ _ _ _ Hrest) as [HtA HtB].
  split; [lia|]. split; [lia|]. split; [lia|]. split; [lia|]. split; [lia|]. split.
  - replace (fA + pre - pA) with (fA - pA + pre) by lia.
    apply same_app; [lia|exact Hs|].
    replace (pA + (fA - pA)) with fA by lia.
    replace (pB + (fA - pA)) with fB by lia. exact Hs1.
  - apply edits_front_extend; try lia; auto.
Qed.

Lemma normalize_step_edits (fuel : nat) (a b : str) (pA pB : Z) (ch : Change)
      (rest : list Change) (ch' : Change) (moved : bool) :
  noPairs a ->
  edits a b pA pB (ch :: rest) ->
  normalize_step fuel a b pA (nextFromA a rest) ch = Some (ch', moved) ->
  edits a b pA pB (ch' :: rest).
Proof.
  intros Hnp H E. destruct ch as [fA tA fB tB].
  pose proof H as H0. cbn [edits fromA toA fromB toB] in H0.
  destruct H0 as (H1 & H2 & HcA & HcB & Hg & Hs & Hrest).
  pose proof (edits_bounds _ _ _ _ _ Hrest) as [HtA HtB].
  unfold normalize_step in E. cbn [fromA toA fromB toB] in E.
  destruct (commonPrefix fuel a fA tA b fB tB) as [pre|] eqn:Ep; [|discriminate].
  apply commonPrefix_sound in Ep; try lia.
  destruct Ep as (q & Hq0 & HqA & HqB & Hqs & _ & [->|[_ Hbad]]);
    [|rewrite Hnp in Hbad; discriminate].
  assert (E1 : (if q =? 0 then mkChange fA tA fB tB
                else mkChange (fA + q) tA (fB + q) tB)
               = mkChange (fA + q) tA (fB + q) tB).
  { destruct (Z.eqb_spec q 0) as [->|]; [|reflexivity]. now rewrite !Z.add_0_r. }
  rewrite E1 in E. cbn [fromA toA fromB toB] in E.
  destruct (commonSuffix fuel a (fA + q) tA b (fB + q) tB) as [post|] eqn:Es;
    [|discriminate].
  pose proof (commonSuffix_nonneg a (fA + q) tA b (fB + q) tB ltac:(lia) ltac:(lia)
                fuel post Es) as Hpost.
  apply commonSuffix_sound in Es; try lia.
  destruct Es as (r & Hr0 & HrA & HrB & Hrs & _ & Hpr).
  assert (Hps : post <= r /\ same a b (tA - post) (tB - post) post).
  { destruct Hpr as [->|[-> _]]; [split; [lia|exact Hrs]|]. split; [lia|].
    replace (tA - (r - 1)) with (tA - r + 1) by lia.
    replace (tB - (r - 1)) with (tB - r + 1) by lia.
    apply (same_sub a b (tA - r) (tB - r) r); [exact Hrs|lia|lia]. }
  destruct Hps as [Hpr' Hps].
  assert (E2 : (if post =? 0 then mkChange (fA + q) tA (fB + q) tB
                else mkChange (fA + q) (tA - post) (fB + q) (tB - post))
               = mkChange (fA + q) (tA - post) (fB + q) (tB - post)).
  { destruct (Z.eqb_spec post 0) as [->|]; [|reflexivity]. now rewrite !Z.sub_0_r. }
  rewrite E2 in E. cbn [fromA toA fromB toB] in E.
  assert (Hstrip : edits a b pA pB
                     (mkChange (fA + q) (tA - post) (fB + q) (tB - post) :: rest))
    by (apply strip_edits; auto; lia).
  set (fA2 := fA + q) in *. set (tA2 := tA - post) in *.
  set (fB2 := fB + q) in *. set (tB2 := tB - post) in *.
  destruct (negb (tA2 - fA2 =? 0) && negb (tB2 - fB2 =? 0)) eqn:Eboth.
  { inversion E; subst. exact Hstrip. }
  assert (Hpure : tA2 - fA2 = 0 \/ tB2 - fB2 = 0).
  { apply andb_false_iff in Eboth. rewrite !negb_false_iff, !Z.eqb_eq in Eboth. exact Eboth. }
  destruct ((fA2 - pA =? 0) || (nextFromA a rest - tA2 =? 0)).
  { inversion E; subst. exact Hstrip. }
  match type of E with
  | (if ?c then _ else _) = _ => destruct c eqn:Eleft
  end.
  { inversion E; subst. apply andb_true_iff in Eleft. destruct Eleft as [El1 El2].
    apply Z.leb_le in El1.
    apply (move_left_edits a b pA pB fA2 tA2 fB2 tB2 rest Hstrip Hpure El1 El2). }
  match type of E with
  | (if ?c then _ else _) = _ => destruct c eqn:Eright
  end.
  { inversion E; subst. apply andb_true_iff in Eright. destruct Eright as [Er1 Er2].
    apply Z.leb_le in Er1.
    apply (move_right_edits a b pA pB fA2 tA2 fB2 tB2 rest Hstrip Hpure Er1 Er2). }
  inversion E; subst. exact Hstrip.
Qed.

Lemma normalize_pass_edits (fuel : nat) (a b : str) (changes : list Change) :
  noPairs a ->
  forall pA pB changes' moved,
    edits a b pA pB changes ->
    normalize_pass fuel a b pA changes = Some (changes', moved) ->
    edits a b pA pB changes'.
Proof.
  intros Hnp. induction changes as [|ch rest IH]; intros pA pB changes' moved H E;
    cbn [normalize_pass] in E.
  - inversion E; subst. exact H.
  - change (match rest with
            | next :: _ => fromA next
            | [] => slen a
            end) with (nextFromA a rest) in E.
    destruct (normalize_step fuel a b pA (nextFromA a rest) ch) as [[ch' m]|] eqn:Es;
      [|discriminate].
    destruct (normalize_pass fuel a b (toA ch') rest) as [[rest' m']|] eqn:Er;
      [|discriminate].
    inversion E; subst; clear E.
    apply (normalize_step_edits fuel a b pA pB ch rest ch' m Hnp H) in Es.
    cbn [edits] in *. destruct Es as (H1 & H2 & HcA & HcB & Hg & Hs & Hrest).
    repeat split; try lia; auto. eapply IH; eauto.
Qed.

Lemma normalize_loop_edits (fuel : nat) (a b : str) (n : nat) :
  noPairs a ->
  forall changes changes',
    edits a b 0 0 changes ->
    normalize_loop fuel a b n changes = Some changes' ->
    edits a b 0 0 changes'.
Proof.
  intros Hnp. induction n as [|n IH]; intros changes changes' H E;
    cbn [normalize_loop] in E; [discriminate|].
  destruct (normalize_pass fuel a b 0 (mergeAdjacent changes 1)) as [[c1 moved]|] eqn:Ep;
    [|discriminate].
  apply normalize_pass_edits with (pB := 0) in Ep; auto.
  2:{ now apply mergeAdjacent_edits. }
  destruct moved; [eapply IH; eauto|]. inversion E; subst. exact Ep.
Qed.

(** X8. When a holds no surrogate pair, every result of normalize on an edit
    script from a to b is an edit script from a to b; applying it to a gives
    b. *)
Theorem normalize_keeps_edits (fuel : nat) (a b : str) (changes changes' : list Change) :
  noPairs a ->
  edits a b 0 0 changes ->
  normalize fuel a b changes = Some changes' ->
  edits a b 0 0 changes' /\ patch a b 0 changes' = b.
Proof.
  intros Hnp H E. unfold normalize in E.
  apply (normalize_loop_edits fuel a b fuel Hnp changes changes' H) in E.
  split; [exact E|]. rewrite (edits_patch _ _ _ _ _ E). apply sliceFrom_zero.
Qed.

Lemma normalize_keeps_edits_witness :
  edits hello_world hello_there 0 0 [mkChange 6 8 6 9; mkChange 9 11 10 11]
  /\ patch hello_world hello_there 0 [mkChange 6 8 6 9; mkChange 9 11 10 11]
     = hello_there.
Proof.
  apply (normalize_keeps_edits 30 hello_world hello_there
           [mkChange 6 8 6 9; mkChange 9 11 10 11]
           [mkChange 6 8 6 9; mkChange 9 11 10 11]).
  - apply noPairs_plain. reflexivity.
  - edits_by_computation.
  - vm_compute. reflexivity.
Defined.

(** ** An empty result *)

Lemma yields_ret {A} (P : A -> Prop) (x : A) : P x -> yields P (ret x).
Proof. intros H g y g' E. inversion E; subst; exact H. Qed.

Lemma yields_lift_none {A} (P : A -> Prop) : yields P (lift None).
Proof. intros g y g' E. discriminate. Qed.

Lemma yields_bind {A B} (Q : A -> Prop) (P : B -> Prop) (m : M A) (k : A -> M B) :
  yields Q m -> (forall x, Q x -> yields P (k x)) -> yields P (bind m k).
Proof.
  intros Hm Hk g y g' E. unfold bind in E.
  destruct (m g) as [[x g1]|] eqn:Em; [|discriminate].
  eapply Hk; [eapply Hm; exact Em|exact E].
Qed.

Lemma yields_any {A} (m : M A) : yields (fun _ => True) m.
Proof. intros g y g' E. exact I. Qed.

Lemma nonEmpty_app {A} (l1 l2 : list A) : nonEmpty l1 -> nonEmpty (l1 ++ l2).
Proof. unfold nonEmpty. destruct l1; [contradiction|discriminate]. Qed.

Lemma nonEmpty_cons {A} (x : A) (l : list A) : nonEmpty (x :: l).
Proof. discriminate. Qed.

Ltac yields_step Hrec :=
  first
    [ apply yields_ret; first [apply nonEmpty_cons | apply nonEmpty_app; assumption]
    | apply yields_lift_none
    | assumption
    | match goal with
      | |- yields _ (bind (_ _ _ _ _ _ _) _) =>
          eapply yields_bind; [apply Hrec | intros ? ?]
      | |- yields _ (bind _ _) =>
          eapply yields_bind; [apply yields_any | intros ? _]
      | |- yields _ (if ?c then _ else _) => destruct c
      | |- yields _ (match ?x with _ => _ end) => destruct x
      end ].

Section NonEmpty.
Variables (now : nat -> Z) (fuel : nat) (a b : str).
Variable rec : str -> Z -> Z -> str -> Z -> Z -> M (list Change).
Hypothesis Hrec : forall fromA toA fromB toB, yields nonEmpty (rec a fromA toA b fromB toB).

Lemma bisect_nonEmpty fromA toA splitA fromB toB splitB :
  yields nonEmpty (bisect rec a fromA toA splitA b fromB toB splitB).
Proof. unfold bisect. repeat yields_step Hrec. Qed.

Lemma crudeMatch_nonEmpty fromA toA fromB toB :
  yields nonEmpty (crudeMatch fuel rec a fromA toA b fromB toB).
Proof. unfold crudeMatch. repeat yields_step Hrec. Qed.

Lemma findSnake_loop_nonEmpty n : forall fromA toA fromB toB off depth f1 f2,
  yields nonEmpty (findSnake_loop now fuel rec n a fromA toA b fromB toB off depth f1 f2).
Proof.
  induction n as [|n IH]; intros; cbn [findSnake_loop].
  - apply yields_lift_none.
  - repeat first [apply bisect_nonEmpty | apply crudeMatch_nonEmpty | apply IH
                 | yields_step Hrec].
Qed.

Lemma findSnake_nonEmpty fromA toA fromB toB :
  yields nonEmpty (findSnake now fuel rec a fromA toA b fromB toB).
Proof.
  unfold findSnake.
  repeat first [apply crudeMatch_nonEmpty | apply findSnake_loop_nonEmpty
               | yields_step Hrec].
Qed.

Lemma findDiff_body_nonEmpty fromA toA fromB toB :
  str_eqb a b = false ->
  yields nonEmpty (findDiff_body now fuel rec a fromA toA b fromB toB).
Proof.
  intros Hne. unfold findDiff_body. rewrite Hne.
  repeat first [apply findSnake_nonEmpty | yields_step Hrec].
Qed.
End NonEmpty.

Lemma findDiff_nonEmpty now fuel n a b :
  str_eqb a b = false ->
  forall fromA toA fromB toB,
    yields nonEmpty (findDiff now fuel n a fromA toA b fromB toB).
Proof.
  intros Hne. induction n as [|n IH]; intros; cbn [findDiff].
  - apply yields_lift_none.
  - apply findDiff_body_nonEmpty; assumption.
Qed.


Lemma mergeAdjacent_from_nonEmpty minGap rest : forall prev,
  nonEmpty (mergeAdjacent_from minGap prev rest).
Proof.
  induction rest as [|cur rest IH]; intros prev; cbn [mergeAdjacent_from].
  - discriminate.
  - destruct ((toA prev >? fromA cur - minGap) && (toB prev >? fromB cur - minGap));
      [apply IH|discriminate].
Qed.

Lemma mergeAdjacent_nonEmpty changes minGap :
  nonEmpty changes -> nonEmpty (mergeAdjacent changes minGap).
Proof.
  destruct changes as [|c rest]; [intros H; now elim H|].
  intros _. apply mergeAdjacent_from_nonEmpty.
Qed.

Lemma normalize_pass_length fuel a b changes : forall prevToA changes' moved,
  normalize_pass fuel a b prevToA changes = Some (changes', moved) ->
  length changes' = length changes.
Proof.
  induction changes as [|ch rest IH]; intros prevToA changes' moved E;
    cbn [normalize_pass] in E.
  - inversion E; reflexivity.
  - destruct (normalize_step _ _ _ _ _ _) as [[ch' m]|]; [|discriminate].
    destruct (normalize_pass fuel a b (toA ch') rest) as [[rest' m']|] eqn:Er;
      [|discriminate].
    inversion E; subst. cbn [length]. f_equal. eapply IH; eauto.
Qed.

Lemma normalize_loop_nonEmpty fuel a b n : forall changes changes',
  nonEmpty changes -> normalize_loop fuel a b n changes = Some changes' ->
  nonEmpty changes'.
Proof.
  induction n as [|n IH]; intros changes changes' Hne E; cbn [normalize_loop] in E;
    [discriminate|].
  destruct (normalize_pass fuel a b 0 (mergeAdjacent changes 1)) as [[c1 moved]|] eqn:Ep;
    [|discriminate].
  assert (Hc1 : nonEmpty c1).
  { apply normalize_pass_length in Ep.
    pose proof (mergeAdjacent_nonEmpty changes 1 Hne) as H1.
    intros ->. destruct (mergeAdjacent changes 1); [now elim H1|discriminate]. }
  destruct moved; [eapply IH; eauto|]. inversion E; subst. exact Hc1.
Qed.

Lemma normalize_nil fuel a b changes :
  normalize fuel a b [] = Some changes -> changes = [].
Proof.
  unfold normalize. destruct fuel as [|fuel]; cbn; [discriminate|].
  intros E. now inversion E.
Qed.

Lemma findDiff_same now fuel n a fromA toA fromB toB g r g' :
  findDiff now fuel n a fromA toA a fromB toB g = Some (r, g') -> r = [].
Proof.
  destruct n as [|n]; cbn [findDiff]; [discriminate|].
  unfold findDiff_body. rewrite str_eqb_refl. intros E. now inversion E.
Qed.

Lemma diff_empty_iff now fuel a b config g changes g' :
  diff now fuel a b config g = Some (changes, g') -> (changes = [] <-> a = b).
Proof.
  unfold diff.
  destruct (match cfg_timeout config with
            | Some t => if t =? 0 then (0, ticks g) else (now (ticks g) + t, S (ticks g))
            | None => (0, ticks g)
            end) as [tm tk].
  unfold bind, lift.
  match goal with
  | |- context [findDiff now fuel fuel a 0 (slen a) b 0 (slen b) ?g0] =>
      destruct (findDiff now fuel fuel a 0 (slen a) b 0 (slen b) g0) as [[r g1]|] eqn:Ef;
      [|discriminate]
  end.
  destruct (normalize fuel a b r) as [r'|] eqn:En; [|discriminate].
  intros E. inversion E; subst r' g1; clear E. split.
  - intros ->. destruct (str_eqb a b) eqn:Eab; [now apply str_eqb_eq|].
    exfalso. apply (findDiff_nonEmpty now fuel fuel a b Eab) in Ef.
    apply (normalize_loop_nonEmpty _ _ _ _ _ _ Ef En). reflexivity.
  - intros ->. apply findDiff_same in Ef. subst r. now apply normalize_nil in En.
Qed.

Lemma makePresentable_loop_length wordChar fuel a b changes : forall posA changes',
  makePresentable_loop wordChar fuel a b posA changes = Some changes' ->
  length changes' = length changes.
Proof.
  induction changes as [|ch rest IH]; intros posA changes' E;
    cbn [makePresentable_loop] in E.
  - inversion E; reflexivity.
  - match type of E with
    | match ?x with _ => _ end = _ => destruct x as [ch'|]; [|discriminate]
    end.
    destruct (makePresentable_loop wordChar fuel a b (toA ch') rest) as [rest'|] eqn:Er;
      [|discriminate].
    inversion E; subst. cbn [length]. f_equal. eapply IH; eauto.
Qed.

Lemma presentableDiff_empty_iff wordChar now fuel a b config g changes g' :
  presentableDiff wordChar fuel now a b config g = Some (changes, g') ->
  (changes = [] <-> a = b).
Proof.
  unfold presentableDiff, bind, lift, makePresentable.
  destruct (diff now fuel a b config g) as [[r g1]|] eqn:Ed; [|discriminate].
  destruct (makePresentable_loop wordChar fuel a b 0 r) as [r'|] eqn:Ep; [|discriminate].
  intros E. inversion E; subst changes g1; clear E.
  apply diff_empty_iff in Ed. apply makePresentable_loop_length in Ep.
  rewrite <- Ed. split.
  - intros Em. destruct r' as [|c r'].
    + destruct r; [reflexivity|discriminate].
    + exfalso. apply (mergeAdjacent_nonEmpty (c :: r') 3); [discriminate|exact Em].
  - intros ->. destruct r'; [reflexivity|discriminate].
Qed.

(** X9. Whenever diff or presentableDiff returns, the list of changes is
    empty exactly when the two strings are equal. *)
Theorem diff_empty_iff_equal wordChar now fuel (a b : str) config g changes g' :
  diff now fuel a b config g = Some (changes, g')
  \/ presentableDiff wordChar fuel now a b config g = Some (changes, g') ->
  (changes = [] <-> a = b).
Proof.
  intros [E|E].
  - eapply diff_empty_iff; eauto.
  - eapply presentableDiff_empty_iff; eauto.
Qed.

Lemma diff_empty_iff_equal_witness :
  [mkChange 6 8 6 9; mkChange 9 11 10 11] = [] <-> hello_world = hello_there.
Proof.
  apply (diff_empty_iff_equal None (fun _ => 0) 30 hello_world hello_there noConfig initial
           [mkChange 6 8 6 9; mkChange 9 11 10 11]
           (mkGlobals 500000000 0 false 0)).
  left. vm_compute. reflexivity.
Defined.

(** X10. Whenever Chunk.build returns, it returns no chunk exactly when the
    two documents are equal. *)
Theorem build_empty_iff_equal wordChar now fuel (a b : Text) conf g chunks g' :
  Chunk_build wordChar now fuel a b conf g = Some (chunks, g') ->
  (chunks = [] <-> a = b).
Proof.
  unfold Chunk_build, bind, lift, diffIsPrecise.
  destruct (presentableDiff wordChar fuel now a b conf g) as [[r g1]|] eqn:Ed;
    [|discriminate].
  destruct (toChunks a b 0 0 (negb (crude g1)) r) as [cs|] eqn:Et; [|discriminate].
  intros E. inversion E; subst cs g1; clear E.
  apply presentableDiff_empty_iff in Ed. rewrite <- Ed.
  unfold toChunks in Et. destruct r as [|c r].
  - inversion Et. tauto.
  - split; [|discriminate]. intros ->. exfalso.
    destruct c as [cFromA cToA cFromB cToB].
    destruct (fromLine a b (cFromA + 0) (cFromB + 0)) as [[fromA fromB]|]; [|discriminate].
    destruct (toLine a b (cToA + 0) (cToB + 0)) as [[toA toB]|]; [|discriminate].
    clear - Et. revert Et. generalize [Change_offset (mkChange cFromA cToA cFromB cToB)
                                         (- fromA + 0) (- fromB + 0)].
    revert fromA toA fromB toB.
    induction r as [|next r IH]; intros fromA toA fromB toB chunk Et;
      cbn [toChunks_loop] in Et; [discriminate|].
    destruct next as [nFromA nToA nFromB nToB].
    destruct (fromLine a b (nFromA + 0) (nFromB + 0)) as [[nextA nextB]|]; [|discriminate].
    destruct (toLine a b (nToA + 0) (nToB + 0)) as [[toA' toB']|]; [|discriminate].
    destruct ((nextA >? toA + 1) && (nextB >? toB + 1)).
    + destruct (toChunks_loop _ _ _ _ _ _ _ _ _ _ r); discriminate.
    + eapply IH; eauto.
Qed.

Lemma build_empty_iff_equal_witness :
  [Chunk.mk [mkChange 0 5 0 5] 6 12 6 12 true] = [] <-> lines_2 = lines_Y.
Proof.
  apply (build_empty_iff_equal None (fun _ => 0) 8 lines_2 lines_Y noConfig initial
           [Chunk.mk [mkChange 0 5 0 5] 6 12 6 12 true]
           (mkGlobals 500000000 0 false 0)).
  vm_compute. reflexivity.
Defined.

(** X11. mergeAdjacent is idempotent: merging its result again with the same
    minGap changes nothing. *)
Theorem mergeAdjacent_idempotent (changes : list Change) (minGap : Z) :
  mergeAdjacent (mergeAdjacent changes minGap) minGap = mergeAdjacent changes minGap.
Proof. apply mergeAdjacent_fixed. apply mergeAdjacent_apart. Qed.

(** ** An empty side *)

Lemma normalize_single fuel a b (c : Change) :
  (1 <= fuel)%nat ->
  commonPrefix fuel a (fromA c) (toA c) b (fromB c) (toB c) = Some 0 ->
  commonSuffix fuel a (fromA c) (toA c) b (fromB c) (toB c) = Some 0 ->
  fromA c = 0 -> (toA c = fromA c \/ toB c = fromB c) ->
  normalize fuel a b [c] = Some [c].
Proof.
  intros Hfuel Hp Hs H0 Hlen. unfold normalize.
  destruct fuel as [|fuel]; [lia|]. cbn [normalize_loop mergeAdjacent mergeAdjacent_from
    normalize_pass]. unfold normalize_step. rewrite Hp. cbn [Z.eqb]. rewrite Hs.
  cbn [Z.eqb]. rewrite H0.
  destruct (negb (toA c - 0 =? 0) && negb (toB c - fromB c =? 0)) eqn:E.
  - exfalso. apply andb_true_iff in E. destruct E as [E1 E2].
    apply negb_true_iff in E1, E2. apply Z.eqb_neq in E1, E2. lia.
  - cbn. reflexivity.
Qed.

Lemma commonPrefix_none_left fuel a fromA toA b fromB toB :
  fromA = toA \/ fromA = toB -> commonPrefix fuel a fromA toA b fromB toB = Some 0.
Proof.
  intros H. unfold commonPrefix.
  destruct (Z.eqb_spec fromA toA); [reflexivity|].
  destruct (Z.eqb_spec fromA toB); [reflexivity|]. lia.
Qed.

Lemma commonSuffix_none_left fuel a fromA toA b fromB toB :
  fromA = toA \/ fromB = toB -> commonSuffix fuel a fromA toA b fromB toB = Some 0.
Proof.
  intros H. unfold commonSuffix.
  destruct (Z.eqb_spec fromA toA); [reflexivity|].
  destruct (Z.eqb_spec fromB toB); [reflexivity|]. lia.
Qed.

Lemma findDiff_body_one_side now fuel rec (a b : str) g :
  str_eqb a b = false -> slen a = 0 \/ slen b = 0 ->
  findDiff_body now fuel rec a 0 (slen a) b 0 (slen b) g
  = Some ([mkChange 0 (slen a) 0 (slen b)], g).
Proof.
  intros Hab Hz. unfold findDiff_body. rewrite Hab. unfold bind, lift.
  rewrite commonPrefix_none_left by lia.
  rewrite commonSuffix_none_left by lia.
  cbv beta iota zeta.
  replace ((slen a - 0 - (0 + 0) =? 0) || (slen b - 0 - (0 + 0) =? 0)) with true.
  - unfold ret. repeat f_equal; lia.
  - symmetry. apply orb_true_iff. rewrite !Z.eqb_eq. lia.
Qed.

(** X12. For a non-empty string a and every configuration, diff of a against
    the empty string returns the single change (0, a.length, 0, 0), and diff
    of the empty string against a the single change (0, 0, 0, a.length); one
    unit of fuel is enough. *)
Theorem diff_empty_side now fuel (a : str) config g :
  a <> [] -> (1 <= fuel)%nat ->
  result (diff now fuel a [] config g) = Some [mkChange 0 (slen a) 0 0]
  /\ result (diff now fuel [] a config g) = Some [mkChange 0 0 0 (slen a)].
Proof.
  intros Hne Hfuel.
  assert (Hab : str_eqb a [] = false) by (destruct a; [contradiction|reflexivity]).
  assert (Hba : str_eqb [] a = false) by (destruct a; [contradiction|reflexivity]).
  destruct fuel as [|fuel]; [lia|].
  unfold diff.
  destruct (match cfg_timeout config with
            | Some t => if t =? 0 then (0, ticks g) else (now (ticks g) + t, S (ticks g))
            | None => (0, ticks g)
            end) as [tm tk].
  split.
  - unfold bind. cbn [findDiff].
    rewrite (findDiff_body_one_side now (S fuel) _ a []) by (auto; right; reflexivity).
    unfold lift. rewrite normalize_single.
    all: cbn [fromA toA fromB toB slen length Z.of_nat]; try reflexivity; try lia.
    all: first [apply commonPrefix_none_left | apply commonSuffix_none_left]; lia.
  - unfold bind. cbn [findDiff].
    rewrite (findDiff_body_one_side now (S fuel) _ [] a) by (auto; left; reflexivity).
    unfold lift. rewrite normalize_single.
    all: cbn [fromA toA fromB toB slen length Z.of_nat]; try reflexivity; try lia.
    all: first [apply commonPrefix_none_left | apply commonSuffix_none_left]; lia.
Qed.

Lemma diff_empty_side_witness :
  result (diff (fun _ => 0) 1 hello_world [] noConfig initial)
  = Some [mkChange 0 (slen hello_world) 0 0]
  /\ result (diff (fun _ => 0) 1 [] hello_world noConfig initial)
     = Some [mkChange 0 0 0 (slen hello_world)].
Proof.
  apply (diff_empty_side (fun _ => 0) 1 hello_world noConfig initial);
    [discriminate | lia].
Defined.

(** ** [indexOf] *)

Lemma isPrefix_firstn (pat : str) : forall s,
  isPrefix pat s = true -> (length pat <= length s)%nat /\ firstn (length pat) s = pat.
Proof.
  induction pat as [|x pat IH]; intros s H.
  - split; [simpl; lia | reflexivity].
  - destruct s as [|y s]; [discriminate|]. cbn [isPrefix] in H.
    apply andb_true_iff in H. destruct H as [Hxy H]. apply Z.eqb_eq in Hxy. subst y.
    destruct (IH s H) as [Hl Hf]. split; [simpl; lia|]. simpl. now rewrite Hf.
Qed.

Lemma indexOf_from_sound (pat : str) (s : str) : forall pos r,
  indexOf_from pat s pos = r -> r <> -1 -> 0 <= pos ->
  pos <= r <= pos + slen s /\ isPrefix pat (skipn (Z.to_nat (r - pos)) s) = true.
Proof.
  induction s as [|x s IH]; intros pos r E Hr Hpos; cbn [indexOf_from] in E.
  - destruct (isPrefix pat []) eqn:Ep; [|congruence]. subst r.
    rewrite Z.sub_diag. unfold slen. simpl. split; [lia | exact Ep].
  - destruct (isPrefix pat (x :: s)) eqn:Ep.
    + subst r. rewrite Z.sub_diag. unfold slen. simpl length. split; [lia | exact Ep].
    + destruct (IH (pos + 1) r E Hr ltac:(lia)) as [Hb Hp].
      unfold slen in *. simpl length. split; [lia|].
      replace (Z.to_nat (r - pos)) with (S (Z.to_nat (r - (pos + 1)))) by lia.
      exact Hp.
Qed.

Lemma indexOf_sound (s pat : str) (start r : Z) :
  indexOf s pat start = r -> r <> -1 ->
  0 <= r /\ r + slen pat <= slen s /\ slice s r (r + slen pat) = pat.
Proof.
  unfold indexOf. intros E Hr.
  pose proof (slen_nonneg s) as Hs. pose proof (slen_nonneg pat) as Hp.
  set (k := Z.min (Z.max start 0) (slen s)) in *.
  assert (Hk : 0 <= k <= slen s) by (unfold k; lia).
  destruct (indexOf_from_sound pat (skipn (Z.to_nat k) s) k r E Hr ltac:(lia)) as [Hb Hpre].
  rewrite skipn_skipn in Hpre.
  replace (Z.to_nat (r - k) + Z.to_nat k)%nat with (Z.to_nat r) in Hpre by lia.
  assert (Hlen : slen (skipn (Z.to_nat k) s) = slen s - k).
  { unfold slen. rewrite length_skipn. unfold slen in Hk. lia. }
  destruct (isPrefix_firstn pat _ Hpre) as [Hl Hf].
  rewrite length_skipn in Hl.
  assert (H0 : 0 <= r) by lia.
  assert (H1 : r + slen pat <= slen s) by (unfold slen in *; lia).
  split; [exact H0|]. split; [exact H1|].
  rewrite slice_range by lia.
  replace (Z.to_nat (r + slen pat - r)) with (length pat) by (unfold slen; lia).
  exact Hf.
Qed.

(** ** Edit scripts of a range *)

Lemma editsIn_le (a b : str) (changes : list Change) : forall pA pB eA eB,
  editsIn a b pA pB eA eB changes -> pA <= eA /\ pB <= eB.
Proof.
  induction changes as [|c rest IH]; intros pA pB eA eB H; cbn [editsIn] in H.
  - lia.
  - destruct H as (H1 & H2 & H3 & H4 & H5 & H6 & H7). apply IH in H7. lia.
Qed.

Lemma editsIn_front (a b : str) (changes : list Change) (pA pB mA mB eA eB : Z) :
  editsIn a b mA mB eA eB changes ->
  pA <= mA -> mA - pA = mB - pB -> same a b pA pB (mA - pA) ->
  editsIn a b pA pB eA eB changes.
Proof.
  intros H Hle Heq Hs.
  assert (Hsame : forall n, 0 <= n -> same a b mA mB n -> same a b pA pB (n + (mA - pA))).
  { intros n Hn Hn'. rewrite Z.add_comm. apply same_app; [lia | exact Hs|].
    replace (pA + (mA - pA)) with mA by lia. replace (pB + (mA - pA)) with mB by lia.
    exact Hn'. }
  destruct changes as [|c rest]; cbn [editsIn] in *.
  - destruct H as (H1 & H2 & H3 & H4).
    split; [lia|]. split; [lia|]. split; [lia|].
    replace (eA - pA) with ((eA - mA) + (mA - pA)) by lia. apply Hsame; [lia | exact H4].
  - destruct H as (H1 & H2 & H3 & H4 & H5 & H6 & H7).
    split; [lia|]. split; [lia|]. split; [lia|]. split; [lia|]. split; [lia|].
    split; [|exact H7].
    replace (fromA c - pA) with ((fromA c - mA) + (mA - pA)) by lia.
    apply Hsame; [lia | exact H6].
Qed.

Lemma editsIn_back (a b : str) (changes : list Change) (n : Z) : forall pA pB eA eB,
  editsIn a b pA pB eA eB changes ->
  0 <= n -> same a b eA eB n ->
  editsIn a b pA pB (eA + n) (eB + n) changes.
Proof.
  induction changes as [|c rest IH]; intros pA pB eA eB H Hn Hs; cbn [editsIn] in *.
  - destruct H as (H1 & H2 & H3 & H4).
    split; [lia|]. split; [lia|]. split; [lia|].
    replace (eA + n - pA) with ((eA - pA) + n) by lia.
    apply same_app; [lia | exact H4|].
    replace (pA + (eA - pA)) with eA by lia. replace (pB + (eA - pA)) with eB by lia.
    exact Hs.
  - destruct H as (H1 & H2 & H3 & H4 & H5 & H6 & H7).
    split; [lia|]. split; [lia|]. split; [lia|]. split; [lia|]. split; [lia|].
    split; [exact H6|]. apply IH; assumption.
Qed.

Lemma editsIn_app (a b : str) (l1 l2 : list Change) (mA mB eA eB : Z) : forall pA pB,
  editsIn a b pA pB mA mB l1 -> editsIn a b mA mB eA eB l2 ->
  editsIn a b pA pB eA eB (l1 ++ l2).
Proof.
  induction l1 as [|c rest IH]; intros pA pB H1 H2.
  - cbn [editsIn app] in *. destruct H1 as (G1 & G2 & G3 & G4).
    eapply editsIn_front; eauto; lia.
  - cbn [editsIn app] in *. destruct H1 as (G1 & G2 & G3 & G4 & G5 & G6 & G7).
    split; [lia|]. split; [lia|]. split; [lia|]. split; [lia|]. split; [lia|].
    split; [exact G6|]. apply IH; assumption.
Qed.

Lemma editsIn_single (a b : str) (fA tA fB tB : Z) :
  fA <= tA -> fB <= tB -> editsIn a b fA fB tA tB [mkChange fA tA fB tB].
Proof.
  intros HA HB. cbn [editsIn fromA toA fromB toB].
  split; [lia|]. split; [lia|]. split; [lia|]. split; [lia|]. split; [lia|].
  split; [apply same_nil; lia|].
  split; [lia|]. split; [lia|]. split; [lia|]. apply same_nil; lia.
Qed.

Lemma editsIn_edits (a b : str) (changes : list Change) : forall pA pB,
  0 <= pA -> 0 <= pB ->
  editsIn a b pA pB (slen a) (slen b) changes -> edits a b pA pB changes.
Proof.
  induction changes as [|c rest IH]; intros pA pB HA HB H; cbn [editsIn edits] in *.
  - destruct H as (H1 & H2 & H3 & H4). repeat split; try lia. exact H4.
  - destruct H as (H1 & H2 & H3 & H4 & H5 & H6 & H7).
    split; [lia|]. split; [lia|]. split; [lia|]. split; [lia|]. split; [lia|].
    split; [exact H6|]. apply IH; [lia | lia | exact H7].
Qed.

(** ** Shared stretches *)

Lemma shared_swap (a b : str) (fromA toA fromB toB : Z) (m : Match) :
  shared b a fromB toB fromA toA m -> shared a b fromA toA fromB toB (swapMatch m).
Proof.
  destruct m as [[sB sA] len]. unfold shared, swapMatch.
  intros (H1 & H2 & H3 & H4 & H5 & H6).
  split; [lia|]. split; [lia|]. split; [lia|]. split; [lia|]. split; [lia|].
  apply same_sym. exact H6.
Qed.

Section FindMatchSound.
Variable fuel : nat.
Variables (a : str) (fromA toA : Z) (b : str) (fromB toB : Z).
Hypothesis Ha : noPairs a.
Hypothesis HA : 0 <= fromA <= toA /\ toA <= slen a.
Hypothesis HB : 0 <= fromB <= toB /\ toB <= slen b.

Lemma findMatch_occ_sound (start end_ : Z) :
  fromA <= start <= end_ -> end_ <= toA ->
  forall n found best r,
    sharedOrNone a b fromA toA fromB toB best ->
    findMatch_occ fuel a fromA toA b fromB toB n (slice b fromB toB)
                  (slice a start end_) start end_ found best = Some r ->
    sharedOrNone a b fromA toA fromB toB r.
Proof.
  intros Hs He.
  assert (Hseed : slen (slice a start end_) = end_ - start) by (apply slice_length; lia).
  induction n as [|n IH]; intros found best r Hbest E; [discriminate|].
  cbn [findMatch_occ] in E. cbv zeta in E.
  set (found' := indexOf (slice b fromB toB) (slice a start end_) (found + 1)) in *.
  destruct (found' =? -1) eqn:Ef.
  - inversion E; subst. exact Hbest.
  - apply Z.eqb_neq in Ef.
    destruct (indexOf_sound (slice b fromB toB) (slice a start end_) (found + 1) found'
                eq_refl Ef) as (F1 & F2 & F3).
    rewrite Hseed in *.
    rewrite (slice_length b fromB toB) in F2 by lia.
    rewrite slice_slice in F3 by lia.
    assert (Fs : same b a (fromB + found') start (end_ - start)).
    { apply slice_eq_same; try lia.
      replace (start + (end_ - start)) with end_ by lia.
      replace (fromB + found' + (end_ - start)) with (fromB + (found' + (end_ - start)))
        by lia.
      exact F3. }
    apply same_sym in Fs.
    destruct (commonPrefix fuel a end_ toA b (fromB + found' + (end_ - start)) toB)
      as [pa|] eqn:Ep; [|discriminate].
    destruct (commonSuffix fuel a fromA start b fromB (fromB + found'))
      as [sb|] eqn:Es; [|discriminate].
    destruct (commonPrefix_sound a end_ toA b (fromB + found' + (end_ - start)) toB
                ltac:(lia) ltac:(lia) fuel pa Ep) as (q & P1 & P2 & P3 & P4 & _ & P6).
    destruct (commonSuffix_sound a fromA start b fromB (fromB + found')
                ltac:(lia) ltac:(lia) fuel sb Es) as (q' & S1 & S2 & S3 & S4 & _ & S6).
    assert (pa = q) by (destruct P6 as [|[_ P6]]; [assumption | rewrite Ha in P6; discriminate]).
    assert (sb = q') by (destruct S6 as [|[_ S6]]; [assumption | rewrite Ha in S6; discriminate]).
    subst q q'.
    assert (Hnew : shared a b fromA toA fromB toB
                     (start - sb, fromB + found' - sb, end_ - start + pa + sb)).
    { unfold shared.
      split; [lia|]. split; [lia|]. split; [lia|]. split; [lia|]. split; [lia|].
      replace (end_ - start + pa + sb) with (sb + ((end_ - start) + pa)) by lia.
      apply same_app; [lia | exact S4|].
      replace (start - sb + sb) with start by lia.
      replace (fromB + found' - sb + sb) with (fromB + found') by lia.
      apply same_app; [lia | exact Fs|].
      replace (start + (end_ - start)) with end_ by lia. exact P4. }
    eapply IH; [|exact E].
    destruct best as [[[x y] l]|]; [|exact Hnew].
    destruct (l <? end_ - start + pa + sb); [exact Hnew | exact Hbest].
Qed.

Lemma findMatch_seeds_sound (size : Z) :
  0 <= size ->
  forall n start best r,
    fromA <= start ->
    sharedOrNone a b fromA toA fromB toB best ->
    findMatch_seeds fuel a fromA toA b fromB toB n (slice b fromB toB) size start best
      = Some r ->
    sharedOrNone a b fromA toA fromB toB r.
Proof.
  intros Hsize. induction n as [|n IH]; intros start best r Hs Hbest E; [discriminate|].
  cbn [findMatch_seeds] in E. rewrite !Ha in E. cbv zeta in E.
  destruct (start + size >=? toA) eqn:Ee.
  - inversion E; subst. exact Hbest.
  - destruct (findMatch_occ fuel a fromA toA b fromB toB fuel (slice b fromB toB)
                (slice a start (start + size)) start (start + size) (-1) best)
      as [best'|] eqn:Eo; [|discriminate].
    apply (IH (start + size) best' r); [lia | | exact E].
    eapply findMatch_occ_sound; [| | exact Hbest | exact Eo]; lia.
Qed.

Lemma findMatch_sizes_sound (divideTo : Z) :
  forall n size best r,
    0 <= size \/ 0 <= divideTo ->
    sharedOrNone a b fromA toA fromB toB best ->
    findMatch_sizes fuel a fromA toA b fromB toB n (slice b fromB toB) size divideTo best
      = Some r ->
    sharedOrNone a b fromA toA fromB toB r.
Proof.
  induction n as [|n IH]; intros size best r Hsize Hbest E; [discriminate|].
  cbn [findMatch_sizes] in E.
  destruct best as [m|]; [inversion E; subst; exact Hbest|].
  destruct (size <? divideTo) eqn:Ed; [inversion E; subst; exact I|].
  destruct (findMatch_seeds fuel a fromA toA b fromB toB fuel (slice b fromB toB) size
              (fromA + size) None) as [best'|] eqn:Es; [|discriminate].
  assert (Hs : 0 <= size) by lia.
  assert (Hb' : sharedOrNone a b fromA toA fromB toB best').
  { eapply findMatch_seeds_sound; [exact Hs | | | exact Es]; [lia | exact I]. }
  destruct (divideTo <? 0) eqn:E0.
  - inversion E; subst. exact Hb'.
  - eapply IH; [| exact Hb' | exact E]. right. lia.
Qed.

Lemma findMatch_sound (size divideTo : Z) (r : option Match) :
  0 <= size ->
  findMatch fuel a fromA toA b fromB toB size divideTo = Some r ->
  sharedOrNone a b fromA toA fromB toB r.
Proof.
  intros Hsize E. unfold findMatch in E.
  eapply findMatch_sizes_sound; [| | exact E]; [left; exact Hsize | exact I].
Qed.

Lemma findMatch_occ_long (start end_ : Z) :
  fromA <= start <= end_ -> end_ <= toA ->
  forall n found best r,
    longOrNone (end_ - start) best ->
    findMatch_occ fuel a fromA toA b fromB toB n (slice b fromB toB)
                  (slice a start end_) start end_ found best = Some r ->
    longOrNone (end_ - start) r.
Proof.
  intros Hs He.
  assert (Hseed : slen (slice a start end_) = end_ - start) by (apply slice_length; lia).
  induction n as [|n IH]; intros found best r Hbest E; [discriminate|].
  cbn [findMatch_occ] in E. cbv zeta in E.
  set (found' := indexOf (slice b fromB toB) (slice a start end_) (found + 1)) in *.
  destruct (found' =? -1) eqn:Ef.
  - inversion E; subst. exact Hbest.
  - apply Z.eqb_neq in Ef.
    destruct (indexOf_sound (slice b fromB toB) (slice a start end_) (found + 1) found'
                eq_refl Ef) as (F1 & F2 & _).
    rewrite Hseed in *.
    rewrite (slice_length b fromB toB) in F2 by lia.
    destruct (commonPrefix fuel a end_ toA b (fromB + found' + (end_ - start)) toB)
      as [pa|] eqn:Ep; [|discriminate].
    destruct (commonSuffix fuel a fromA start b fromB (fromB + found'))
      as [sb|] eqn:Es; [|discriminate].
    destruct (commonPrefix_sound a end_ toA b (fromB + found' + (end_ - start)) toB
                ltac:(lia) ltac:(lia) fuel pa Ep) as (q & P1 & _ & _ & _ & _ & P6).
    assert (pa = q) by (destruct P6 as [|[_ P6]]; [assumption | rewrite Ha in P6; discriminate]).
    subst q.
    pose proof (commonSuffix_nonneg a fromA start b fromB (fromB + found')
                  ltac:(lia) ltac:(lia) fuel sb Es) as S1.
    eapply IH; [|exact E].
    destruct best as [[[x y] l]|]; [|cbn [longOrNone]; lia].
    destruct (l <? end_ - start + pa + sb); [cbn [longOrNone]; lia | exact Hbest].
Qed.

Lemma findMatch_seeds_long (size : Z) :
  0 <= size ->
  forall n start best r,
    fromA <= start ->
    longOrNone size best ->
    findMatch_seeds fuel a fromA toA b fromB toB n (slice b fromB toB) size start best
      = Some r ->
    longOrNone size r.
Proof.
  intros Hsize. induction n as [|n IH]; intros start best r Hs Hbest E; [discriminate|].
  cbn [findMatch_seeds] in E. rewrite !Ha in E. cbv zeta in E.
  destruct (start + size >=? toA) eqn:Ee.
  - inversion E; subst. exact Hbest.
  - destruct (findMatch_occ fuel a fromA toA b fromB toB fuel (slice b fromB toB)
                (slice a start (start + size)) start (start + size) (-1) best)
      as [best'|] eqn:Eo; [|discriminate].
    apply (IH (start + size) best' r); [lia | | exact E].
    replace size with (start + size - start) at 1 by lia.
    eapply findMatch_occ_long; [| | | exact Eo]; try lia.
    replace (start + size - start) with size by lia. exact Hbest.
Qed.

Lemma findMatch_sizes_once_long (n : nat) (size : Z) (r : option Match) :
  0 <= size ->
  findMatch_sizes fuel a fromA toA b fromB toB n (slice b fromB toB) size (-1) None
    = Some r ->
  longOrNone size r.
Proof.
  intros Hsize E. destruct n as [|n]; [discriminate|].
  cbn [findMatch_sizes] in E.
  destruct (size <? -1) eqn:Ed; [inversion E; subst; exact I|].
  destruct (findMatch_seeds fuel a fromA toA b fromB toB fuel (slice b fromB toB) size
              (fromA + size) None) as [best'|] eqn:Es; [|discriminate].
  change (-1 <? 0) with true in E. cbv iota in E. inversion E; subst.
  eapply findMatch_seeds_long; [exact Hsize | | | exact Es]; [lia | exact I].
Qed.

Lemma findMatch_once_long (size : Z) (r : option Match) :
  0 <= size ->
  findMatch fuel a fromA toA b fromB toB size (-1) = Some r ->
  longOrNone size r.
Proof. intros Hsize E. exact (findMatch_sizes_once_long fuel size r Hsize E). Qed.
End FindMatchSound.

(** ** Results under an invariant of the module state *)

Lemma under_ret {A} (I : Globals -> Prop) (P : A -> Prop) (x : A) : P x -> under I P (ret x).
Proof. intros H g y g' Hg E. inversion E; subst. split; assumption. Qed.

Lemma under_bind {A B} (I : Globals -> Prop) (Q : A -> Prop) (P : B -> Prop)
      (m : M A) (k : A -> M B) :
  under I Q m -> (forall x, Q x -> under I P (k x)) -> under I P (bind m k).
Proof.
  intros Hm Hk g y g' Hg E. unfold bind in E.
  destruct (m g) as [[x g1]|] eqn:Em; [|discriminate].
  destruct (Hm g x g1 Hg Em) as [Hx Hg1]. exact (Hk x Hx g1 y g' Hg1 E).
Qed.

Lemma under_lift {A} (I : Globals -> Prop) (P : A -> Prop) (o : option A) :
  (forall x, o = Some x -> P x) -> under I P (lift o).
Proof.
  intros H g y g' Hg E. unfold lift in E. destruct o as [x|]; [|discriminate].
  inversion E; subst. split; [apply H; reflexivity | assumption].
Qed.

Lemma under_weaken {A} (I : Globals -> Prop) (P Q : A -> Prop) (m : M A) :
  under I P m -> (forall x, P x -> Q x) -> under I Q m.
Proof. intros H HPQ g y g' Hg E. destruct (H g y g' Hg E). split; auto. Qed.

Lemma noSearch_setCrude (now : nat -> Z) : under (noSearch now) (fun _ => True) setCrude.
Proof.
  intros g x g' Hg E. unfold setCrude in E. inversion E; subst.
  split; [exact I|]. exact Hg.
Qed.

Section Valid.
Variables (now : nat -> Z) (fuel : nat) (a b : str).
Hypothesis Ha : noPairs a.
Hypothesis Hb : noPairs b.
Hypothesis Hne : str_eqb a b = false.
Variable rec : str -> Z -> Z -> str -> Z -> Z -> M (list Change).
Hypothesis Hrec : forall fromA toA fromB toB,
  0 <= fromA <= toA -> toA <= slen a -> 0 <= fromB <= toB -> toB <= slen b ->
  under (noSearch now) (editsIn a b fromA fromB toA toB) (rec a fromA toA b fromB toB).

Lemma split_valid (fromA toA fromB toB : Z) (m : Match) :
  0 <= fromA <= toA -> toA <= slen a -> 0 <= fromB <= toB -> toB <= slen b ->
  shared a b fromA toA fromB toB m ->
  under (noSearch now) (editsIn a b fromA fromB toA toB)
        (let '(sharedA, sharedB, sharedLen) := m in
         l1 <- rec a fromA sharedA b fromB sharedB ;;
         l2 <- rec a (sharedA + sharedLen) toA b (sharedB + sharedLen) toB ;;
         ret (l1 ++ l2)).
Proof.
  intros HA HA' HB HB' Hm. destruct m as [[sA sB] len]. unfold shared in Hm.
  destruct Hm as (M1 & M2 & M3 & M4 & M5 & M6).
  eapply under_bind; [apply Hrec; lia|]. intros l1 H1.
  eapply under_bind; [apply Hrec; lia|]. intros l2 H2.
  apply under_ret. eapply editsIn_app; [exact H1|].
  eapply editsIn_front; [exact H2 | lia | lia |].
  replace (sA + len - sA) with len by lia. exact M6.
Qed.

Lemma crudeMatch_valid (fromA toA fromB toB : Z) :
  0 <= fromA <= toA -> toA <= slen a -> 0 <= fromB <= toB -> toB <= slen b ->
  under (noSearch now) (editsIn a b fromA fromB toA toB)
        (crudeMatch fuel rec a fromA toA b fromB toB).
Proof.
  intros HA HA' HB HB'. unfold crudeMatch.
  eapply under_bind; [apply noSearch_setCrude|]. intros _ _. cbv zeta.
  eapply under_bind with (Q := sharedOrNone a b fromA toA fromB toB).
  - apply under_lift. intros r Er.
    destruct (toA - fromA <? toB - fromB).
    + destruct (findMatch fuel b fromB toB a fromA toA ((toA - fromA) / 6) 50)
        as [r'|] eqn:Ef; [|discriminate].
      cbn [option_map] in Er. inversion Er; subst.
      apply (findMatch_sound fuel b fromB toB a fromA toA Hb ltac:(lia) ltac:(lia)) in Ef;
        [| apply Z.div_pos; lia].
      destruct r' as [m|]; [|exact I]. apply shared_swap. exact Ef.
    + apply (findMatch_sound fuel a fromA toA b fromB toB Ha ltac:(lia) ltac:(lia)) in Er;
        [exact Er | apply Z.div_pos; lia].
  - intros [m|] Hm.
    + apply (split_valid fromA toA fromB toB m); assumption.
    + apply under_ret. apply editsIn_single; lia.
Qed.

Lemma findSnake_valid (fromA toA fromB toB : Z) :
  0 <= fromA < toA -> toA <= slen a -> 0 <= fromB < toB -> toB <= slen b ->
  under (noSearch now) (editsIn a b fromA fromB toA toB)
        (findSnake now fuel rec a fromA toA b fromB toB).
Proof.
  intros HA HA' HB HB' g x g' Hg E.
  assert (Hwhole : editsIn a b fromA fromB toA toB [mkChange fromA toA fromB toB])
    by (apply editsIn_single; lia).
  assert (Hcrude : forall g1, noSearch now g1 ->
            crudeMatch fuel rec a fromA toA b fromB toB g1 = Some (x, g') ->
            editsIn a b fromA fromB toA toB x /\ noSearch now g')
    by (intros g1 Hg1 E1;
        exact (crudeMatch_valid fromA toA fromB toB ltac:(lia) HA' ltac:(lia) HB'
                 g1 x g' Hg1 E1)).
  unfold findSnake in E. cbv zeta in E. unfold bind at 1 in E.
  unfold getScanLimit at 1 in E. cbv beta iota in E.
  unfold bind at 1 in E.
  destruct ((scanLimit g <? 1000000000)
            && (Z.min (toA - fromA) (toB - fromB) >? scanLimit g * 16)) eqn:Et.
  - unfold ret at 1 in E. cbv beta iota in E.
    destruct (Z.min (toA - fromA) (toB - fromB) >? scanLimit g * 64).
    + inversion E; subst. split; [exact Hwhole | exact Hg].
    + exact (Hcrude g Hg E).
  - destruct Hg as [Hsl | [Htm Hclock]].
    + rewrite Hsl in Et. simpl in Et.
      assert ((Z.min (toA - fromA) (toB - fromB) >? 0) = true) by lia. congruence.
    + unfold timedOut, bind, getTimeout, dateNow, ret in E.
      assert (Hgt : (timeout g >? 0) = true) by lia. rewrite Hgt in E.
      assert (Hlate : (now (ticks g) >? timeout g) = true)
        by (pose proof (Hclock (ticks g) ltac:(lia)); lia).
      rewrite Hlate in E.
      set (g1 := mkGlobals (scanLimit g) (timeout g) (crude g) (S (ticks g))) in *.
      assert (Hg1 : noSearch now g1).
      { right. unfold g1. cbn [timeout ticks]. split; [exact Htm|].
        intros n Hn. apply Hclock. lia. }
      cbn [scanLimit] in E.
      destruct (Z.min (toA - fromA) (toB - fromB) >? scanLimit g1 * 64) eqn:E64.
      * unfold g1 in E64. cbn [scanLimit] in E64. rewrite E64 in E.
        inversion E; subst. split; [exact Hwhole | exact Hg1].
      * unfold g1 in E64. cbn [scanLimit] in E64. rewrite E64 in E.
        exact (Hcrude g1 Hg1 E).
Qed.

Lemma halfMatch_sound (fromA toA fromB toB : Z) (r : option Match) :
  0 <= fromA <= toA -> toA <= slen a -> 0 <= fromB <= toB -> toB <= slen b ->
  halfMatch fuel a fromA toA b fromB toB = Some r ->
  sharedOrNone a b fromA toA fromB toB r.
Proof.
  intros HA HA' HB HB' E. unfold halfMatch in E. cbv zeta in E.
  destruct (toA - fromA <? toB - fromB).
  - destruct ((toB - fromB <? 4) || ((toA - fromA) * 2 <? toB - fromB));
      [inversion E; subst; exact I|].
    destruct (findMatch fuel b fromB toB a fromA toA ((toB - fromB) / 4) (-1))
      as [r'|] eqn:Ef; [|discriminate].
    cbn [option_map] in E. inversion E; subst.
    apply (findMatch_sound fuel b fromB toB a fromA toA Hb ltac:(lia) ltac:(lia)) in Ef;
      [| apply Z.div_pos; lia].
    destruct r' as [m|]; [|exact I]. apply shared_swap. exact Ef.
  - destruct ((toA - fromA <? 4) || ((toB - fromB) * 2 <? toA - fromA));
      [inversion E; subst; exact I|].
    apply (findMatch_sound fuel a fromA toA b fromB toB Ha ltac:(lia) ltac:(lia)) in E;
      [exact E | apply Z.div_pos; lia].
Qed.

Lemma findDiff_core_valid (fA tA fB tB : Z) :
  0 <= fA <= tA -> tA <= slen a -> 0 <= fB <= tB -> tB <= slen b ->
  under (noSearch now) (editsIn a b fA fB tA tB)
    (let lenA := tA - fA in
     let lenB := tB - fB in
     if (lenA =? 0) || (lenB =? 0) then ret [mkChange fA tA fB tB]
     else
       let found :=
         if lenA >? lenB then indexOf (slice a fA tA) (slice b fB tB) 0
         else if lenB >? lenA then indexOf (slice b fB tB) (slice a fA tA) 0
         else -1 in
       if (lenA >? lenB) && (found >? -1) then
         ret [mkChange fA (fA + found) fB fB;
              mkChange (fA + found + lenB) tA tB tB]
       else if (lenB >? lenA) && (found >? -1) then
         ret [mkChange fA fA fB (fB + found);
              mkChange tA tA (fB + found + lenA) tB]
       else if (lenA =? 1) || (lenB =? 1) then ret [mkChange fA tA fB tB]
       else
         half <- lift (halfMatch fuel a fA tA b fB tB) ;;
         match half with
         | Some (sharedA, sharedB, sharedLen) =>
             l1 <- rec a fA sharedA b fB sharedB ;;
             l2 <- rec a (sharedA + sharedLen) tA b (sharedB + sharedLen) tB ;;
             ret (l1 ++ l2)
         | None => findSnake now fuel rec a fA tA b fB tB
         end).
Proof.
  intros HA HA' HB HB'. cbv zeta.
  assert (Hwhole : editsIn a b fA fB tA tB [mkChange fA tA fB tB])
    by (apply editsIn_single; lia).
  destruct ((tA - fA =? 0) || (tB - fB =? 0)) eqn:E0; [apply under_ret; exact Hwhole|].
  apply orb_false_iff in E0. destruct E0 as [E0a E0b].
  apply Z.eqb_neq in E0a. apply Z.eqb_neq in E0b.
  destruct (tA - fA >? tB - fB) eqn:Eab.
  - (* the text of b may lie inside the text of a *)
    set (found := indexOf (slice a fA tA) (slice b fB tB) 0).
    destruct (found >? -1) eqn:Ef; cbn [andb].
    + destruct (indexOf_sound (slice a fA tA) (slice b fB tB) 0 found eq_refl ltac:(lia))
        as (F1 & F2 & F3).
      rewrite !slice_length in F2 by lia. rewrite slice_length in F3 by lia.
      rewrite slice_slice in F3 by lia.
      assert (Fs : same a b (fA + found) fB (tB - fB)).
      { apply slice_eq_same; try lia.
        replace (fA + found + (tB - fB)) with (fA + (found + (tB - fB))) by lia.
        replace (fB + (tB - fB)) with tB by lia. exact F3. }
      apply under_ret. cbn [editsIn fromA toA fromB toB].
      split; [lia|]. split; [lia|]. split; [lia|]. split; [lia|]. split; [lia|].
      split; [apply same_nil; lia|].
      split; [lia|]. split; [lia|]. split; [lia|]. split; [lia|]. split; [lia|].
      split; [replace (fA + found + (tB - fB) - (fA + found)) with (tB - fB) by lia;
              exact Fs|].
      split; [lia|]. split; [lia|]. split; [lia|]. apply same_nil; lia.
    + assert (Eba : (tB - fB >? tA - fA) = false) by lia. rewrite Eba. cbn [andb].
      destruct ((tA - fA =? 1) || (tB - fB =? 1)); [apply under_ret; exact Hwhole|].
      eapply under_bind with (Q := sharedOrNone a b fA tA fB tB).
      * apply under_lift. intros r Er. eapply halfMatch_sound; eauto.
      * intros [m|] Hm.
        -- apply (split_valid fA tA fB tB m); assumption.
        -- apply findSnake_valid; lia.
  - cbn [andb].
    destruct (tB - fB >? tA - fA) eqn:Eba.
    + set (found := indexOf (slice b fB tB) (slice a fA tA) 0).
      destruct (found >? -1) eqn:Ef; cbn [andb].
      * destruct (indexOf_sound (slice b fB tB) (slice a fA tA) 0 found eq_refl ltac:(lia))
          as (F1 & F2 & F3).
        rewrite !slice_length in F2 by lia. rewrite slice_length in F3 by lia.
        rewrite slice_slice in F3 by lia.
        assert (Fs : same b a (fB + found) fA (tA - fA)).
        { apply slice_eq_same; try lia.
          replace (fB + found + (tA - fA)) with (fB + (found + (tA - fA))) by lia.
          replace (fA + (tA - fA)) with tA by lia. exact F3. }
        apply same_sym in Fs.
        apply under_ret. cbn [editsIn fromA toA fromB toB].
        split; [lia|]. split; [lia|]. split; [lia|]. split; [lia|]. split; [lia|].
        split; [apply same_nil; lia|].
        split; [lia|]. split; [lia|]. split; [lia|]. split; [lia|]. split; [lia|].
        split; [exact Fs|].
        split; [lia|]. split; [lia|]. split; [lia|]. apply same_nil; lia.
      * destruct ((tA - fA =? 1) || (tB - fB =? 1)); [apply under_ret; exact Hwhole|].
        eapply under_bind with (Q := sharedOrNone a b fA tA fB tB).
        -- apply under_lift. intros r Er. eapply halfMatch_sound; eauto.
        -- intros [m|] Hm.
           ++ apply (split_valid fA tA fB tB m); assumption.
           ++ apply findSnake_valid; lia.
    + cbn [andb].
      destruct ((tA - fA =? 1) || (tB - fB =? 1)); [apply under_ret; exact Hwhole|].
      eapply under_bind with (Q := sharedOrNone a b fA tA fB tB).
      * apply under_lift. intros r Er. eapply halfMatch_sound; eauto.
      * intros [m|] Hm.
        -- apply (split_valid fA tA fB tB m); assumption.
        -- apply findSnake_valid; lia.
Qed.

Lemma findDiff_body_valid (fromA toA fromB toB : Z) :
  0 <= fromA <= toA -> toA <= slen a -> 0 <= fromB <= toB -> toB <= slen b ->
  under (noSearch now) (editsIn a b fromA fromB toA toB)
        (findDiff_body now fuel rec a fromA toA b fromB toB).
Proof.
  intros HA HA' HB HB'. unfold findDiff_body. rewrite Hne.
  eapply under_bind with
    (Q := fun p => 0 <= p /\ p <= toA - fromA /\ p <= toB - fromB
                   /\ same a b fromA fromB p).
  { apply under_lift. intros p Ep.
    destruct (commonPrefix_sound a fromA toA b fromB toB ltac:(lia) ltac:(lia) fuel p Ep)
      as (q & P1 & P2 & P3 & P4 & _ & P6).
    assert (p = q)
      by (destruct P6 as [|[_ P6]]; [assumption | rewrite Ha in P6; discriminate]).
    subst q. auto. }
  intros p (P1 & P2 & P3 & P4).
  eapply under_bind with
    (Q := fun s => 0 <= s /\ s <= toA - (fromA + p) /\ s <= toB - (fromB + p)
                   /\ same a b (toA - s) (toB - s) s).
  { apply under_lift. intros s Es.
    destruct (commonSuffix_sound a (fromA + p) toA b (fromB + p) toB
                ltac:(lia) ltac:(lia) fuel s Es) as (q & S1 & S2 & S3 & S4 & _ & S6).
    assert (s = q)
      by (destruct S6 as [|[_ S6]]; [assumption | rewrite Ha in S6; discriminate]).
    subst q. auto. }
  intros s (S1 & S2 & S3 & S4).
  eapply under_weaken.
  - apply (findDiff_core_valid (fromA + p) (toA - s) (fromB + p) (toB - s)); lia.
  - intros l Hl. cbv beta in Hl.
    apply (editsIn_back a b l s) in Hl; [| lia | exact S4].
    replace (toA - s + s) with toA in Hl by lia.
    replace (toB - s + s) with toB in Hl by lia.
    eapply editsIn_front; [exact Hl | lia | lia |].
    replace (fromA + p - fromA) with p by lia. exact P4.
Qed.
End Valid.

Lemma findDiff_valid (now : nat -> Z) (fuel : nat) (a b : str) :
  noPairs a -> noPairs b -> str_eqb a b = false ->
  forall n fromA toA fromB toB,
    0 <= fromA <= toA -> toA <= slen a -> 0 <= fromB <= toB -> toB <= slen b ->
    under (noSearch now) (editsIn a b fromA fromB toA toB)
          (findDiff now fuel n a fromA toA b fromB toB).
Proof.
  intros Ha Hb Hne. induction n as [|n IH]; intros fromA toA fromB toB HA HA' HB HB'.
  - intros g x g' _ E. discriminate.
  - cbn [findDiff]. apply findDiff_body_valid; auto.
Qed.

Lemma str_eqb_true (s t : str) : str_eqb s t = true -> s = t.
Proof.
  revert t. induction s as [|x s IH]; intros [|y t] H; try discriminate; [reflexivity|].
  cbn [str_eqb] in H. apply andb_true_iff in H. destruct H as [H1 H2].
  apply Z.eqb_eq in H1. subst. f_equal. auto.
Qed.

Lemma sar32_zero_one (s : Z) : s = 0 \/ s = 1 -> sar32 s 1 = 0.
Proof. intros [-> | ->]; reflexivity. Qed.

Lemma diff_without_search_edits (now : nat -> Z) (fuel : nat) (a b : str)
      (config : DiffConfig) (g g' : Globals) (changes : list Change) :
  noPairs a -> noPairs b ->
  searchOff now config g ->
  diff now fuel a b config g = Some (changes, g') ->
  edits a b 0 0 changes.
Proof.
  intros Ha Hb Hoff E. unfold diff in E.
  set (sl := sar32 _ 1) in E.
  set (st := match cfg_timeout config with
             | Some t => if t =? 0 then (0, ticks g) else (now (ticks g) + t, S (ticks g))
             | None => (0, ticks g)
             end) in E.
  destruct st as [tm tk] eqn:Est.
  assert (Hg0 : noSearch now (mkGlobals sl tm false tk)).
  { destruct Hoff as [H0 | [H1 | (t & Ht & Ht0 & Hpos & Hclock)]].
    - left. cbn [scanLimit]. unfold sl. rewrite H0. reflexivity.
    - left. cbn [scanLimit]. unfold sl. rewrite H1. reflexivity.
    - right. unfold st in Est. rewrite Ht in Est.
      apply Z.eqb_neq in Ht0. rewrite Ht0 in Est. inversion Est; subst tm tk.
      cbn [timeout ticks]. split; [lia|]. intros n Hn. apply Hclock. lia. }
  unfold bind in E.
  destruct (findDiff now fuel fuel a 0 (slen a) b 0 (slen b) (mkGlobals sl tm false tk))
    as [[l g1]|] eqn:Ef; [|discriminate].
  unfold lift in E. destruct (normalize fuel a b l) as [l'|] eqn:En; [|discriminate].
  inversion E; subst l' g1. clear E.
  pose proof (slen_nonneg a) as Hla. pose proof (slen_nonneg b) as Hlb.
  assert (Hl : edits a b 0 0 l).
  { destruct (str_eqb a b) eqn:Eab.
    - apply str_eqb_true in Eab. subst b.
      apply findDiff_same in Ef. subst l. cbn [edits].
      split; [lia|]. split; [lia|]. split; [lia|]. apply same_refl.
    - apply editsIn_edits; [lia | lia |].
      exact (proj1 (findDiff_valid now fuel a b Ha Hb Eab fuel 0 (slen a) 0 (slen b)
                      ltac:(lia) ltac:(lia) ltac:(lia) ltac:(lia) _ _ _ Hg0 Ef)). }
  unfold normalize in En.
  exact (normalize_loop_edits fuel a b fuel Ha l changes Hl En).
Qed.

(** X13. For strings without surrogate pairs, when the Myers search cannot
    start (scanLimit 0 or 1, or a timeout whose deadline lies behind every
    later reading of the clock), every result of diff is an edit script from
    a to b: the changes lie inside the strings, in ascending order and
    disjoint, the text before, between and after them is equal, and applying
    them to a gives b. *)
Theorem diff_valid_without_search (now : nat -> Z) (fuel : nat) (a b : str)
        (config : DiffConfig) (g g' : Globals) (changes : list Change) :
  noPairs a -> noPairs b ->
  searchOff now config g ->
  diff now fuel a b config g = Some (changes, g') ->
  edits a b 0 0 changes /\ patch a b 0 changes = b.
Proof.
  intros Ha Hb Hoff E.
  pose proof (diff_without_search_edits now fuel a b config g g' changes Ha Hb Hoff E) as H.
  split; [exact H|]. rewrite (edits_patch _ _ _ _ _ H). apply sliceFrom_zero.
Qed.

Lemma diff_valid_without_search_witness :
  edits abcd wxyz 0 0 [mkChange 0 4 0 4]
  /\ patch abcd wxyz 0 [mkChange 0 4 0 4] = wxyz.
Proof.
  apply (diff_valid_without_search (fun n => 100 * Z.of_nat n) 30 abcd wxyz
           (mkConfig None (Some 5)) initial (mkGlobals 500000000 5 true 2)).
  - apply noPairs_plain. reflexivity.
  - apply noPairs_plain. reflexivity.
  - right. right. exists 5. split; [reflexivity|]. split; [lia|].
    unfold initial; cbn [ticks]. split; [lia|]. intros n Hn. lia.
  - vm_compute. reflexivity.
Defined.

Lemma halfMatch_long (fuel : nat) (a : str) (fromA toA : Z) (b : str) (fromB toB : Z)
      (r : option Match) :
  noPairs a -> noPairs b ->
  0 <= fromA <= toA -> toA <= slen a -> 0 <= fromB <= toB -> toB <= slen b ->
  halfMatch fuel a fromA toA b fromB toB = Some r ->
  longOrNone (Z.max (toA - fromA) (toB - fromB) / 4) r.
Proof.
  intros Ha Hb HA HA' HB HB' E. unfold halfMatch in E. cbv zeta in E.
  destruct (toA - fromA <? toB - fromB) eqn:El.
  - rewrite Z.max_r by lia.
    destruct ((toB - fromB <? 4) || ((toA - fromA) * 2 <? toB - fromB));
      [inversion E; subst; exact I|].
    destruct (findMatch fuel b fromB toB a fromA toA ((toB - fromB) / 4) (-1))
      as [r'|] eqn:Ef; [|discriminate].
    cbn [option_map] in E. inversion E; subst.
    apply (findMatch_once_long fuel b fromB toB a fromA toA Hb ltac:(lia) ltac:(lia)) in Ef;
      [| apply Z.div_pos; lia].
    destruct r' as [[[x y] l]|]; [|exact I]. exact Ef.
  - rewrite Z.max_l by lia.
    destruct ((toA - fromA <? 4) || ((toB - fromB) * 2 <? toA - fromA));
      [inversion E; subst; exact I|].
    apply (findMatch_once_long fuel a fromA toA b fromB toB Ha ltac:(lia) ltac:(lia)) in E;
      [exact E | apply Z.div_pos; lia].
Qed.

(** X14. For strings without surrogate pairs and bounds inside them, a
    result [sharedA, sharedB, sharedLen] of halfMatch lies within both
    ranges, the sharedLen units of a from sharedA are the units of b from
    sharedB, and sharedLen is at least a quarter of the longer range
    (rounded down, and at least 1). *)
Theorem halfMatch_shared (fuel : nat) (a : str) (fromA toA : Z) (b : str) (fromB toB : Z)
        (sharedA sharedB sharedLen : Z) :
  noPairs a -> noPairs b ->
  0 <= fromA <= toA -> toA <= slen a -> 0 <= fromB <= toB -> toB <= slen b ->
  halfMatch fuel a fromA toA b fromB toB = Some (Some (sharedA, sharedB, sharedLen)) ->
  fromA <= sharedA /\ sharedA + sharedLen <= toA
  /\ fromB <= sharedB /\ sharedB + sharedLen <= toB
  /\ same a b sharedA sharedB sharedLen
  /\ 1 <= Z.max (toA - fromA) (toB - fromB) / 4 <= sharedLen.
Proof.
  intros Ha Hb HA HA' HB HB' E.
  pose proof (halfMatch_sound fuel a b Ha Hb fromA toA fromB toB _ HA HA' HB HB' E) as Hs.
  pose proof (halfMatch_long fuel a fromA toA b fromB toB _ Ha Hb HA HA' HB HB' E) as Hl.
  cbn [sharedOrNone shared longOrNone] in Hs, Hl.
  destruct Hs as (S1 & S2 & S3 & S4 & S5 & S6).
  split; [lia|]. split; [lia|]. split; [lia|]. split; [lia|]. split; [exact S6|].
  split; [|exact Hl].
  unfold halfMatch in E. cbv zeta in E.
  destruct (toA - fromA <? toB - fromB) eqn:El.
  - destruct ((toB - fromB <? 4) || ((toA - fromA) * 2 <? toB - fromB)) eqn:Et;
      [discriminate|].
    apply orb_false_iff in Et. destruct Et as [Et _].
    rewrite Z.max_r by lia. apply Z.div_le_lower_bound; lia.
  - destruct ((toA - fromA <? 4) || ((toB - fromB) * 2 <? toA - fromA)) eqn:Et;
      [discriminate|].
    apply orb_false_iff in Et. destruct Et as [Et _].
    rewrite Z.max_l by lia. apply Z.div_le_lower_bound; lia.
Qed.

Lemma halfMatch_shared_witness :
  6 <= 8 /\ 8 + 1 <= 11
  /\ 6 <= 9 /\ 9 + 1 <= 11
  /\ same hello_world hello_there 8 9 1
  /\ 1 <= Z.max (11 - 6) (11 - 6) / 4 <= 1.
Proof.
  apply (halfMatch_shared 30 hello_world 6 11 hello_there 6 11 8 9 1).
  - apply noPairs_plain. reflexivity.
  - apply noPairs_plain. reflexivity.
  - lia.
  - vm_compute. discriminate.
  - lia.
  - vm_compute. discriminate.
  - vm_compute. reflexivity.
Defined.

(** ** Moving and widening one change *)

Lemma shift_left_edits (a b : str) (pA pB fA tA fB tB n : Z) (rest : list Change) :
  edits a b pA pB (mkChange fA tA fB tB :: rest) ->
  0 <= n <= fA - pA ->
  (tA = fA /\ n <= tB - fB /\ same a b (fA - n) (tB - n) n)
  \/ (tB = fB /\ n <= tA - fA /\ same a a (fA - n) (tA - n) n) ->
  edits a b pA pB (mkChange (fA - n) (tA - n) (fB - n) (tB - n) :: rest).
Proof.
  intros H Hn Hc. cbn [edits fromA toA fromB toB] in *.
  destruct H as (H1 & H2 & HcA & HcB & Hg & Hs & Hrest).
  pose proof (edits_bounds _ _ _ _ _ Hrest) as [HtA HtB].
  split; [lia|]. split; [lia|]. split; [lia|]. split; [lia|]. split; [lia|].
  split.
  - replace (fA - n - pA) with (fA - pA - n) by lia.
    replace pA with (pA + 0) at 1 by lia. replace pB with (pB + 0) at 1 by lia.
    apply (same_sub a b pA pB (fA - pA)); [exact Hs|lia|lia].
  - apply edits_front_extend; try lia; auto.
    destruct Hc as [(-> & Hl & Hc)|(-> & Hl & Hc)].
    + exact Hc.
    + intros i Hi. rewrite <- (Hc i) by lia.
      replace (fB - n + i) with (pB + (fA - pA - n + i)) by lia.
      replace (fA - n + i) with (pA + (fA - pA - n + i)) by lia.
      apply Hs. lia.
Qed.

Lemma shift_right_edits (a b : str) (pA pB fA tA fB tB n : Z) (rest : list Change) :
  edits a b pA pB (mkChange fA tA fB tB :: rest) ->
  0 <= n <= nextFromA a rest - tA ->
  (tA = fA /\ n <= tB - fB /\ same a b tA fB n)
  \/ (tB = fB /\ n <= tA - fA /\ same a a tA fA n) ->
  edits a b pA pB (mkChange (fA + n) (tA + n) (fB + n) (tB + n) :: rest).
Proof.
  intros H Hn Hc. cbn [edits fromA toA fromB toB] in *.
  destruct H as (H1 & H2 & HcA & HcB & Hg & Hs & Hrest).
  pose proof (edits_next _ _ _ _ _ Hrest) as (Hn1 & Hn2 & Hn3 & Hn4 & Hn5).
  split; [lia|]. split; [lia|]. split; [lia|]. split; [lia|]. split; [lia|].
  split.
  - replace (fA + n - pA) with (fA - pA + n) by lia.
    apply same_app; [lia|exact Hs|].
    replace (pA + (fA - pA)) with fA by lia. replace (pB + (fA - pA)) with fB by lia.
    destruct Hc as [(-> & Hl & Hc)|(-> & Hl & Hc)].
    + exact Hc.
    + intros i Hi. rewrite <- (Hc i) by lia. apply Hn5. lia.
  - apply edits_front_shrink; try lia; auto.
Qed.

Lemma widen_edits (a b : str) (pA pB fA tA fB tB lb la : Z) (rest : list Change) :
  edits a b pA pB (mkChange fA tA fB tB :: rest) ->
  0 <= lb <= fA - pA -> 0 <= la <= nextFromA a rest - tA ->
  edits a b pA pB (mkChange (fA - lb) (tA + la) (fB - lb) (tB + la) :: rest).
Proof.
  intros H Hlb Hla. cbn [edits fromA toA fromB toB] in *.
  destruct H as (H1 & H2 & HcA & HcB & Hg & Hs & Hrest).
  pose proof (edits_next _ _ _ _ _ Hrest) as (Hn1 & Hn2 & Hn3 & Hn4 & Hn5).
  split; [lia|]. split; [lia|]. split; [lia|]. split; [lia|]. split; [lia|].
  split.
  - replace (fA - lb - pA) with (fA - pA - lb) by lia.
    replace pA with (pA + 0) at 1 by lia. replace pB with (pB + 0) at 1 by lia.
    apply (same_sub a b pA pB (fA - pA)); [exact Hs|lia|lia].
  - apply edits_front_shrink; try lia; auto.
Qed.

(** ** Line breaks *)

Lemma findLineBreakAfter_loop_none (s : str) (n : nat) : forall pos stop r,
  noBreaks s -> findLineBreakAfter_loop n s pos stop = Some r -> r = -1.
Proof.
  induction n as [|n IH]; intros pos stop r Hs E; cbn [findLineBreakAfter_loop] in E;
    [discriminate|].
  destruct (pos =? stop); [now inversion E|].
  rewrite Hs in E. eapply IH; eauto.
Qed.

Lemma alignToLine_noBreaks (fuel : nat) (s : str) (from to mb ma : Z) (c c' : Change) :
  noBreaks s -> alignToLine fuel s from to mb ma c = Some c' -> c' = c.
Proof.
  intros Hs. unfold alignToLine.
  destruct (findLineBreakAfter fuel s from to) as [first|] eqn:Ef; [|discriminate].
  apply findLineBreakAfter_loop_none in Ef; [|exact Hs]. subst first.
  cbn. intros E. now inversion E.
Qed.

(** ** [makePresentable] *)

Lemma presentChange_edits (wordChar : option (str -> bool)) (fuel : nat) (a b : str)
      (pA pB : Z) (c : Change) (rest : list Change) (c' : Change) :
  noBreaks a -> noBreaks b ->
  edits a b pA pB (c :: rest) ->
  presentChange wordChar fuel a b pA (nextFromA a rest) c = Some c' ->
  edits a b pA pB (c' :: rest).
Proof.
  intros Hna Hnb H E. destruct c as [fA tA fB tB].
  pose proof H as H0. cbn [edits fromA toA fromB toB] in H0.
  destruct H0 as (H1 & H2 & HcA & HcB & Hg & Hs & Hrest).
  pose proof (edits_next _ _ _ _ _ Hrest) as (Hn1 & Hn2 & Hn3 & Hn4 & Hn5).
  unfold presentChange in E. cbn [fromA toA fromB toB] in E.
  pose proof (findWordBoundaryBefore_bounds wordChar a fA (fA - pA) ltac:(lia)) as HbB.
  pose proof (findWordBoundaryAfter_bounds wordChar a tA (nextFromA a rest - tA) ltac:(lia))
    as HbA.
  set (boundBefore := findWordBoundaryBefore wordChar a fA (fA - pA)) in *.
  set (boundAfter := findWordBoundaryAfter wordChar a tA (nextFromA a rest - tA)) in *.
  (* the change after the optional move, with the lengths to widen it by *)
  match type of E with
  | match ?moved with _ => _ end = _ =>
      assert (Hm : exists m lb la,
                 moved = (m, lb, la)
                 /\ edits a b pA pB (m :: rest)
                 /\ 0 <= lb <= fromA m - pA /\ 0 <= la <= nextFromA a rest - toA m
                 /\ ((toA m - fromA m = tA - fA /\ toB m - fromB m = tB - fB)));
      [|destruct Hm as (m & lb & la & Hmeq & Hm & Hlb & Hla & Hlen); rewrite Hmeq in E]
  end.
  { destruct (((tA - fA =? 0) || (tB - fB =? 0)) && negb (fA - boundBefore =? 0)
              && negb (boundAfter - tA =? 0)) eqn:Epure.
    2:{ eexists _, _, _. split; [reflexivity|]. cbn [fromA toA fromB toB].
        split; [exact H|]. lia. }
    apply andb_true_iff in Epure. destruct Epure as [Epure Ela].
    apply andb_true_iff in Epure. destruct Epure as [Epure Elb].
    apply orb_true_iff in Epure. rewrite !Z.eqb_eq in Epure.
    destruct (Z.eqb_spec (tA - fA) 0) as [HlA|HlA]; cbn [negb].
    - (* an insertion *)
      destruct ((Z.max (tA - fA) (tB - fB) >? fA - boundBefore)
                && str_eqb (slice a boundBefore fA) (slice b (tB - (fA - boundBefore)) tB))
        eqn:Eleft.
      + apply andb_true_iff in Eleft. destruct Eleft as [El1 El2].
        rewrite Z.gtb_ltb, Z.ltb_lt in El1.
        apply str_eqb_slices in El2; try lia. destruct El2 as [_ El2].
        cbn [fromA toA fromB toB].
        assert (Hm : edits a b pA pB
                       (mkChange boundBefore (boundBefore + (tA - fA))
                                 (fB - (fA - boundBefore)) (tB - (fA - boundBefore)) :: rest)).
        { replace boundBefore with (fA - (fA - boundBefore)) at 1 2 by lia.
          replace (fA - (fA - boundBefore) + (tA - fA)) with (tA - (fA - boundBefore)) by lia.
          apply shift_left_edits; [exact H|lia|]. left. split; [lia|]. split; [lia|].
          replace (fA - (fA - boundBefore)) with boundBefore by lia. exact El2. }
        pose proof (findWordBoundaryAfter_bounds wordChar a (boundBefore + (tA - fA))
                      (nextFromA a rest - (boundBefore + (tA - fA))) ltac:(lia)).
        eexists _, _, _. split; [reflexivity|]. cbn [fromA toA fromB toB].
        split; [exact Hm|]. lia.
      + destruct ((Z.max (tA - fA) (tB - fB) >? boundAfter - tA)
                  && str_eqb (slice a tA boundAfter) (slice b fB (fB + (boundAfter - tA))))
          eqn:Eright.
        * apply andb_true_iff in Eright. destruct Eright as [Er1 Er2].
          rewrite Z.gtb_ltb, Z.ltb_lt in Er1.
          apply str_eqb_slices in Er2; try lia. destruct Er2 as [_ Er2].
          cbn [fromA toA fromB toB].
          assert (Hm : edits a b pA pB
                         (mkChange (boundAfter - (tA - fA)) boundAfter
                                   (fB + (boundAfter - tA)) (tB + (boundAfter - tA)) :: rest)).
          { replace boundAfter with (tA + (boundAfter - tA)) at 2 by lia.
            replace (boundAfter - (tA - fA)) with (fA + (boundAfter - tA)) by lia.
            apply shift_right_edits; [exact H|lia|]. left. split; [lia|]. split; [lia|].
            exact Er2. }
          pose proof (findWordBoundaryBefore_bounds wordChar a (boundAfter - (tA - fA))
                        (boundAfter - (tA - fA) - pA) ltac:(lia)).
          eexists _, _, _. split; [reflexivity|]. cbn [fromA toA fromB toB].
          split; [exact Hm|]. lia.
        * eexists _, _, _. split; [reflexivity|]. cbn [fromA toA fromB toB].
          split; [exact H|]. lia.
    - (* a deletion *)
      assert (HlB : tB - fB = 0) by lia.
      destruct ((Z.max (tA - fA) (tB - fB) >? fA - boundBefore)
                && str_eqb (slice a boundBefore fA) (slice a (tA - (fA - boundBefore)) tA))
        eqn:Eleft.
      + apply andb_true_iff in Eleft. destruct Eleft as [El1 El2].
        rewrite Z.gtb_ltb, Z.ltb_lt in El1.
        apply str_eqb_slices in El2; try lia. destruct El2 as [_ El2].
        cbn [fromA toA fromB toB].
        assert (Hm : edits a b pA pB
                       (mkChange boundBefore (boundBefore + (tA - fA))
                                 (fB - (fA - boundBefore)) (tB - (fA - boundBefore)) :: rest)).
        { replace boundBefore with (fA - (fA - boundBefore)) at 1 2 by lia.
          replace (fA - (fA - boundBefore) + (tA - fA)) with (tA - (fA - boundBefore)) by lia.
          apply shift_left_edits; [exact H|lia|]. right. split; [lia|]. split; [lia|].
          replace (fA - (fA - boundBefore)) with boundBefore by lia. exact El2. }
        pose proof (findWordBoundaryAfter_bounds wordChar a (boundBefore + (tA - fA))
                      (nextFromA a rest - (boundBefore + (tA - fA))) ltac:(lia)).
        eexists _, _, _. split; [reflexivity|]. cbn [fromA toA fromB toB].
        split; [exact Hm|]. lia.
      + destruct ((Z.max (tA - fA) (tB - fB) >? boundAfter - tA)
                  && str_eqb (slice a tA boundAfter) (slice a fA (fA + (boundAfter - tA))))
          eqn:Eright.
        * apply andb_true_iff in Eright. destruct Eright as [Er1 Er2].
          rewrite Z.gtb_ltb, Z.ltb_lt in Er1.
          apply str_eqb_slices in Er2; try lia. destruct Er2 as [_ Er2].
          cbn [fromA toA fromB toB].
          assert (Hm : edits a b pA pB
                         (mkChange (boundAfter - (tA - fA)) boundAfter
                                   (fB + (boundAfter - tA)) (tB + (boundAfter - tA)) :: rest)).
          { replace boundAfter with (tA + (boundAfter - tA)) at 2 by lia.
            replace (boundAfter - (tA - fA)) with (fA + (boundAfter - tA)) by lia.
            apply shift_right_edits; [exact H|lia|]. right. split; [lia|]. split; [lia|].
            exact Er2. }
          pose proof (findWordBoundaryBefore_bounds wordChar a (boundAfter - (tA - fA))
                        (boundAfter - (tA - fA) - pA) ltac:(lia)).
          eexists _, _, _. split; [reflexivity|]. cbn [fromA toA fromB toB].
          split; [exact Hm|]. lia.
        * eexists _, _, _. split; [reflexivity|]. cbn [fromA toA fromB toB].
          split; [exact H|]. lia. }
  destruct (negb (lb =? 0) || negb (la =? 0)).
  { inversion E; subst c'. destruct m as [mfA mtA mfB mtB]. cbn [fromA toA fromB toB] in *.
    apply widen_edits; auto. }
  destruct (tA - fA =? 0).
  { apply alignToLine_noBreaks in E; [|exact Hnb]. subst c'. exact Hm. }
  destruct (tB - fB =? 0).
  { apply alignToLine_noBreaks in E; [|exact Hna]. subst c'. exact Hm. }
  inversion E; subst c'. exact Hm.
Qed.

Lemma makePresentable_loop_edits (wordChar : option (str -> bool)) (fuel : nat) (a b : str)
      (changes : list Change) :
  noBreaks a -> noBreaks b ->
  forall pA pB changes',
    edits a b pA pB changes ->
    makePresentable_loop wordChar fuel a b pA changes = Some changes' ->
    edits a b pA pB changes'.
Proof.
  intros Hna Hnb. induction changes as [|c rest IH]; intros pA pB changes' H E;
    cbn [makePresentable_loop] in E.
  - inversion E; subst. exact H.
  - change (match rest with
            | next :: _ => fromA next
            | [] => slen a
            end) with (nextFromA a rest) in E.
    match type of E with
    | match ?x with _ => _ end = _ => destruct x as [c1|] eqn:Ec; [|discriminate]
    end.
    destruct (makePresentable_loop wordChar fuel a b (toA c1) rest) as [rest'|] eqn:Er;
      [|discriminate].
    inversion E; subst; clear E.
    assert (H1 : edits a b pA pB (c1 :: rest)).
    { match type of Ec with
      | (if ?t then _ else _) = _ => destruct t
      end.
      - eapply presentChange_edits; eauto.
      - inversion Ec; subst. exact H. }
    cbn [edits] in *. destruct H1 as (G1 & G2 & G3 & G4 & G5 & G6 & Hrest).
    split; [lia|]. split; [lia|]. split; [lia|]. split; [lia|]. split; [lia|].
    split; [exact G6|]. eapply IH; eauto.
Qed.

(** X15. When neither string holds a line break, every result of
    makePresentable on an edit script from a to b is an edit script from a
    to b; applying it to a gives b. *)
Theorem makePresentable_keeps_edits (wordChar : option (str -> bool)) (fuel : nat)
        (a b : str) (changes changes' : list Change) :
  noBreaks a -> noBreaks b ->
  edits a b 0 0 changes ->
  makePresentable wordChar fuel changes a b = Some changes' ->
  edits a b 0 0 changes' /\ patch a b 0 changes' = b.
Proof.
  intros Hna Hnb H E. unfold makePresentable in E.
  destruct (makePresentable_loop wordChar fuel a b 0 changes) as [c1|] eqn:El;
    [|discriminate].
  inversion E; subst; clear E.
  apply (makePresentable_loop_edits wordChar fuel a b changes Hna Hnb 0 0 c1 H) in El.
  apply (mergeAdjacent_edits a b c1 3) in El.
  split; [exact El|]. rewrite (edits_patch _ _ _ _ _ El). apply sliceFrom_zero.
Qed.

Lemma makePresentable_keeps_edits_witness :
  edits hello_world hello_there 0 0 [mkChange 6 11 6 11]
  /\ patch hello_world hello_there 0 [mkChange 6 11 6 11] = hello_there.
Proof.
  apply (makePresentable_keeps_edits None 30 hello_world hello_there
           [mkChange 6 8 6 9; mkChange 9 11 10 11] [mkChange 6 11 6 11]).
  - apply noBreaks_plain. reflexivity.
  - apply noBreaks_plain. reflexivity.
  - edits_by_computation.
  - vm_compute. reflexivity.
Defined.

(** X16. For strings without surrogate pairs and without line breaks, when
    the Myers search cannot start (scanLimit 0 or 1, or a timeout whose
    deadline lies behind every later reading of the clock), every result of
    presentableDiff is an edit script from a to b, and applying it to a
    gives b. *)
Theorem presentableDiff_valid_without_search (wordChar : option (str -> bool))
        (now : nat -> Z) (fuel : nat) (a b : str) (config : DiffConfig) (g g' : Globals)
        (changes : list Change) :
  noPairs a -> noPairs b -> noBreaks a -> noBreaks b ->
  searchOff now config g ->
  presentableDiff wordChar fuel now a b config g = Some (changes, g') ->
  edits a b 0 0 changes /\ patch a b 0 changes = b.
Proof.
  intros Ha Hb Hna Hnb Hoff E. unfold presentableDiff, bind in E.
  destruct (diff now fuel a b config g) as [[l g1]|] eqn:Ed; [|discriminate].
  unfold lift in E.
  destruct (makePresentable wordChar fuel l a b) as [l'|] eqn:Ep; [|discriminate].
  inversion E; subst l' g1. clear E.
  apply (diff_without_search_edits now fuel a b config g g' l Ha Hb Hoff) in Ed.
  unfold makePresentable in Ep.
  destruct (makePresentable_loop wordChar fuel a b 0 l) as [c1|] eqn:El; [|discriminate].
  inversion Ep; subst; clear Ep.
  apply (makePresentable_loop_edits wordChar fuel a b l Hna Hnb 0 0 c1 Ed) in El.
  apply (mergeAdjacent_edits a b c1 3) in El.
  split; [exact El|]. rewrite (edits_patch _ _ _ _ _ El). apply sliceFrom_zero.
Qed.

Lemma presentableDiff_valid_without_search_witness :
  edits hello_world hello_there 0 0 [mkChange 6 11 6 11]
  /\ patch hello_world hello_there 0 [mkChange 6 11 6 11] = hello_there.
Proof.
  apply (presentableDiff_valid_without_search None (fun _ => 0) 30 hello_world hello_there
           (mkConfig (Some 1) None) initial (mkGlobals 0 0 false 0)).
  - apply noPairs_plain. reflexivity.
  - apply noPairs_plain. reflexivity.
  - apply noBreaks_plain. reflexivity.
  - apply noBreaks_plain. reflexivity.
  - right. left. reflexivity.
  - vm_compute. reflexivity.
Defined.

(** The hypothesis on line breaks is needed when the script comes from
    elsewhere than [normalize]: [makePresentable] moves the insertion below
    to a word boundary and then aligns it to a line, with the room that it
    measured before the move, so that it ends before the change in front of
    it. *)
Lemma makePresentable_stale_room :
  edits bang_abc z_ab_twice 0 0 [mkChange 0 1 0 1; mkChange 4 4 4 9]
  /\ makePresentable None 20 [mkChange 0 1 0 1; mkChange 4 4 4 9] bang_abc z_ab_twice
     = Some [mkChange 0 0 0 5]
  /\ patch bang_abc z_ab_twice 0 [mkChange 0 0 0 5] <> z_ab_twice.
Proof.
  split; [edits_by_computation|]. split; [vm_compute; reflexivity|].
  vm_compute. discriminate.
Qed.

Import SharedHistory.
Section HistoryProofs.
Variable Transaction : Type.

Lemma Side_eqb_eq (s t : Side) : Side_eqb s t = true <-> s = t.
Proof. destruct s, t; simpl; split; congruence. Qed.

Lemma Side_eqb_refl (s : Side) : Side_eqb s s = true.
Proof. now destruct s. Qed.

Lemma item_nat {A} (l : list A) (n : nat) : item l (Z.of_nat n) = nth_error l n.
Proof.
  unfold item. destruct (Z.ltb_spec (Z.of_nat n) 0); [lia|]. now rewrite Nat2Z.id.
Qed.

Lemma item_Some {A} (l : list A) (i : Z) :
  0 <= i < Z.of_nat (length l) -> exists x, item l i = Some x.
Proof.
  intros H. unfold item. destruct (Z.ltb_spec i 0); [lia|].
  destruct (nth_error l (Z.to_nat i)) eqn:E; [eauto|].
  apply nth_error_None in E. lia.
Qed.

Lemma item_bound {A} (l : list A) (i : Z) x :
  item l i = Some x -> 0 <= i < Z.of_nat (length l).
Proof.
  unfold item. destruct (Z.ltb_spec i 0); [discriminate|].
  intros E. assert (Z.to_nat i < length l)%nat by (apply nth_error_Some; congruence). lia.
Qed.

Lemma aslice_prefix {A} (l : list A) (k : Z) :
  0 <= k <= Z.of_nat (length l) -> aslice l 0 k = firstn (Z.to_nat k) l.
Proof.
  intros H. unfold aslice, clampIndex.
  destruct (Z.ltb_spec 0 0); [lia|].
  destruct (Z.ltb_spec k 0); [lia|].
  rewrite Z.min_l by lia. rewrite Z.min_l by lia. rewrite Z.sub_0_r. reflexivity.
Qed.

Lemma getUndoGroup_loop_spec (h : t Transaction) (k : nat) :
  (k < length (history h))%nat ->
  exists s, getUndoGroup_loop h k = Some s /\ 0 <= s <= Z.of_nat k
            /\ chained h s (Z.of_nat k).
Proof.
  induction k as [|k IH]; intros Hk; cbn [getUndoGroup_loop].
  - exists 0. split; [reflexivity|]. split; [lia|]. intros j Hj. lia.
  - destruct (nth_error (history h) k) as [p|] eqn:Ep;
      [|apply nth_error_None in Ep; lia].
    destruct (nth_error (history h) (S k)) as [c|] eqn:Ec;
      [|apply nth_error_None in Ec; lia].
    destruct (grouped h p c) eqn:G.
    + destruct IH as (s & Es & Hs & Hc); [lia|].
      exists s. split; [exact Es|]. split; [lia|].
      intros j Hj. destruct (Z.eq_dec j (Z.of_nat k)) as [->|Hne].
      * exists p, c. rewrite item_nat. replace (Z.of_nat k + 1) with (Z.of_nat (S k)) by lia.
        rewrite item_nat. auto.
      * apply Hc. lia.
    + exists (Z.of_nat (S k)). split; [reflexivity|]. split; [lia|]. intros j Hj. lia.
Qed.

Lemma getRedoGroup_loop_bound (h : t Transaction) (n : nat) : forall e,
  0 <= e -> e + Z.of_nat n < Z.of_nat (length (history h)) ->
  exists e', getRedoGroup_loop h n e = Some e' /\ e <= e' <= e + Z.of_nat n
             /\ chained h e e'.
Proof.
  induction n as [|n IH]; intros e H0 Hn; simpl.
  - exists e. split; [reflexivity|]. split; [lia|]. intros j Hj; lia.
  - destruct (item_Some (history h) e) as [c Ec]; [lia|].
    destruct (item_Some (history h) (e + 1)) as [x Ex]; [lia|].
    rewrite Ec, Ex. destruct (grouped h c x) eqn:G.
    + destruct (IH (e + 1)) as (e' & E' & Hb & Hc); [lia|lia|].
      exists e'. split; [exact E'|]. split; [lia|].
      intros j Hj. destruct (Z.eq_dec j e) as [->|Hne].
      * exists c, x. auto.
      * apply Hc. lia.
    + exists e. split; [reflexivity|]. split; [lia|]. intros j Hj; lia.
Qed.

(** Along a chain the walk of [getRedoGroup] goes to its end. *)
Lemma getRedoGroup_loop_chain (h : t Transaction) (n : nat) : forall s,
  chained h s (s + Z.of_nat n) ->
  getRedoGroup_loop h n s = Some (s + Z.of_nat n).
Proof.
  induction n as [|n IH]; intros s Hc; simpl.
  - f_equal. lia.
  - destruct (Hc s) as (x & y & Ex & Ey & G); [lia|].
    rewrite Ex, Ey, G. rewrite IH.
    + f_equal. lia.
    + intros j Hj. apply Hc. lia.
Qed.

Lemma chained_editor (h : t Transaction) (s e : Z) (first : Entry Transaction) :
  chained h s e -> item (history h) s = Some first ->
  forall j x, s <= j <= e -> item (history h) j = Some x -> editor x = editor first.
Proof.
  intros Hc Hf j x Hj. revert x.
  assert (H : forall d : nat, forall x, s + Z.of_nat d <= e ->
                item (history h) (s + Z.of_nat d) = Some x -> editor x = editor first).
  { induction d as [|d IH]; intros x Hd Ex.
    - replace (s + Z.of_nat 0) with s in Ex by lia. congruence.
    - destruct (Hc (s + Z.of_nat d)) as (u & v & Eu & Ev & G); [lia|].
      replace (s + Z.of_nat d + 1) with (s + Z.of_nat (S d)) in Ev by lia.
      rewrite Ex in Ev. inversion Ev; subst v.
      unfold grouped in G. apply andb_true_iff in G. destruct G as [_ G].
      apply Side_eqb_eq in G. rewrite <- G. apply IH with (x := u); [lia|exact Eu]. }
  intros x Ex. apply (H (Z.to_nat (j - s))); [lia|].
  replace (s + Z.of_nat (Z.to_nat (j - s))) with j by lia. exact Ex.
Qed.

Lemma entries_cons (h : t Transaction) (i : Z) (n : nat) (x : Entry Transaction) :
  item (history h) i = Some x ->
  entries h i (i + Z.of_nat (S n)) = x :: entries h (i + 1) (i + 1 + Z.of_nat n).
Proof.
  intros Ex. pose proof (item_bound _ _ _ Ex) as Hb.
  unfold entries. replace (Z.to_nat (i + Z.of_nat (S n) - i)) with (S n) by lia.
  replace (Z.to_nat (i + 1 + Z.of_nat n - (i + 1))) with n by lia.
  replace (Z.to_nat (i + 1)) with (S (Z.to_nat i)) by lia.
  unfold item in Ex. destruct (Z.ltb_spec i 0); [lia|].
  revert Ex. generalize (Z.to_nat i) as k. generalize (history h) as l.
  induction l as [|y l IH]; intros [|k] E; simpl in *; try discriminate.
  - now inversion E.
  - now apply IH.
Qed.

Lemma byEditor_loop_same (h : t Transaction) (ed : Side) (n : nat) : forall i cur res,
  (forall j, i <= j < i + Z.of_nat n ->
             exists x, item (history h) j = Some x /\ editor x = ed) ->
  byEditor_loop h n i ed cur res
  = Some (ed, cur ++ map (@transaction _) (entries h i (i + Z.of_nat n)), res).
Proof.
  induction n as [|n IH]; intros i cur res Hall.
  - unfold entries. replace (Z.to_nat (i + Z.of_nat 0 - i)) with O by lia.
    cbn [byEditor_loop firstn map]. now rewrite app_nil_r.
  - destruct (Hall i) as (x & Ex & Hed); [lia|].
    cbn [byEditor_loop]. rewrite Ex, Hed, Side_eqb_refl. cbn [negb].
    rewrite IH.
    + rewrite (entries_cons h i n x Ex). cbn [map]. now rewrite <- app_assoc.
    + intros j Hj. apply Hall. lia.
Qed.

Lemma byEditor_chain (h : t Transaction) (s e : Z) (first : Entry Transaction) :
  0 <= s <= e -> e < Z.of_nat (length (history h)) ->
  item (history h) s = Some first -> chained h s e ->
  byEditor h s e
  = Some [mkGroup (editor first) (map (@transaction _) (entries h s (e + 1)))].
Proof.
  intros Hse He Ef Hc. unfold byEditor. rewrite Ef.
  rewrite (byEditor_loop_same h (editor first)).
  - replace (s + Z.of_nat (Z.to_nat (e - s + 1))) with (e + 1) by lia.
    cbn [app].
    destruct (map (@transaction _) (entries h s (e + 1))) eqn:Em; [|reflexivity].
    exfalso. replace (e + 1) with (s + Z.of_nat (S (Z.to_nat (e - s)))) in Em by lia.
    rewrite (entries_cons h s _ _ Ef) in Em. discriminate.
  - intros j Hj. destruct (item_Some (history h) j) as [x Ex]; [lia|].
    exists x. split; [exact Ex|].
    apply (chained_editor _ _ _ _ Hc Ef) with (j := j); [lia|exact Ex].
Qed.

Lemma undo_group_spec (h : t Transaction) (now : Z) :
  wf h -> canUndo h = true ->
  exists s first,
    0 <= s <= currentIndex h /\ item (history h) s = Some first
    /\ chained h s (currentIndex h)
    /\ undoGroup h now
       = Some (Some [mkGroup (editor first)
                             (map (@transaction _) (entries h s (currentIndex h + 1)))],
               mk (history h) (s - 1) now (lastRedoTimestamp h) (groupTimeoutMs h)).
Proof.
  intros [Hlo Hhi] Hu. unfold canUndo in Hu. apply Z.geb_le in Hu.
  destruct (getUndoGroup_loop_spec h (Z.to_nat (currentIndex h))) as (s & Es & Hs & Hc);
    [lia|].
  rewrite Z2Nat.id in Hs, Hc by lia.
  destruct (item_Some (history h) s) as [first Ef]; [lia|].
  exists s, first. repeat split; try lia; try assumption.
  unfold undoGroup, getUndoGroup, canUndo.
  destruct (Z.geb_spec (currentIndex h) 0); [|lia]. cbn [negb].
  rewrite Es. rewrite (byEditor_chain _ _ _ first); auto; lia.
Qed.


Lemma firstn_length_le {A} (l : list A) (n : nat) :
  (n <= length l)%nat -> length (firstn n l) = n.
Proof. intros H. rewrite length_firstn. lia. Qed.

(** X17. SharedHistory keeps its index between -1 and the last index of the
    history: from such a state addTransaction, undoGroup, redoGroup, redo
    and clear lead to such a state, and undoGroup and redoGroup read no
    entry outside the history. *)
Theorem history_invariant (h : t Transaction) (ed : Side) (tr : Transaction) (now : Z) :
  wf h ->
  wf (addTransaction h ed tr now)
  /\ (exists r h', undoGroup h now = Some (r, h') /\ wf h')
  /\ (exists r h', redoGroup h now = Some (r, h') /\ wf h')
  /\ wf (snd (redo h now))
  /\ wf (clear h).
Proof.
  intros Hwf. pose proof Hwf as [Hlo Hhi].
  split; [|split; [|split; [|split]]].
  - unfold wf. cbn. rewrite aslice_prefix by lia.
    rewrite length_app, firstn_length_le by lia. cbn. lia.
  - destruct (canUndo h) eqn:Hu.
    + destruct (undo_group_spec h now Hwf Hu) as (s & first & Hs & _ & _ & E).
      rewrite E. eexists _, _. split; [reflexivity|]. unfold wf; cbn. lia.
    + unfold undoGroup, getUndoGroup. rewrite Hu. cbn. eauto.
  - unfold redoGroup, getRedoGroup. destruct (canRedo h) eqn:Hr; cbn [negb].
    2:{ eauto. }
    unfold canRedo in Hr. apply Z.ltb_lt in Hr.
    destruct (getRedoGroup_loop_bound h
                (Z.to_nat (Z.of_nat (length (history h)) - 1 - (currentIndex h + 1)))
                (currentIndex h + 1)) as (e & Ee & He & Hc); [lia|lia|].
    rewrite Ee.
    destruct (item_Some (history h) (currentIndex h + 1)) as [first Ef]; [lia|].
    rewrite (byEditor_chain _ _ _ first); auto; try lia.
    eexists _, _. split; [reflexivity|]. unfold wf; cbn. lia.
  - unfold redo, wf. destruct (canRedo h) eqn:Hr; cbn; [|lia].
    unfold canRedo in Hr. apply Z.ltb_lt in Hr. lia.
  - unfold wf. cbn. lia.
Qed.

(** X18. addTransaction drops the entries after the current index and
    appends the new one: afterwards nothing can be redone, an undo is
    possible, and the current entry is the new transaction. *)
Theorem addTransaction_drops_redo (h : t Transaction) (ed : Side) (tr : Transaction)
        (now : Z) :
  wf h ->
  let h' := addTransaction h ed tr now in
  canRedo h' = false /\ canUndo h' = true
  /\ history h' = entries h 0 (currentIndex h + 1) ++ [mkEntry ed tr now]
  /\ item (history h') (currentIndex h') = Some (mkEntry ed tr now).
Proof.
  intros [Hlo Hhi] h'. subst h'. unfold canRedo, canUndo, entries. cbn.
  rewrite aslice_prefix by lia. rewrite Z.sub_0_r.
  rewrite length_app, firstn_length_le by lia. cbn [length].
  repeat split.
  - apply Z.ltb_ge. lia.
  - apply Z.geb_le. lia.
  - unfold item. destruct (Z.ltb_spec (currentIndex h + 1) 0); [lia|].
    rewrite nth_error_app2; rewrite firstn_length_le by lia; [|lia].
    now rewrite Nat.sub_diag.
Qed.

(** X19. When something can be undone, undoGroup returns exactly one group:
    the transactions, in the order of the history, of a run of entries of
    one editor that ends at the current index; the index moves to just
    before that run. *)
Theorem undoGroup_single_group (h : t Transaction) (now : Z) :
  wf h -> canUndo h = true ->
  exists s ed,
    0 <= s <= currentIndex h
    /\ Forall (fun e => editor e = ed) (entries h s (currentIndex h + 1))
    /\ undoGroup h now
       = Some (Some [mkGroup ed (map (@transaction _) (entries h s (currentIndex h + 1)))],
               mk (history h) (s - 1) now (lastRedoTimestamp h) (groupTimeoutMs h)).
Proof.
  intros Hwf Hu.
  destruct (undo_group_spec h now Hwf Hu) as (s & first & Hs & Ef & Hc & E).
  exists s, (editor first). split; [exact Hs|]. split; [|exact E].
  apply Forall_forall. intros x Hx.
  apply In_nth_error in Hx. destruct Hx as [k Hk].
  unfold entries in Hk.
  assert (Hlt : (k < Z.to_nat (currentIndex h + 1 - s))%nat).
  { assert (k < length (firstn (Z.to_nat (currentIndex h + 1 - s))
                               (skipn (Z.to_nat s) (history h))))%nat
      by (apply nth_error_Some; congruence).
    rewrite length_firstn in H. lia. }
  rewrite nth_error_firstn in Hk.
  destruct (Nat.ltb_spec k (Z.to_nat (currentIndex h + 1 - s))); [|lia].
  rewrite nth_error_skipn in Hk.
  apply (chained_editor _ _ _ _ Hc Ef) with (j := s + Z.of_nat k); [lia|].
  unfold item. destruct (Z.ltb_spec (s + Z.of_nat k) 0); [lia|].
  replace (Z.to_nat (s + Z.of_nat k)) with (Z.to_nat s + k)%nat by lia. exact Hk.
Qed.

(** X20. When nothing can be redone, redoGroup after undoGroup returns the
    same groups again and restores the index; the history is unchanged. *)
Theorem undoGroup_redoGroup (h : t Transaction) (now now' : Z) groups h' :
  wf h -> canRedo h = false ->
  undoGroup h now = Some (Some groups, h') ->
  exists h'', redoGroup h' now' = Some (Some groups, h'')
              /\ currentIndex h'' = currentIndex h /\ history h'' = history h.
Proof.
  intros Hwf Hr E. pose proof Hwf as [Hlo Hhi].
  unfold canRedo in Hr. apply Z.ltb_ge in Hr.
  destruct (canUndo h) eqn:Hu.
  2:{ unfold undoGroup, getUndoGroup in E. rewrite Hu in E. discriminate. }
  destruct (undo_group_spec h now Hwf Hu) as (s & first & Hs & Ef & Hc & E').
  rewrite E' in E. inversion E; subst groups h'; clear E.
  unfold redoGroup, getRedoGroup, canRedo. cbn [history currentIndex].
  destruct (Z.ltb_spec (s - 1) (Z.of_nat (length (history h)) - 1)); [|lia].
  cbn [negb].
  set (h1 := mk (history h) (s - 1) now (lastRedoTimestamp h) (groupTimeoutMs h)).
  assert (Hc1 : chained h1 s (currentIndex h)) by exact Hc.
  replace (s - 1 + 1) with s by lia.
  replace (Z.of_nat (length (history h)) - 1 - s)
    with (currentIndex h - s) by lia.
  rewrite (getRedoGroup_loop_chain h1 (Z.to_nat (currentIndex h - s)) s).
  2:{ replace (s + Z.of_nat (Z.to_nat (currentIndex h - s))) with (currentIndex h) by lia.
      exact Hc1. }
  replace (s + Z.of_nat (Z.to_nat (currentIndex h - s))) with (currentIndex h) by lia.
  rewrite (byEditor_chain h1 s (currentIndex h) first); auto; try lia.
  eexists. split; [reflexivity|]. cbn. split; reflexivity.
Qed.

(** X21. undo has no guard: called when nothing can be undone, it returns
    undefined and moves the index to -2; the next addTransaction then drops
    the last entry of the history before it appends the new one, and the new
    transaction cannot be undone. *)
Theorem undo_without_guard (h : t Transaction) (ed : Side) (tr : Transaction)
        (now now' : Z) :
  wf h -> canUndo h = false ->
  let '(r, h1) := undo h now in
  let h2 := addTransaction h1 ed tr now' in
  r = None /\ currentIndex h1 = -2
  /\ history h2 = removelast (history h) ++ [mkEntry ed tr now']
  /\ canUndo h2 = false.
Proof.
  intros [Hlo Hhi] Hu. unfold canUndo in Hu.
  destruct (Z.geb_spec (currentIndex h) 0); [discriminate|].
  assert (Hci : currentIndex h = -1) by lia.
  unfold undo, addTransaction, canUndo. cbn. rewrite Hci. cbn.
  repeat split.
  f_equal. unfold aslice, clampIndex. cbn.
  destruct (history h) as [|x l] eqn:El.
  - reflexivity.
  - rewrite Z.max_l by (cbn [length]; lia).
    rewrite Z.min_l by lia. rewrite Z.sub_0_r. cbn [Z.to_nat skipn].
    replace (Z.to_nat (Z.of_nat (length (x :: l)) + -1)) with (length l)
      by (cbn [length]; lia).
    clear. revert x. induction l as [|y l IH]; intros x; [reflexivity|].
    cbn [length firstn]. rewrite IH. reflexivity.
Qed.

End HistoryProofs.

Lemma history_invariant_witness :
  let h := SharedHistory.mk
             [SharedHistory.mkEntry SideA 1%nat 0; SharedHistory.mkEntry SideA 2%nat 400;
              SharedHistory.mkEntry SideB 3%nat 500] 1 0 0 1000 in
  SharedHistory.wf (SharedHistory.addTransaction h SideB 4%nat 9000)
  /\ (exists r h', SharedHistory.undoGroup h 9000 = Some (r, h') /\ SharedHistory.wf h')
  /\ (exists r h', SharedHistory.redoGroup h 9000 = Some (r, h') /\ SharedHistory.wf h')
  /\ SharedHistory.wf (snd (SharedHistory.redo h 9000))
  /\ SharedHistory.wf (SharedHistory.clear h).
Proof.
  intro h. apply (history_invariant nat h SideB 4%nat 9000).
  unfold SharedHistory.wf, h. simpl. lia.
Defined.

Lemma addTransaction_drops_redo_witness :
  let h := SharedHistory.mk
             [SharedHistory.mkEntry SideA 1%nat 0; SharedHistory.mkEntry SideA 2%nat 400;
              SharedHistory.mkEntry SideB 3%nat 500] 1 0 0 1000 in
  let h' := SharedHistory.addTransaction h SideB 4%nat 9000 in
  SharedHistory.canRedo h' = false /\ SharedHistory.canUndo h' = true
  /\ SharedHistory.history h'
     = SharedHistory.entries h 0 (SharedHistory.currentIndex h + 1)
       ++ [SharedHistory.mkEntry SideB 4%nat 9000]
  /\ item (SharedHistory.history h') (SharedHistory.currentIndex h')
     = Some (SharedHistory.mkEntry SideB 4%nat 9000).
Proof.
  intro h. apply (addTransaction_drops_redo nat h SideB 4%nat 9000).
  unfold SharedHistory.wf, h. simpl. lia.
Defined.

Lemma undoGroup_single_group_witness :
  let h := SharedHistory.mk
             [SharedHistory.mkEntry SideA 1%nat 0; SharedHistory.mkEntry SideA 2%nat 400;
              SharedHistory.mkEntry SideB 3%nat 500] 1 0 0 1000 in
  exists s ed,
    0 <= s <= SharedHistory.currentIndex h
    /\ Forall (fun e => SharedHistory.editor e = ed)
              (SharedHistory.entries h s (SharedHistory.currentIndex h + 1))
    /\ SharedHistory.undoGroup h 9000
       = Some (Some [SharedHistory.mkGroup ed
                       (map (@SharedHistory.transaction _)
                            (SharedHistory.entries h s (SharedHistory.currentIndex h + 1)))],
               SharedHistory.mk (SharedHistory.history h) (s - 1) 9000
                 (SharedHistory.lastRedoTimestamp h) (SharedHistory.groupTimeoutMs h)).
Proof.
  intro h. apply (undoGroup_single_group nat h 9000).
  - unfold SharedHistory.wf, h. simpl. lia.
  - reflexivity.
Defined.

Lemma undoGroup_redoGroup_witness :
  let h := SharedHistory.mk
             [SharedHistory.mkEntry SideA 1%nat 0; SharedHistory.mkEntry SideA 2%nat 400] 1 0 0
             1000 in
  exists h'',
    SharedHistory.redoGroup
      (SharedHistory.mk (SharedHistory.history h) (-1) 9000 0 1000) 9500
    = Some (Some [SharedHistory.mkGroup SideA [1%nat; 2%nat]], h'')
    /\ SharedHistory.currentIndex h'' = SharedHistory.currentIndex h
    /\ SharedHistory.history h'' = SharedHistory.history h.
Proof.
  intro h.
  apply (undoGroup_redoGroup nat h 9000 9500 [SharedHistory.mkGroup SideA [1%nat; 2%nat]]
           (SharedHistory.mk (SharedHistory.history h) (-1) 9000 0 1000)).
  - unfold SharedHistory.wf, h. simpl. lia.
  - reflexivity.
  - reflexivity.
Defined.

Lemma undo_without_guard_witness :
  let h := SharedHistory.mk [SharedHistory.mkEntry SideA 1%nat 0] (-1) 0 0 1000 in
  let '(r, h1) := SharedHistory.undo h 50 in
  let h2 := SharedHistory.addTransaction h1 SideB 2%nat 60 in
  r = None /\ SharedHistory.currentIndex h1 = -2
  /\ SharedHistory.history h2
     = removelast (SharedHistory.history h) ++ [SharedHistory.mkEntry SideB 2%nat 60]
  /\ SharedHistory.canUndo h2 = false.
Proof.
  intro h. apply (undo_without_guard nat h SideB 2%nat 50 60).
  - unfold SharedHistory.wf, h. simpl. lia.
  - reflexivity.
Defined.

(** ** [mapPos] *)

Lemma mapPos_loop_above pos chunks : forall sA sB,
  aligned sA sB chunks -> betweenChunks pos chunks -> sA < pos ->
  sB < mapPos_loop pos true chunks sA sB.
Proof.
  induction chunks as [|c rest IH]; intros sA sB Hal Hb Hs; cbn [mapPos_loop].
  - lia.
  - cbn [aligned] in Hal. destruct Hal as (HA & HB & Hgap & Hal).
    inversion Hb as [|? ? Hc Hb']; subst.
    destruct (Z.geb_spec (Chunk.fromA c) pos); [lia|].
    assert (sB <= Chunk.toB c) by lia.
    assert (Chunk.toB c < mapPos_loop pos true rest (Chunk.toA c) (Chunk.toB c))
      by (apply IH; auto; lia).
    lia.
Qed.

Lemma mapPos_loop_back pos chunks : forall sA sB,
  aligned sA sB chunks -> betweenChunks pos chunks ->
  mapPos_loop (mapPos_loop pos true chunks sA sB) false chunks sB sA = pos.
Proof.
  induction chunks as [|c rest IH]; intros sA sB Hal Hb; cbn [mapPos_loop].
  - lia.
  - cbn [aligned] in Hal. destruct Hal as (HA & HB & Hgap & Hal).
    inversion Hb as [|? ? Hc Hb']; subst.
    destruct (Z.geb_spec (Chunk.fromA c) pos) as [Hge|Hlt].
    + cbn [mapPos_loop]. destruct (Z.geb_spec (Chunk.fromB c) (sB + (pos - sA))); lia.
    + assert (Chunk.toB c < mapPos_loop pos true rest (Chunk.toA c) (Chunk.toB c))
        by (apply mapPos_loop_above; auto; lia).
      cbn [mapPos_loop].
      destruct (Z.geb_spec (Chunk.fromB c)
                  (mapPos_loop pos true rest (Chunk.toA c) (Chunk.toB c))); [lia|].
      now apply IH.
Qed.

(** X22. For chunks whose unchanged stretches are as long on one side as on
    the other, a position of A that lies, for every chunk, at or before its
    start or after its end is mapped by mapPos to B and from there back to
    itself. *)
Theorem mapPos_there_and_back (pos : Z) (chunks : list Chunk.t) :
  aligned 0 0 chunks -> betweenChunks pos chunks ->
  mapPos (mapPos pos chunks true) chunks false = pos.
Proof. intros Hal Hb. unfold mapPos. now apply mapPos_loop_back. Qed.

(** ** [moveByChunk] *)

Lemma sideRange_eq side c :
  sideRange side c = (chunkFrom (Side_eqb side SideA) c, chunkTo (Side_eqb side SideA) c).
Proof. now destruct side. Qed.

Lemma moveByChunk_loop_total chunks side head dir (n : nat) :
  (n <= length chunks)%nat ->
  exists r, moveByChunk_loop n chunks side head dir = Some r
    /\ match r with
       | None => exists c, chunks = [c]
                           /\ fst (sideRange side c) <= head <= snd (sideRange side c)
       | Some pos => 0 <= pos <= Z.of_nat (length chunks)
       end.
Proof.
  induction n as [|n IH]; intros Hn; cbn [moveByChunk_loop].
  - eexists. split; [reflexivity|]. cbv beta iota. lia.
  - destruct (nth_error chunks n) as [c|] eqn:Ec; [|apply nth_error_None in Ec; lia].
    destruct (sideRange side c) as [from to] eqn:Er.
    destruct (Z.ltb_spec to head).
    + eexists. split; [reflexivity|]. cbv beta iota. lia.
    + destruct (Z.leb_spec from head).
      * destruct (Z.eqb_spec (Z.of_nat (length chunks)) 1) as [Hone|Hne].
        -- eexists. split; [reflexivity|]. cbn.
           destruct chunks as [|c0 [|c1 rest]]; cbn [length] in *; try lia.
           assert (n = O) by lia. subst n. cbn in Ec. inversion Ec; subst c0.
           exists c. rewrite Er. cbn. split; [reflexivity|lia].
        -- eexists. split; [reflexivity|]. cbv beta iota. destruct (dir <? 0); lia.
      * apply IH. lia.
Qed.

Lemma mapPos_there_and_back_witness :
  mapPos (mapPos 20 [Chunk.mk [mkChange 0 5 0 7] 6 12 6 14 true] true)
         [Chunk.mk [mkChange 0 5 0 7] 6 12 6 14 true] false = 20.
Proof.
  apply (mapPos_there_and_back 20 [Chunk.mk [mkChange 0 5 0 7] 6 12 6 14 true]).
  - simpl. lia.
  - constructor; [simpl; lia | constructor].
Defined.

(** X23. Given a chunk list and a side, moveByChunk reads no chunk that does
    not exist: it returns false only when the list is empty or its only
    chunk holds the head of the selection, and otherwise selects the range
    of a chunk of the list on that side. *)
Theorem moveByChunk_total (dir : Z) (chunks : list Chunk.t) (side : Side) (head : Z) :
  exists r, moveByChunk dir (Some chunks) (Some side) head = Some r
    /\ match r with
       | None =>
           chunks = []
           \/ exists c, chunks = [c]
                        /\ fst (sideRange side c) <= head <= snd (sideRange side c)
       | Some target => exists c, In c chunks /\ target = sideRange side c
       end.
Proof.
  unfold moveByChunk.
  destruct (Z.eqb_spec (Z.of_nat (length chunks)) 0) as [Hz|Hnz].
  - eexists. split; [reflexivity|]. left. destruct chunks; [reflexivity|cbn in Hz; lia].
  - destruct (@moveByChunk_loop_total chunks side head dir (length chunks)) as (r & Er & Hr);
      [lia|].
    rewrite Er. destruct r as [pos|].
    + set (len := Z.of_nat (length chunks)) in *.
      set (idx := Z.rem (pos + (if dir <? 0 then len - 1 else 0)) len).
      assert (Hidx : 0 <= idx < len).
      { subst idx. apply Z.rem_bound_pos; [destruct (dir <? 0); lia|lia]. }
      unfold item. destruct (Z.ltb_spec idx 0); [lia|].
      destruct (nth_error chunks (Z.to_nat idx)) as [c|] eqn:Ec.
      * eexists. split; [reflexivity|]. exists c. split; [|reflexivity].
        eapply nth_error_In; eauto.
      * apply nth_error_None in Ec. lia.
    + eexists. split; [reflexivity|]. right. exact Hr.
Qed.

(** The loop passes the chunks that start after the head. *)
Lemma moveByChunk_loop_skip chunks side head dir (k : nat) (d : nat) :
  (k + d <= length chunks)%nat ->
  (forall i c, (k <= i < k + d)%nat -> nth_error chunks i = Some c ->
               head < fst (sideRange side c) /\ head <= snd (sideRange side c)) ->
  moveByChunk_loop (k + d) chunks side head dir = moveByChunk_loop k chunks side head dir.
Proof.
  induction d as [|d IH]; intros Hlen Hall.
  - now rewrite Nat.add_0_r.
  - replace (k + S d)%nat with (S (k + d)) by lia. cbn [moveByChunk_loop].
    destruct (nth_error chunks (k + d)) as [c|] eqn:Ec;
      [|apply nth_error_None in Ec; lia].
    destruct (Hall (k + d)%nat c) as [H1 H2]; [lia|exact Ec|].
    destruct (sideRange side c) as [from to]. cbn in H1, H2.
    destruct (Z.ltb_spec to head); [lia|].
    destruct (Z.leb_spec from head); [lia|].
    apply IH; [lia|]. intros i c' Hi. apply Hall. lia.
Qed.


Lemma nth_error_app_mid {A} (l1 : list A) (x : A) (l2 : list A) :
  nth_error (l1 ++ x :: l2) (length l1) = Some x.
Proof. rewrite nth_error_app2 by lia. now rewrite Nat.sub_diag. Qed.

Lemma skip_after chunks side head dir before after :
  chunks = before ++ after ->
  Forall (startsAfter side head) after ->
  moveByChunk_loop (length chunks) chunks side head dir
  = moveByChunk_loop (length before) chunks side head dir.
Proof.
  intros -> Hafter. rewrite length_app.
  apply moveByChunk_loop_skip; [rewrite length_app; lia|].
  intros i c Hi Ec. rewrite nth_error_app2 in Ec by lia.
  rewrite Forall_forall in Hafter. apply Hafter. eapply nth_error_In; eauto.
Qed.

(** X24. goToNextChunk selects the first chunk that starts after the head of
    the selection: if the chunks before c start at or before the head and c
    and the chunks after it start after the head (and do not end before it),
    the command selects the range of c. *)
Theorem goToNextChunk_target (side : Side) (head : Z) (before after : list Chunk.t)
        (c : Chunk.t) :
  Forall (startsBefore side head) before ->
  Forall (startsAfter side head) (c :: after) ->
  goToNextChunk (Some (before ++ c :: after)) (Some side) head
  = Some (Some (sideRange side c)).
Proof.
  intros Hb Ha. unfold goToNextChunk, moveByChunk.
  set (chunks := before ++ c :: after).
  assert (Hlen : length chunks = (length before + S (length after))%nat)
    by (subst chunks; rewrite length_app; reflexivity).
  destruct (Z.eqb_spec (Z.of_nat (length chunks)) 0); [lia|].
  rewrite (@skip_after chunks side head 1 before (c :: after)); auto.
  assert (Hpos : moveByChunk_loop (length before) chunks side head 1
                 = Some (Some (Z.of_nat (length before)))).
  { destruct before as [|b0 before'] using rev_ind; [reflexivity|].
    clear IHbefore'. rewrite length_app. cbn [length].
    replace (length before' + 1)%nat with (S (length before')) by lia.
    cbn [moveByChunk_loop]. subst chunks. rewrite <- app_assoc. cbn [app].
    rewrite nth_error_app_mid.
    apply Forall_app in Hb. destruct Hb as [_ Hb]. inversion Hb as [|? ? Hb0 _]; subst.
    unfold startsBefore in Hb0. destruct (sideRange side b0) as [from to]. cbn in Hb0.
    destruct (Z.ltb_spec to head); [do 2 f_equal; lia|].
    destruct (Z.leb_spec from head); [|lia].
    rewrite length_app. cbn [length].
    destruct (Z.eqb_spec (Z.of_nat (length before' + S (S (length after)))) 1); [lia|].
    cbn. do 2 f_equal. lia. }
  rewrite Hpos. cbn [Z.ltb Z.compare].
  rewrite Z.add_0_r, Z.rem_small by lia.
  unfold item. destruct (Z.ltb_spec (Z.of_nat (length before)) 0); [lia|].
  rewrite Nat2Z.id. subst chunks. now rewrite nth_error_app_mid.
Qed.

Lemma goToNextChunk_target_witness :
  goToNextChunk (Some ([Chunk.mk [] 0 3 0 4 true]
                       ++ Chunk.mk [] 10 12 11 13 true :: [Chunk.mk [] 20 25 21 26 true]))
                (Some SideB) 5
  = Some (Some (sideRange SideB (Chunk.mk [] 10 12 11 13 true))).
Proof.
  apply (goToNextChunk_target SideB 5 [Chunk.mk [] 0 3 0 4 true]
           [Chunk.mk [] 20 25 21 26 true] (Chunk.mk [] 10 12 11 13 true)).
  - constructor; [unfold startsBefore; simpl; lia | constructor].
  - constructor; [unfold startsAfter; simpl; lia|].
    constructor; [unfold startsAfter; simpl; lia | constructor].
Defined.

(** X25. goToPreviousChunk selects the last chunk that ends before the head
    of the selection: if c ends before the head and the chunks after c start
    after the head (and do not end before it), the command selects the range
    of c. *)
Theorem goToPreviousChunk_target (side : Side) (head : Z) (before after : list Chunk.t)
        (c : Chunk.t) :
  snd (sideRange side c) < head ->
  Forall (startsAfter side head) after ->
  goToPreviousChunk (Some (before ++ c :: after)) (Some side) head
  = Some (Some (sideRange side c)).
Proof.
  intros Hc Ha. unfold goToPreviousChunk, moveByChunk.
  set (chunks := before ++ c :: after).
  assert (Hlen : length chunks = (length before + S (length after))%nat)
    by (subst chunks; rewrite length_app; reflexivity).
  destruct (Z.eqb_spec (Z.of_nat (length chunks)) 0); [lia|].
  rewrite (@skip_after chunks side head (-1) (before ++ [c]) after); auto.
  2:{ subst chunks. now rewrite <- app_assoc. }
  rewrite length_app. cbn [length].
  replace (length before + 1)%nat with (S (length before)) by lia.
  cbn [moveByChunk_loop]. subst chunks. rewrite nth_error_app_mid.
  destruct (sideRange side c) as [from to] eqn:Er. cbn in Hc.
  destruct (Z.ltb_spec to head); [|lia].
  cbn [Z.ltb Z.compare].
  set (len := Z.of_nat (length (before ++ c :: after))) in *.
  replace (Z.of_nat (length before) + 1 + (len - 1))
    with (Z.of_nat (length before) + 1 * len) by lia.
  rewrite Z.rem_add by lia. rewrite Z.rem_small by lia.
  unfold item. destruct (Z.ltb_spec (Z.of_nat (length before)) 0); [lia|].
  rewrite Nat2Z.id. rewrite nth_error_app_mid. now rewrite Er.
Qed.

Lemma goToPreviousChunk_target_witness :
  goToPreviousChunk (Some ([Chunk.mk [] 0 3 0 4 true]
                           ++ Chunk.mk [] 10 12 11 13 true
                              :: [Chunk.mk [] 20 25 21 26 true]))
                    (Some SideA) 15
  = Some (Some (sideRange SideA (Chunk.mk [] 10 12 11 13 true))).
Proof.
  apply (goToPreviousChunk_target SideA 15 [Chunk.mk [] 0 3 0 4 true]
           [Chunk.mk [] 20 25 21 26 true] (Chunk.mk [] 10 12 11 13 true)).
  - simpl. lia.
  - constructor; [unfold startsAfter; simpl; lia | constructor].
Defined.

(** ** The windows of an update *)

Lemma rangesApart_snoc (rs : list Range.t) (last new : Range.t) :
  rangesApart (rs ++ [last]) -> Range.toA last < Range.fromA new ->
  rangesApart ((rs ++ [last]) ++ [new]).
Proof.
  intros Hap Hlt i r1 r2 E1 E2.
  destruct (Nat.lt_ge_cases (S i) (length (rs ++ [last]))) as [Hi|Hi].
  - rewrite nth_error_app1 in E1 by lia. rewrite nth_error_app1 in E2 by lia.
    eapply Hap; eauto.
  - assert (S i < length ((rs ++ [last]) ++ [new]))%nat
      by (apply nth_error_Some; congruence).
    rewrite !length_app in *. cbn [length] in *.
    assert (i = length rs) by lia. subst i.
    rewrite nth_error_app1 in E1 by (rewrite length_app; cbn; lia).
    rewrite nth_error_app2 in E1 by lia. rewrite Nat.sub_diag in E1.
    rewrite nth_error_app2 in E2 by (rewrite length_app; cbn; lia).
    rewrite length_app in E2. cbn [length] in E2.
    replace (S (length rs) - (length rs + 1))%nat with O in E2 by lia.
    cbn in E1, E2. inversion E1; inversion E2; subst. exact Hlt.
Qed.

Lemma rangesApart_replace_last (rs : list Range.t) (last last' : Range.t) :
  rangesApart (rs ++ [last]) -> Range.fromA last' = Range.fromA last ->
  rangesApart (rs ++ [last']).
Proof.
  intros Hap Heq i r1 r2 E1 E2.
  assert (S i < length (rs ++ [last']))%nat by (apply nth_error_Some; congruence).
  rewrite length_app in *. cbn [length] in *.
  destruct (Nat.lt_ge_cases (S i) (length rs)) as [Hi|Hi].
  - rewrite nth_error_app1 in E1 by lia. rewrite nth_error_app1 in E2 by lia.
    apply (Hap i); rewrite nth_error_app1 by lia; assumption.
  - assert (S i = length rs) by lia.
    rewrite nth_error_app1 in E1 by lia.
    rewrite nth_error_app2 in E2 by lia.
    replace (S i - length rs)%nat with O in E2 by lia. cbn in E2. inversion E2; subst r2.
    rewrite Heq. apply (Hap i).
    + rewrite nth_error_app1 by lia. exact E1.
    + rewrite nth_error_app2 by lia. replace (S i - length rs)%nat with O by lia.
      reflexivity.
Qed.

Lemma addRange_apart fuel chunks changes isA otherLen ranges r ranges' :
  rangesApart ranges ->
  addRange fuel chunks changes isA otherLen ranges r = Some ranges' ->
  rangesApart ranges'.
Proof.
  intros Hap. unfold addRange. destruct r as [[[cFromA cToA] cFromB] cToB].
  destruct (if cFromA >? updateMargin then _ else _) as [[fA fB]|]; [|discriminate].
  destruct (if cToA <? desc_length changes - updateMargin then _ else _) as [[tA tB]|];
    [|discriminate].
  destruct (if isA then _ else _) as [diffA diffB].
  destruct (rev ranges) as [|last before] eqn:Er.
  - intros E. inversion E; subst. intros [|i] r1 r2 E1 E2; cbn in E2; discriminate.
  - assert (Hr : ranges = rev before ++ [last]).
    { rewrite <- (rev_involutive ranges), Er. reflexivity. }
    destruct (Z.geb_spec (Range.toA last) fA) as [Hge|Hlt]; intros E; inversion E; subst.
    + eapply rangesApart_replace_last; [exact Hap|reflexivity].
    + apply rangesApart_snoc; [exact Hap|]. cbn. lia.
Qed.

Lemma findRanges_loop_apart fuel chunks changes isA otherLen rs : forall ranges ranges',
  rangesApart ranges ->
  findRanges_loop fuel chunks changes isA otherLen ranges rs = Some ranges' ->
  rangesApart ranges'.
Proof.
  induction rs as [|r rs IH]; intros ranges ranges' Hap E; cbn [findRanges_loop] in E.
  - inversion E; subst. exact Hap.
  - destruct (addRange fuel chunks changes isA otherLen ranges r) as [ranges1|] eqn:E1;
      [|discriminate].
    eapply IH; [|exact E]. eapply addRange_apart; eauto.
Qed.

(** X26. The ranges that findRangesForChange returns do not touch on the A
    side: each one ends before the next one starts. *)
Theorem findRangesForChange_apart (fuel : nat) (chunks : list Chunk.t)
        (changes : ChangeDesc) (isA : bool) (otherLen : Z) (ranges : list Range.t) :
  findRangesForChange fuel chunks changes isA otherLen = Some ranges ->
  rangesApart ranges.
Proof.
  unfold findRangesForChange. apply findRanges_loop_apart.
  intros [|i] r1 r2 E1 E2; discriminate.
Qed.

Lemma findRangesForChange_apart_witness :
  rangesApart [Range.mk 0 1101 0 1101 0 0; Range.mk 2990 5000 2990 5000 0 0].
Proof.
  apply (findRangesForChange_apart 8
           [Chunk.mk [mkChange 0 5 0 5] 90 120 90 120 true;
            Chunk.mk [mkChange 0 5 0 5] 2990 3010 2990 3010 true]
           (mkChangeDesc 5000 [(100, 101, 100, 101); (4000, 4001, 4000, 4001)])
           true 5000).
  reflexivity.
Defined.

(** ** The changes inside the chunks *)

Lemma Change_offset_offset (c : Change) (x y x' y' : Z) :
  Change_offset (Change_offset c x y) x' y' = Change_offset c (x + x') (y + y').
Proof. unfold Change_offset. cbn. f_equal; lia. Qed.

Lemma toChunks_loop_changes a b offA offB precise rest :
  forall chunk fromA toA fromB toB chunks,
    toChunks_loop a b offA offB precise chunk fromA toA fromB toB rest = Some chunks ->
    concat (map documentChanges chunks)
    = map (fun ch => Change_offset ch fromA fromB) chunk
      ++ map (fun ch => Change_offset ch offA offB) rest
    /\ Forall (fun c => Chunk.precise c = precise) chunks
    /\ chunks <> [].
Proof.
  induction rest as [|next rest IH]; intros chunk fromA toA fromB toB chunks E;
    cbn [toChunks_loop] in E.
  - inversion E; subst. cbn. rewrite !app_nil_r. unfold documentChanges. cbn.
    split; [reflexivity|]. split; [repeat constructor|discriminate].
  - destruct next as [nFromA nToA nFromB nToB].
    destruct (fromLine a b (nFromA + offA) (nFromB + offB)) as [[nextA nextB]|];
      [|discriminate].
    destruct (toLine a b (nToA + offA) (nToB + offB)) as [[toA' toB']|]; [|discriminate].
    destruct ((nextA >? toA + 1) && (nextB >? toB + 1)).
    + destruct (toChunks_loop a b offA offB precise _ nextA toA' nextB toB' rest)
        as [chunks'|] eqn:E'; [|discriminate].
      inversion E; subst. apply IH in E'. destruct E' as (Hc & Hp & _).
      split; [|split; [constructor; [reflexivity|exact Hp]|discriminate]].
      cbn [map concat]. rewrite Hc. unfold documentChanges at 1. cbn [Chunk.changes
        Chunk.fromA Chunk.fromB map app].
      rewrite Change_offset_offset. do 2 f_equal.
      unfold Change_offset; cbn; f_equal; lia.
    + apply IH in E. destruct E as (Hc & Hp & Hne).
      split; [|split; assumption].
      rewrite Hc. rewrite map_app. cbn [map]. rewrite Change_offset_offset.
      rewrite <- app_assoc. cbn [app]. do 2 f_equal.
      unfold Change_offset; cbn; f_equal; lia.
Qed.

(** X27. toChunks loses and reorders no change: the changes of the returned
    chunks, put back at the start of their chunk, are the given changes
    shifted by (offA, offB), in the same order; every chunk carries the
    given precise flag; and no chunk is returned exactly when no change is
    given. *)
Theorem toChunks_keeps_changes (a b : Text) (offA offB : Z) (precise : bool)
        (changes : list Change) (chunks : list Chunk.t) :
  toChunks a b offA offB precise changes = Some chunks ->
  concat (map documentChanges chunks) = map (fun ch => Change_offset ch offA offB) changes
  /\ Forall (fun c => Chunk.precise c = precise) chunks
  /\ (chunks = [] <-> changes = []).
Proof.
  unfold toChunks. destruct changes as [|change rest].
  - intros E. inversion E; subst. cbn. repeat split; auto.
  - destruct change as [cFromA cToA cFromB cToB].
    destruct (fromLine a b (cFromA + offA) (cFromB + offB)) as [[fromA fromB]|];
      [|discriminate].
    destruct (toLine a b (cToA + offA) (cToB + offB)) as [[toA toB]|]; [|discriminate].
    intros E. apply toChunks_loop_changes in E. destruct E as (Hc & Hp & Hne).
    split; [|split; [exact Hp|split; [contradiction|discriminate]]].
    rewrite Hc. cbn [map app]. rewrite Change_offset_offset. f_equal.
    unfold Change_offset; cbn; f_equal; lia.
Qed.

Lemma toChunks_keeps_changes_witness :
  let chunks := [Chunk.mk [mkChange 0 1 0 1] 6 12 6 12 true] in
  concat (map documentChanges chunks)
  = map (fun ch => Change_offset ch 0 0) [mkChange 6 7 6 7]
  /\ Forall (fun c => Chunk.precise c = true) chunks
  /\ (chunks = [] <-> [mkChange 6 7 6 7] = []).
Proof.
  intro chunks. apply (toChunks_keeps_changes lines_2 lines_Y 0 0 true). reflexivity.
Defined.

(** ** [findPos] *)

Lemma nth_error_last {A} (l : list A) (x : A) :
  nth_error (l ++ [x]) (length l) = Some x.
Proof. rewrite nth_error_app2 by lia. now rewrite Nat.sub_diag. Qed.

Lemma rev_last_nth {A} (l : list A) :
  l <> [] ->
  match rev l with
  | last :: _ => nth_error l (length l - 1) = Some last
  | [] => False
  end.
Proof.
  intros Hne. destruct l as [|x l] using rev_ind; [contradiction|].
  rewrite rev_app_distr. cbn [rev app]. rewrite length_app. cbn [length].
  replace (length l + 1 - 1)%nat with (length l) by lia. apply nth_error_last.
Qed.

Section FindPos.
Variables (before inside after : list Chunk.t) (pos : Z) (isA start : bool).
Let chunks := before ++ inside ++ after.

Hypothesis Hshape : Forall (fun c => chunkFrom isA c <= chunkTo isA c) chunks.
Hypothesis Hbefore : Forall (fun c => chunkTo isA c <= pos) before.
Hypothesis Hinside : Forall (fun c => chunkFrom isA c <= pos < chunkTo isA c) inside.
Hypothesis Hafter : Forall (fun c => pos < chunkFrom isA c) after.
Hypothesis Hone : (length inside <= 1)%nat.
Hypothesis Hlen : Z.of_nat (length chunks) < 2 ^ 30.

Let expected : Z * Z :=
  match inside with
  | c :: _ => if start then (Chunk.fromA c, Chunk.fromB c) else (Chunk.toA c, Chunk.toB c)
  | [] => besideChunks before pos isA
  end.

Lemma chunks_length :
  length chunks = (length before + length inside + length after)%nat.
Proof. unfold chunks. rewrite !length_app. lia. Qed.

Lemma findPos_loop_spec (n : nat) : forall lo hi,
  0 <= lo <= Z.of_nat (length before) ->
  Z.of_nat (length before + length inside) <= hi <= Z.of_nat (length chunks) ->
  (Z.to_nat (hi - lo) < n)%nat ->
  findPos_loop n chunks pos isA start lo hi = Some expected.
Proof.
  pose proof chunks_length as Hcl.
  induction n as [|n IH]; intros lo hi Hlo Hhi Hn; [lia|]. cbn [findPos_loop].
  destruct (Z.eqb_spec lo hi) as [->|Hne].
  - assert (length inside = O) by lia.
    destruct inside as [|c ins] eqn:Ei; [|cbn in *; lia].
    assert (Hk : hi = Z.of_nat (length before)) by (cbn in *; lia).
    unfold expected, besideChunks.
    destruct (Z.eqb_spec hi 0) as [Hz|Hnz].
    + destruct before as [|b0 bs]; [reflexivity|cbn in *; lia].
    + pose proof (rev_last_nth before) as Hl.
      destruct (rev before) as [|last rb] eqn:Er.
      * exfalso. apply Hl. intros ->. cbn in *. lia.
      * replace (Z.to_nat (hi - 1)) with (length before - 1)%nat by lia.
        unfold chunks. rewrite nth_error_app1 by lia.
        rewrite Hl; [reflexivity|]. intros ->. cbn in *. lia.
  - rewrite sar32_half by (change (2 ^ 30) with 1073741824 in Hlen; lia).
    assert (Hmid : lo <= (lo + hi) / 2 < hi).
    { split; [apply Z.div_le_lower_bound; lia | apply Z.div_lt_upper_bound; lia]. }
    set (mid := (lo + hi) / 2) in *.
    destruct (Z.ltb_spec mid 0); [lia|].
    destruct (nth_error chunks (Z.to_nat mid)) as [c|] eqn:Ec;
      [|apply nth_error_None in Ec; lia].
    assert (Hc : chunkFrom isA c <= chunkTo isA c).
    { rewrite Forall_forall in Hshape. apply Hshape. eapply nth_error_In; eauto. }
    replace (if isA then (Chunk.fromA c, Chunk.toA c) else (Chunk.fromB c, Chunk.toB c))
      with (chunkFrom isA c, chunkTo isA c) by (destruct isA; reflexivity).
    destruct (Nat.lt_ge_cases (Z.to_nat mid) (length before)) as [Hb|Hb].
    + unfold chunks in Ec. rewrite nth_error_app1 in Ec by lia.
      assert (chunkTo isA c <= pos).
      { rewrite Forall_forall in Hbefore. apply Hbefore. eapply nth_error_In; eauto. }
      destruct (Z.gtb_spec (chunkFrom isA c) pos); [lia|].
      destruct (Z.leb_spec (chunkTo isA c) pos); [|lia].
      apply IH; lia.
    + unfold chunks in Ec. rewrite nth_error_app2 in Ec by lia.
      destruct (Nat.lt_ge_cases (Z.to_nat mid - length before) (length inside)) as [Hi|Hi].
      * rewrite nth_error_app1 in Ec by lia.
        assert (chunkFrom isA c <= pos < chunkTo isA c).
        { rewrite Forall_forall in Hinside. apply Hinside. eapply nth_error_In; eauto. }
        destruct (Z.gtb_spec (chunkFrom isA c) pos); [lia|].
        destruct (Z.leb_spec (chunkTo isA c) pos); [lia|].
        unfold expected. destruct inside as [|c0 [|c1 ins]]; cbn [length] in *; try lia.
        replace (Z.to_nat mid - length before)%nat with O in Ec by lia.
        cbn in Ec. inversion Ec; subst. reflexivity.
      * rewrite nth_error_app2 in Ec by lia.
        assert (pos < chunkFrom isA c).
        { rewrite Forall_forall in Hafter. apply Hafter. eapply nth_error_In; eauto. }
        destruct (Z.gtb_spec (chunkFrom isA c) pos); [|lia].
        apply IH; lia.
Qed.
End FindPos.

(** X28. On fewer than 2^30 chunks that are in order on the side looked at
    (chunks ending at or before pos, then at most one chunk holding pos,
    then chunks starting after pos), findPos returns the start of the chunk
    that holds pos (its end when start is false); when no chunk holds pos it
    returns the end of the last chunk before pos, or (0, 0), moved on both
    sides by the distance of pos from it. *)
Theorem findPos_sorted (fuel : nat) (before inside after : list Chunk.t) (pos : Z)
        (isA start : bool) :
  Forall (fun c => chunkFrom isA c <= chunkTo isA c) (before ++ inside ++ after) ->
  Forall (fun c => chunkTo isA c <= pos) before ->
  Forall (fun c => chunkFrom isA c <= pos < chunkTo isA c) inside ->
  Forall (fun c => pos < chunkFrom isA c) after ->
  (length inside <= 1)%nat ->
  Z.of_nat (length (before ++ inside ++ after)) < 2 ^ 30 ->
  (length (before ++ inside ++ after) < fuel)%nat ->
  findPos fuel (before ++ inside ++ after) pos isA start
  = Some match inside with
         | c :: _ => if start then (Chunk.fromA c, Chunk.fromB c)
                     else (Chunk.toA c, Chunk.toB c)
         | [] => besideChunks before pos isA
         end.
Proof.
  intros Hshape Hb Hi Ha Hone Hlen Hfuel. unfold findPos.
  apply findPos_loop_spec; auto; rewrite ?length_app in *; lia.
Qed.

Lemma findPos_sorted_witness :
  findPos 4 ([Chunk.mk [] 0 3 0 4 true]
             ++ [Chunk.mk [] 10 12 11 13 true] ++ [Chunk.mk [] 20 25 21 26 true])
          11 true false
  = Some (12, 13).
Proof.
  apply (findPos_sorted 4 [Chunk.mk [] 0 3 0 4 true] [Chunk.mk [] 10 12 11 13 true]
           [Chunk.mk [] 20 25 21 26 true] 11 true false).
  - repeat constructor; simpl; lia.
  - repeat constructor; simpl; lia.
  - repeat constructor; simpl; lia.
  - repeat constructor; simpl; lia.
  - simpl. lia.
  - vm_compute. reflexivity.
  - simpl. lia.
Defined.

(** ** The ends of the chunks *)

Lemma lineStart_bounds (s : str) (n : nat) : forall i start,
  0 <= start <= i -> 0 <= lineStart s n i start <= i + Z.of_nat n.
Proof.
  revert s. induction n as [|n IH]; intros s i start H; destruct s as [|c s'];
    cbn [lineStart]; try lia.
  destruct (c =? 10); specialize (IH s' (i + 1)).
  - specialize (IH (i + 1)). lia.
  - specialize (IH start). lia.
Qed.

Lemma indexOf_from_bounds (pat s : str) : forall pos,
  indexOf_from pat s pos = -1
  \/ pos <= indexOf_from pat s pos <= pos + Z.of_nat (length s).
Proof.
  induction s as [|c s IH]; intros pos; cbn [indexOf_from].
  - destruct (isPrefix pat []); [right; cbn; lia|left; reflexivity].
  - destruct (isPrefix pat (c :: s)); [right; cbn [length]; lia|].
    destruct (IH (pos + 1)) as [E|E]; [left; exact E|right; cbn [length]; lia].
Qed.

Lemma lineAt_bounds (doc : Text) (pos : Z) (l : Line) :
  lineAt doc pos = Some l ->
  0 <= line_from l <= pos /\ pos <= line_to l <= slen doc.
Proof.
  unfold lineAt.
  destruct (Z.ltb_spec pos 0); [discriminate|].
  destruct (Z.gtb_spec pos (slen doc)); [discriminate|]. cbn [orb].
  intros E. inversion E; subst l; clear E. cbn [line_from line_to].
  split.
  - pose proof (lineStart_bounds doc (Z.to_nat pos) 0 0). lia.
  - unfold indexOf. rewrite Z.max_l by lia. rewrite Z.min_l by lia.
    destruct (indexOf_from_bounds [10] (skipn (Z.to_nat pos) doc) pos) as [E|E].
    + rewrite E. cbn. lia.
    + destruct (Z.eqb_spec (indexOf_from [10] (skipn (Z.to_nat pos) doc) pos) (-1));
        [lia|].
      rewrite length_skipn in E. unfold slen in *. lia.
Qed.

Lemma fromLine_bounds (a b : Text) (fromA fromB fA fB : Z) :
  fromLine a b fromA fromB = Some (fA, fB) ->
  0 <= fA <= slen a /\ 0 <= fB <= slen b.
Proof.
  unfold fromLine.
  destruct (lineAt a fromA) as [lA|] eqn:EA; [|discriminate].
  destruct (lineAt b fromB) as [lB|] eqn:EB; [|discriminate].
  apply lineAt_bounds in EA, EB.
  destruct (Z.eqb_spec (line_to lA) fromA); destruct (Z.eqb_spec (line_to lB) fromB);
    destruct (Z.ltb_spec fromA (slen a)); destruct (Z.ltb_spec fromB (slen b));
    cbn [andb]; intros E; inversion E; subst; lia.
Qed.

Lemma toLine_bounds (a b : Text) (toA toB tA tB : Z) :
  toLine a b toA toB = Some (tA, tB) ->
  tA <= slen a + 1 /\ tB <= slen b + 1.
Proof.
  unfold toLine.
  destruct (lineAt a toA) as [lA|] eqn:EA; [|discriminate].
  destruct (lineAt b toB) as [lB|] eqn:EB; [|discriminate].
  apply lineAt_bounds in EA, EB.
  destruct ((line_from lA =? toA) && (line_from lB =? toB));
    intros E; inversion E; subst; lia.
Qed.


Lemma toChunks_loop_ends a b offA offB precise rest :
  forall chunk fromA toA fromB toB chunks,
    0 <= fromA <= slen a -> 0 <= fromB <= slen b ->
    toA <= slen a + 1 -> toB <= slen b + 1 ->
    toChunks_loop a b offA offB precise chunk fromA toA fromB toB rest = Some chunks ->
    Forall (endsInside a b) chunks.
Proof.
  induction rest as [|next rest IH]; intros chunk fromA toA fromB toB chunks HA HB HtA HtB E;
    cbn [toChunks_loop] in E.
  - inversion E; subst. constructor; [|constructor].
    unfold endsInside, Chunk.endA, Chunk.endB. cbn. lia.
  - destruct next as [nFromA nToA nFromB nToB].
    destruct (fromLine a b (nFromA + offA) (nFromB + offB)) as [[nextA nextB]|] eqn:Ef;
      [|discriminate].
    destruct (toLine a b (nToA + offA) (nToB + offB)) as [[toA' toB']|] eqn:Et;
      [|discriminate].
    apply fromLine_bounds in Ef. apply toLine_bounds in Et.
    destruct ((nextA >? toA + 1) && (nextB >? toB + 1)).
    + destruct (toChunks_loop a b offA offB precise _ nextA toA' nextB toB' rest)
        as [chunks'|] eqn:E'; [|discriminate].
      inversion E; subst. constructor.
      * unfold endsInside, Chunk.endA, Chunk.endB. cbn. lia.
      * eapply IH; [| | | |exact E']; lia.
    + eapply IH; [| | | |exact E]; lia.
Qed.

(** X29. Every chunk that toChunks returns starts inside the two documents,
    and its endA and endB are positions of the documents at or after its
    start. *)
Theorem toChunks_ends_inside (a b : Text) (offA offB : Z) (precise : bool)
        (changes : list Change) (chunks : list Chunk.t) :
  toChunks a b offA offB precise changes = Some chunks ->
  Forall (endsInside a b) chunks.
Proof.
  unfold toChunks. destruct changes as [|change rest].
  - intros E. inversion E. constructor.
  - destruct change as [cFromA cToA cFromB cToB].
    destruct (fromLine a b (cFromA + offA) (cFromB + offB)) as [[fromA fromB]|] eqn:Ef;
      [|discriminate].
    destruct (toLine a b (cToA + offA) (cToB + offB)) as [[toA toB]|] eqn:Et;
      [|discriminate].
    apply fromLine_bounds in Ef. apply toLine_bounds in Et.
    apply toChunks_loop_ends; lia.
Qed.

Lemma toChunks_ends_inside_witness :
  Forall (endsInside lines_2 lines_Y) [Chunk.mk [mkChange 0 1 0 1] 6 12 6 12 true].
Proof.
  apply (toChunks_ends_inside lines_2 lines_Y 0 0 true [mkChange 6 7 6 7]). reflexivity.
Defined.

(** ** The chunks of [toChunks] do not touch *)

Lemma fromLine_le (a b : Text) (fromA fromB fA fB : Z) :
  fromLine a b fromA fromB = Some (fA, fB) -> fA <= fromA + 1 /\ fB <= fromB + 1.
Proof.
  unfold fromLine.
  destruct (lineAt a fromA) as [lA|] eqn:EA; [|discriminate].
  destruct (lineAt b fromB) as [lB|] eqn:EB; [|discriminate].
  apply lineAt_bounds in EA, EB.
  destruct ((line_to lA =? fromA) && (line_to lB =? fromB)
            && (fromA <? slen a) && (fromB <? slen b));
    intros E; inversion E; subst; lia.
Qed.

Lemma toLine_ge (a b : Text) (toA toB tA tB : Z) :
  toLine a b toA toB = Some (tA, tB) -> toA <= tA /\ toB <= tB.
Proof.
  unfold toLine.
  destruct (lineAt a toA) as [lA|] eqn:EA; [|discriminate].
  destruct (lineAt b toB) as [lB|] eqn:EB; [|discriminate].
  apply lineAt_bounds in EA, EB.
  destruct ((line_from lA =? toA) && (line_from lB =? toB));
    intros E; inversion E; subst; lia.
Qed.

Lemma toChunks_loop_apart a b offA offB precise rest :
  forall chunk fromA toA fromB toB lastA lastB chunks,
    fromA <= lastA + offA + 1 -> lastA + offA <= toA ->
    fromB <= lastB + offB + 1 -> lastB + offB <= toB ->
    ordered lastA lastB rest = true ->
    toChunks_loop a b offA offB precise chunk fromA toA fromB toB rest = Some chunks ->
    chunksApart chunks
    /\ exists c chunks', chunks = c :: chunks'
                         /\ Chunk.fromA c = fromA /\ Chunk.fromB c = fromB.
Proof.
  induction rest as [|next rest IH];
    intros chunk fromA toA fromB toB lastA lastB chunks HfA HtA HfB HtB Hord E;
    cbn [toChunks_loop] in E.
  - inversion E; subst. split.
    + cbn. split; [lia|]. split; [lia|]. split; exact I.
    + eexists. eexists. split; [reflexivity|]. split; reflexivity.
  - destruct next as [nFromA nToA nFromB nToB].
    simpl in Hord.
    apply andb_true_iff in Hord. destruct Hord as [Hord Hrest].
    apply andb_true_iff in Hord. destruct Hord as [Hord H4].
    apply andb_true_iff in Hord. destruct Hord as [Hord H3].
    apply andb_true_iff in Hord. destruct Hord as [H1 H2].
    apply Z.leb_le in H1, H2, H3, H4.
    destruct (fromLine a b (nFromA + offA) (nFromB + offB)) as [[nextA nextB]|] eqn:Ef;
      [|discriminate].
    destruct (toLine a b (nToA + offA) (nToB + offB)) as [[toA' toB']|] eqn:Et;
      [|discriminate].
    apply fromLine_le in Ef. apply toLine_ge in Et.
    destruct ((nextA >? toA + 1) && (nextB >? toB + 1)) eqn:Enew.
    + apply andb_true_iff in Enew. destruct Enew as [EA EB].
      destruct (toChunks_loop a b offA offB precise _ nextA toA' nextB toB' rest)
        as [chunks'|] eqn:E'; [|discriminate].
      inversion E; subst; clear E.
      destruct (IH _ nextA toA' nextB toB' nToA nToB chunks'
                  ltac:(lia) ltac:(lia) ltac:(lia) ltac:(lia) Hrest E')
        as (Hap & c & chunks'' & -> & HcA & HcB).
      split.
      * cbn [chunksApart Chunk.fromA Chunk.toA Chunk.fromB Chunk.toB].
        split; [lia|]. split; [lia|]. split; [|exact Hap].
        rewrite HcA, HcB. lia.
      * eexists. eexists. split; [reflexivity|]. split; reflexivity.
    + eapply (IH _ fromA toA' fromB toB' nToA nToB chunks); [| | | | exact Hrest | exact E];
        lia.
Qed.

(** X30. For changes in ascending order (each with from <= to, none starting
    before the one in front of it ends), the chunks that toChunks returns
    have from <= to and are in ascending order on both sides, and no chunk
    touches the next one: it ends before the next one starts, in A and in B. *)
Theorem toChunks_apart (a b : Text) (offA offB : Z) (precise : bool)
        (changes : list Change) (chunks : list Chunk.t) (pA pB : Z) :
  ordered pA pB changes = true ->
  toChunks a b offA offB precise changes = Some chunks ->
  chunksApart chunks.
Proof.
  unfold toChunks. destruct changes as [|change rest].
  - intros _ E. inversion E. exact I.
  - destruct change as [cFromA cToA cFromB cToB]. intros Hord.
    simpl in Hord.
    apply andb_true_iff in Hord. destruct Hord as [Hord Hrest].
    apply andb_true_iff in Hord. destruct Hord as [Hord H4].
    apply andb_true_iff in Hord. destruct Hord as [Hord H3].
    apply andb_true_iff in Hord. destruct Hord as [H1 H2].
    apply Z.leb_le in H1, H2, H3, H4.
    destruct (fromLine a b (cFromA + offA) (cFromB + offB)) as [[fromA fromB]|] eqn:Ef;
      [|discriminate].
    destruct (toLine a b (cToA + offA) (cToB + offB)) as [[toA toB]|] eqn:Et;
      [|discriminate].
    apply fromLine_le in Ef. apply toLine_ge in Et. intros E.
    eapply proj1.
    eapply (toChunks_loop_apart a b offA offB precise rest _ fromA toA fromB toB cToA cToB
              chunks); [| | | | exact Hrest | exact E]; lia.
Qed.

Lemma toChunks_apart_witness :
  chunksApart [Chunk.mk [mkChange 0 1 0 1] 0 6 0 6 true;
               Chunk.mk [mkChange 0 1 0 1] 12 18 12 18 true].
Proof.
  apply (toChunks_apart lines_2 lines_Y 0 0 true [mkChange 0 1 0 1; mkChange 12 13 12 13]
           _ 0 0).
  - reflexivity.
  - reflexivity.
Defined.

(** * The incremental update, window by window *)

(** ** Slices of a window *)










(** ** The presentation pass inside a window

    [w] is the window [f .. t] of the string [s], and [r] units of [s]
    follow it.  A function of the presentation pass gives the same answer
    on [w] as on [s], shifted by [f], when it is asked far enough from each
    end of the window that is not an end of [s]. *)

Section Window.
Variable wordChar : option (str -> bool).
Variables (s : str) (f t : Z).
Hypothesis Hf : 0 <= f <= t.
Hypothesis Ht : t <= slen s.










End Window.











Section WindowAlign.
Variable fuel : nat.
Variables (s : str) (f t : Z).
Hypothesis Hf : 0 <= f <= t.
Hypothesis Ht : t <= slen s.

End WindowAlign.

Section WindowChange.
Variable wordChar : option (str -> bool).
Variable fuel : nat.
Variables (a b : str) (f tA tB : Z).
Hypothesis HfA : 0 <= f <= tA.
Hypothesis HtA : tA <= slen a.
Hypothesis HfB : 0 <= f <= tB.
Hypothesis HtB : tB <= slen b.
Hypothesis Hr : slen a - tA = slen b - tB.

End WindowChange.



Section WindowNormalize.
Variable wordChar : option (str -> bool).
Variable fuel : nat.
Variables (a b : str) (f tA tB : Z).
Hypothesis HfA : 0 <= f <= tA.
Hypothesis HtA : tA <= slen a.
Hypothesis HfB : 0 <= f <= tB.
Hypothesis HtB : tB <= slen b.
Hypothesis Hr : slen a - tA = slen b - tB.


End WindowNormalize.

Section WindowDiff.
Variable wordChar : option (str -> bool).
Variable fuel : nat.
Variables (a b : str) (f tA tB : Z).
Hypothesis HfA : 0 <= f <= tA.
Hypothesis HtA : tA <= slen a.
Hypothesis HfB : 0 <= f <= tB.
Hypothesis HtB : tB <= slen b.
Hypothesis Hr : slen a - tA = slen b - tB.



End WindowDiff.

(** ** The diff of two strings with one basic difference *)









Section WindowBuild.
Variable wordChar : option (str -> bool).
Variable now : nat -> Z.
Variable fuel : nat.
Variables (a b : str) (f tA tB : Z).
Variables (p lenA lenB : Z).
Hypothesis Ha : noPairs a.
Hypothesis HfA : 0 <= f <= tA.
Hypothesis HtA : tA <= slen a.
Hypothesis Hr : slen a - tA = slen b - tB.
Hypothesis Hp : f <= p.
Hypothesis HlA : 0 <= lenA.
Hypothesis HlB : 0 <= lenB.
Hypothesis Hin : p + lenA <= tA.
Hypothesis Hlen : slen a - lenA = slen b - lenB.
Hypothesis Hpre : same a b 0 0 p.
Hypothesis Hend : prefixEnds a 0 (slen a) b 0 (slen b) p.
Hypothesis Hsuf : same a b (p + lenA) (p + lenB) (slen a - p - lenA).
Hypothesis Hbasic : basicChange a b (mkChange p (p + lenA) p (p + lenB)).
Hypothesis Hleft : f = 0 \/ Z.max lenA lenB + 40 <= p - f.
Hypothesis Hright : tA = slen a \/ Z.max lenA lenB + 40 <= tA - (p + lenA).
Hypothesis Hmin : Z.min (slen a) (slen b) <= 2 ^ 30.
Hypothesis Hfuel : (Z.to_nat (slen a) + 32 <= fuel)%nat.





End WindowBuild.

(** ** One window against a full rebuild *)





Section OneWindow.
Variable wordChar : option (str -> bool).
Variable now : nat -> Z.
Variable fuel : nat.
Variables (a b : Text) (conf : DiffConfig).



End OneWindow.

(** An edit whose changed ranges all start within the first 1000 units and
    end within the last 1000 units of the document before the edit (so every
    edit of a document of at most 1000 units) has the whole documents as its
    one window. *)
Lemma whole_window_step fuel (a b : Text) (chunks : list Chunk.t) (changes : ChangeDesc) :
  changedRanges changes <> [] ->
  Forall (wholeWindow changes) (changedRanges changes) ->
  slen b = desc_length changes + lengthDelta (changedRanges changes) ->
  holdsChunks (Range.mk 0 (slen a) 0 (desc_length changes) 0
                        (lengthDelta (changedRanges changes))) chunks ->
  windowStep fuel a b chunks changes.
Proof.
  intros Hne Hrs Hb Hheld.
  exists (Range.mk 0 (slen a) 0 (desc_length changes) 0
                   (lengthDelta (changedRanges changes))).
  split; [apply findRangesForChange_whole; [apply slen_nonneg|assumption|assumption]|].
  split; [exact Hheld|]. left. unfold wholeDocuments.
  cbn [Range.fromA Range.toA Range.fromB Range.toB Range.diffA Range.diffB]. lia.
Qed.

(** ** A sequence of edits *)

(** The update and the rebuild can also differ with no chunk outside the
    window.  Document A is the line "ab" 700 times, and so is B; a further
    line "ab" is then inserted into B after the 350th.  [Chunk.build] on the
    initial documents gives no chunk.  The window of the edit is 50 .. 2050
    in A and 50 .. 2053 in B; its diff finds the added line at the end of
    the window, the diff of the whole documents finds it at their end. *)
Lemma updateB_repeated_line_differs :
  let edit := mkChangeDesc 2100 [(1050, 1050, 1050, 1053)] in
  let g := initial in
  rhyme 701 = firstn 1050 (rhyme 700) ++ [97; 98; 10] ++ skipn 1050 (rhyme 700)
  /\ result (Chunk_build None (fun _ => 0) 100 (rhyme 700) (rhyme 700) noConfig g)
     = Some []
  /\ option_map (map Chunk.bounds)
       (result (Chunk_updateB None (fun _ => 0) 100 (rhyme 700) (rhyme 701) noConfig
                              [] edit g))
     = Some [(2049, 2052, 2049, 2055)]
  /\ option_map (map Chunk.bounds)
       (result (Chunk_build None (fun _ => 0) 100 (rhyme 700) (rhyme 701) noConfig g))
     = Some [(2100, 2100, 2100, 2103)].
Proof.
  intros edit g.
  split; [|split; [|split]]; vm_compute; reflexivity.
Qed.





